(** * cacheman.cachewrap: the cache wrapper, its lifecycle and its cascades

    A shallow embedding of [src/cacheman/cachewrap.py] (class [CacheWrap]).

    - Python values are the inductive [value]; [VNone] is Python's [None],
      so "contents absent" is [contents w = VNone].
    - Wrappers are objects: they live in a heap keyed by object identity,
      and the registries of the cache managers map names to identities.
    - A method is a computation in the monad [M]: it threads the program
      state and ends by returning or by raising a Python exception.  Two
      more endings belong to the model only: [OutOfFuel], the call-depth
      budget is exhausted, and [Dangling], a reference names no object.
    - The callbacks are arbitrary callables supplied by the caller.  They are
      modelled as functions over an external world [W] (files, counters,
      ...) that return a value or raise.  They do not call back into the
      wrappers and do not mutate their arguments in place.
    - The [log] field of the state is a history variable: each node-local
      body records that it ran.  No definition reads it. *)

From stdpp Require Import gmap strings list fin_maps.

Open Scope string_scope.
Open Scope list_scope.
Open Scope nat_scope.

(** ** Python values and exceptions *)

Inductive value :=
| VNone
| VBool (b : bool)
| VInt (z : Z)
| VDict (d : gmap string string).

#[global] Instance value_eq_dec : EqDecision value.
Proof. solve_decision. Defined.

(** [x is None] *)
Definition is_None (v : value) : bool :=
  match v with VNone => true | _ => false end.

(** Truth value testing, as [if x:], [x and y], [x or y] and [not x] use it. *)
Definition truthy (v : value) : bool :=
  match v with
  | VNone => false
  | VBool b => b
  | VInt z => negb (Z.eqb z 0)
  | VDict d => negb (bool_decide (d = ∅))
  end.

(** [x.__class__.__name__] *)
Definition type_name (v : value) : string :=
  match v with
  | VNone => "NoneType"
  | VBool _ => "bool"
  | VInt _ => "int"
  | VDict _ => "dict"
  end.

Inductive exn :=
| AttributeError (msg : string)
| KeyError (key : string)
| TypeError (msg : string)
| CallbackFailure (tag : string).

Inductive outcome (A : Type) :=
| Return (a : A)
| Raise (e : exn)
| OutOfFuel
| Dangling.
Arguments Return {A} a.
Arguments Raise {A} e.
Arguments OutOfFuel {A}.
Arguments Dangling {A}.

(** The three classes of the module; [self.__class__.__name__]. *)
Inductive wrapper_class := CacheWrapC | NonPersistentCacheC | PersistentCacheC.

Definition class_name (c : wrapper_class) : string :=
  match c with
  | CacheWrapC => "CacheWrap"
  | NonPersistentCacheC => "NonPersistentCache"
  | PersistentCacheC => "PersistentCache"
  end.

(** History of the node-local bodies that ran. *)
Inductive action := ALoad | ASave | ADelete | ABuild.

Inductive event := Ev (a : action) (n : string).

#[global] Instance action_eq_dec : EqDecision action.
Proof. solve_decision. Defined.
#[global] Instance event_eq_dec : EqDecision event.
Proof. solve_decision. Defined.

Definition ev_name (e : event) : string := match e with Ev _ n => n end.
Definition ev_action (e : event) : action := match e with Ev a _ => a end.

(** [occurs_in needle hay]: [needle] is a substring of [hay]. *)
Fixpoint occurs_in (needle hay : string) : bool :=
  String.prefix needle hay ||
  match hay with
  | EmptyString => false
  | String _ hay' => occurs_in needle hay'
  end.



(** Modelled from the spec: [dict_loader] of the module [registers], which is
    not part of the sources; the spec calls it the default in-memory
    empty-mapping constructor. *)
Definition dict_loader : value := VDict ∅.

(** ** The monad of methods

    A method runs on a program state [St] and ends in an [outcome]; the state
    it leaves behind is kept in every case, as Python keeps the mutations made
    before an exception. *)
Definition M (St A : Type) : Type := St → outcome A * St.

Definition ret {St A} (a : A) : M St A := λ st, (Return a, st).

Definition bind {St A B} (c : M St A) (k : A → M St B) : M St B :=
  λ st,
    match c st with
    | (Return a, st') => k a st'
    | (Raise e, st') => (Raise e, st')
    | (OutOfFuel, st') => (OutOfFuel, st')
    | (Dangling, st') => (Dangling, st')
    end.

Definition raise {St A} (e : exn) : M St A := λ st, (Raise e, st).
Definition out_of_fuel {St A} : M St A := λ st, (OutOfFuel, st).

#[global] Instance M_ret {St} : MRet (M St) := @ret St.
#[global] Instance M_bind {St} : MBind (M St) := λ A B k c, bind c k.

Section CacheWrap.

Context {W : Type}.

(** A callable applied to its arguments: it runs on the external world and
    either raises or returns a value. *)
Definition effect : Type := W → (exn + value) * W.

(** ** The wrapper object (attributes set by [__init__])

    [dependents] is the set of names, kept as the list of its elements in
    the order an iteration visits them; [manager] is the identity of the
    cache manager; a callback that is not configured is [None]. *)
Record CacheWrap := {
  cls : wrapper_class;
  name : string;
  contents : value;
  dependents : list string;
  manager : nat;
  loader : option (string → effect);
  saver : option (string → value → effect);
  builder : option (string → effect);
  deleter : option (string → effect);
  pre_processor : option (value → effect);
  post_processor : option (value → effect);
  validator : option (value → effect)
}.

(** [self.contents = c] *)
Definition with_contents (c : value) (w : CacheWrap) : CacheWrap :=
  {| cls := cls w; name := name w; contents := c; dependents := dependents w;
     manager := manager w; loader := loader w; saver := saver w;
     builder := builder w; deleter := deleter w;
     pre_processor := pre_processor w; post_processor := post_processor w;
     validator := validator w |}.

Definition with_dependents (ds : list string) (w : CacheWrap) : CacheWrap :=
  {| cls := cls w; name := name w; contents := contents w; dependents := ds;
     manager := manager w; loader := loader w; saver := saver w;
     builder := builder w; deleter := deleter w;
     pre_processor := pre_processor w; post_processor := post_processor w;
     validator := validator w |}.

(** ** Program state

    [heap] holds the wrapper objects by identity.  [cache_by_name m] is the
    table of the manager with identity [m].  Modelled from the spec: the
    managers live in the modules [cacher] and [registers], which are not part
    of the sources; [retrieve_cache] is the spec's lookup by name, absent for
    an unknown name. *)
Record state := {
  heap : gmap nat CacheWrap;
  cache_by_name : nat → gmap string nat;
  world : W;
  log : list event
}.

Definition set_heap (h : gmap nat CacheWrap) (st : state) : state :=
  {| heap := h; cache_by_name := cache_by_name st; world := world st; log := log st |}.
Definition set_world (wd : W) (st : state) : state :=
  {| heap := heap st; cache_by_name := cache_by_name st; world := wd; log := log st |}.
Definition add_log (e : event) (st : state) : state :=
  {| heap := heap st; cache_by_name := cache_by_name st; world := world st;
     log := log st ++ [e] |}.

(** Reading [self]: the object behind the reference. *)
Definition get_obj (self : nat) : M state CacheWrap :=
  λ st, match heap st !! self with
        | Some w => (Return w, st)
        | None => (Dangling, st)
        end.

(** [self.contents = c] *)
Definition set_contents (self : nat) (c : value) : M state unit :=
  λ st, match heap st !! self with
        | Some w => (Return tt, set_heap (<[self := with_contents c w]> (heap st)) st)
        | None => (Dangling, st)
        end.

(** [self.dependents = ds] (an update in place of the set object) *)
Definition set_dependents (self : nat) (ds : list string) : M state unit :=
  λ st, match heap st !! self with
        | Some w => (Return tt, set_heap (<[self := with_dependents ds w]> (heap st)) st)
        | None => (Dangling, st)
        end.

(** Calling a callable. *)
Definition call (f : effect) : M state value :=
  λ st, let '(r, wd) := f (world st) in
        (match r with inl e => Raise e | inr v => Return v end, set_world wd st).

(** Recording that a node-local body runs. *)
Definition emit (e : event) : M state unit := λ st, (Return tt, add_log e st).

(** [self.manager.retrieve_cache(dependent)] *)
Definition retrieve_cache (mgr : nat) (dependent : string) : M state (option nat) :=
  λ st, (Return (cache_by_name st mgr !! dependent), st).

(** ** The mapping proxy *)

Definition _check_contents_present (self : nat) : M state unit :=
  w ← get_obj self;
  if is_None (contents w)
  then raise (AttributeError ("No cache contents defined for '" +:+ name w +:+ "'"))
  else ret tt.

(** What a mapping method of the contents does when the contents are no
    mapping: the attribute lookup [self.contents.<method>] fails. *)
Definition no_method {A} (c : value) (method : string) : M state A :=
  raise (AttributeError
           ("'" +:+ type_name c +:+ "' object has no attribute '" +:+ method +:+ "'")).

Definition __contains__ (self : nat) (key : string) : M state bool :=
  w ← get_obj self;
  if is_None (contents w) then ret false
  else match contents w with
       | VDict d => ret (bool_decide (is_Some (d !! key)))
       | c => no_method c "__contains__"
       end.

Definition __getitem__ (self : nat) (key : string) : M state string :=
  _check_contents_present self;;
  w ← get_obj self;
  match contents w with
  | VDict d => match d !! key with
               | Some v => ret v
               | None => raise (KeyError key)
               end
  | c => no_method c "__getitem__"
  end.

Definition __setitem__ (self : nat) (key v : string) : M state unit :=
  _check_contents_present self;;
  w ← get_obj self;
  match contents w with
  | VDict d => set_contents self (VDict (<[key := v]> d))
  | c => no_method c "__setitem__"
  end.

Definition __delitem__ (self : nat) (key : string) : M state unit :=
  _check_contents_present self;;
  w ← get_obj self;
  match contents w with
  | VDict d => match d !! key with
               | Some _ => set_contents self (VDict (delete key d))
               | None => raise (KeyError key)
               end
  | c => no_method c "__delitem__"
  end.

Definition __iter__ (self : nat) : M state (list string) :=
  _check_contents_present self;;
  w ← get_obj self;
  match contents w with
  | VDict d => ret ((map_to_list d).*1)
  | c => no_method c "__iter__"
  end.

Definition __len__ (self : nat) : M state nat :=
  _check_contents_present self;;
  w ← get_obj self;
  match contents w with
  | VDict d => ret (size d)
  | c => no_method c "__len__"
  end.

(** *** Attribute fallback

    [py_getter c g] is the bound method [getattr(c, g)] of the contents [c],
    when [hasattr(c, g)]; applied to an attribute name it yields the
    attribute, or [None] when it raises AttributeError. *)
Section Getattr.

Context {pyobj : Type} (py_getter : value → string → option (string → option pyobj)).

Definition getters : list string := ["__getattribute__"; "__getattr__"].

Fixpoint try_getters (c : value) (gs : list string) (attr : string) : option pyobj :=
  match gs with
  | [] => None
  | getter :: gs' =>
      match py_getter c getter with
      | Some get =>
          match get attr with
          | Some a => Some a
          | None => try_getters c gs' attr
          end
      | None => try_getters c gs' attr
      end
  end.

Definition __getattr__ (self : nat) (attr : string) : M state pyobj :=
  w ← get_obj self;
  match try_getters (contents w) getters attr with
  | Some a => ret a
  | None =>
      raise (AttributeError
               ("'" +:+ class_name (cls w) +:+ "' and '" +:+ type_name (contents w)
                +:+ "' objects have no attribute '" +:+ attr +:+ "'"))
  end.

End Getattr.

(** ** Dependents *)

(** An argument of [add_dependent] or an element of the constructor's
    [dependents]: a string, or a wrapper (given by its identity). *)
Inductive dependent :=
| DepName (s : string)
| DepWrapper (o : nat).

(** [dependent if isinstance(dependent, basestring) else dependent.name] *)
Definition _convert_dependent_to_name (d : dependent) : M state string :=
  match d with
  | DepName s => ret s
  | DepWrapper o => w ← get_obj o; ret (name w)
  end.

(** [s.add(x)] on a set kept in iteration order. *)
Definition set_add (x : string) (s : list string) : list string :=
  if bool_decide (x ∈ s) then s else s ++ [x].

(** Line 21 of [__init__]:
    [set([self._convert_dependent_to_name(d) for d in dependents] if dependents else [])] *)
Fixpoint init_dependents (ds : list dependent) : M state (list string) :=
  match ds with
  | [] => ret []
  | d :: ds' =>
      n ← _convert_dependent_to_name d;
      ns ← init_dependents ds';
      ret (set_add n ns)
  end.

(** [self.dependents.add(dependent)].  The argument is added as it is given.
    A set holds hashable values only, and a [CacheWrap] is not hashable: it
    inherits [__eq__] with [__hash__ = None] from [collections.Mapping], so
    [set.add] raises TypeError for it. *)
Definition add_dependent (self : nat) (d : dependent) : M state unit :=
  w ← get_obj self;
  match d with
  | DepName s => set_dependents self (set_add s (dependents w))
  | DepWrapper o =>
      d' ← get_obj o;
      raise (TypeError ("unhashable type: '" +:+ class_name (cls d') +:+ "'"))
  end.

(** ** The cascade machinery *)

(** [if seen_caches and self.name in seen_caches] *)
Definition already_seen (n : string) (seen_caches : option (gset string)) : bool :=
  match seen_caches with
  | Some s => negb (bool_decide (s = ∅)) && bool_decide (n ∈ s)
  | None => false
  end.

(** [_add_seen_cache]: the set is shared by reference along a cascade; the
    model returns the updated set and every caller threads it on. *)
Definition _add_seen_cache (self : nat) (seen_caches : option (gset string))
  : M state (gset string) :=
  w ← get_obj self;
  let seen_caches := default ∅ seen_caches in
  ret ({[name w]} ∪ seen_caches).

(** [for dependent in self._retrieve_dependent_caches(seen): dependent.op(.., seen)]

    [_retrieve_dependent_caches] is a generator: the test
    [dependent not in seen_dependents] of each name runs when the loop asks
    for the next cache, on the set as the earlier iterations left it.
    [visit o seen] is the loop body, the recursive call on the cache [o]; it
    returns the set as the call leaves it. *)
Fixpoint for_dependent_caches (visit : nat → gset string → M state (gset string))
    (mgr : nat) (ds : list string) (seen : gset string) : M state (gset string) :=
  match ds with
  | [] => ret seen
  | dependent :: ds' =>
      if bool_decide (dependent ∈ seen)
      then for_dependent_caches visit mgr ds' seen
      else
        cache ← retrieve_cache mgr dependent;
        match cache with
        | Some o =>
            seen' ← visit o seen;
            for_dependent_caches visit mgr ds' seen'
        | None => for_dependent_caches visit mgr ds' seen
        end
  end.

(** ** Lifecycle *)

Definition _pre_process (self : nat) (c : value) : M state value :=
  w ← get_obj self;
  match pre_processor w with
  | Some f => call (f c)
  | None => ret c
  end.

(** The result of the post-processor is dropped: the method returns the
    value it was given. *)
Definition _post_process (self : nat) (c : value) : M state value :=
  w ← get_obj self;
  match post_processor w with
  | Some f => call (f c);; ret c
  | None => ret c
  end.

(** Lines 137-146: the node-local part of [load]. *)
Definition load_body (self : nat) : M state value :=
  w ← get_obj self;
  emit (Ev ALoad (name w));;
  set_contents self VNone;;
  match loader w with
  | Some ld =>
      c ← call (ld (name w));
      set_contents self c;;
      reject ←
        (if is_None c then ret true
         else match validator w with
              | Some vd => ok ← call (vd c); ret (negb (truthy ok))
              | None => ret false
              end);
      if (reject : bool) then set_contents self VNone
      else (c' ← _post_process self c; set_contents self c')
  | None => ret tt
  end;;
  w' ← get_obj self;
  ret (contents w').

(** Lines 157-158: the node-local part of [save]. *)
Definition save_body (self : nat) : M state value :=
  w ← get_obj self;
  emit (Ev ASave (name w));;
  c ← _pre_process self (contents w);
  match saver w with
  | Some sv => r ← call (sv (name w) c); ret (if truthy r then r else c)
  | None => ret c
  end.

(** Lines 175-176: the node-local part of [delete_saved_content]. *)
Definition delete_body (self : nat) : M state unit :=
  w ← get_obj self;
  emit (Ev ADelete (name w));;
  match deleter w with
  | Some dl => call (dl (name w));; ret tt
  | None => ret tt
  end.

(** The methods take a budget [fuel] for the depth of nested method calls;
    a call without budget ends in [OutOfFuel].  Each returns the Python
    result together with the seen-set as it leaves it. *)

Fixpoint load (fuel : nat) (self : nat) (apply_to_dependents : bool)
    (seen_caches : option (gset string)) : M state (value * gset string) :=
  match fuel with
  | 0 => out_of_fuel
  | S fuel' =>
      w ← get_obj self;
      if already_seen (name w) seen_caches
      then ret (VNone, default ∅ seen_caches)
      else
        seen ← _add_seen_cache self seen_caches;
        seen ← (if apply_to_dependents
                then for_dependent_caches
                       (λ o s, r ← load fuel' o apply_to_dependents (Some s); ret r.2)
                       (manager w) (dependents w) seen
                else ret seen);
        r ← load_body self;
        ret (r, seen)
  end.

Fixpoint save (fuel : nat) (self : nat) (apply_to_dependents : bool)
    (seen_caches : option (gset string)) : M state (value * gset string) :=
  match fuel with
  | 0 => out_of_fuel
  | S fuel' =>
      w ← get_obj self;
      if already_seen (name w) seen_caches
      then ret (VNone, default ∅ seen_caches)
      else
        seen ← _add_seen_cache self seen_caches;
        seen ← (if apply_to_dependents
                then for_dependent_caches
                       (λ o s, r ← save fuel' o apply_to_dependents (Some s); ret r.2)
                       (manager w) (dependents w) seen
                else ret seen);
        r ← save_body self;
        ret (r, seen)
  end.

Definition invalidate (fuel : nat) (self : nat) (apply_to_dependents : bool)
    (seen_caches : option (gset string)) : M state (value * gset string) :=
  load fuel self apply_to_dependents seen_caches.

Fixpoint delete_saved_content (fuel : nat) (self : nat) (apply_to_dependents : bool)
    (seen_caches : option (gset string)) : M state (unit * gset string) :=
  match fuel with
  | 0 => out_of_fuel
  | S fuel' =>
      w ← get_obj self;
      if already_seen (name w) seen_caches
      then ret (tt, default ∅ seen_caches)
      else
        seen ← _add_seen_cache self seen_caches;
        seen ← (if apply_to_dependents
                then for_dependent_caches
                       (λ o s, r ← delete_saved_content fuel' o apply_to_dependents (Some s);
                               ret r.2)
                       (manager w) (dependents w) seen
                else ret seen);
        r ← delete_body self;
        ret (r, seen)
  end.

(** [_build]; its [self.save()] is a nested call. *)
Definition _build (fuel : nat) (self : nat) : M state value :=
  w ← get_obj self;
  emit (Ev ABuild (name w));;
  c ← match builder w with
      | None => _post_process self dict_loader
      | Some bd => c ← call (bd (name w)); _post_process self c
      end;
  set_contents self c;;
  save fuel self false None;;
  w' ← get_obj self;
  ret (contents w').

(** Lines 183-185: the node-local part of [invalidate_and_rebuild]. *)
Definition invalidate_and_rebuild_body (fuel : nat) (self : nat) : M state unit :=
  invalidate fuel self false None;;
  delete_saved_content fuel self false None;;
  _build fuel self;;
  ret tt.

Fixpoint invalidate_and_rebuild (fuel : nat) (self : nat) (apply_to_dependents : bool)
    (seen_caches : option (gset string)) : M state (unit * gset string) :=
  match fuel with
  | 0 => out_of_fuel
  | S fuel' =>
      w ← get_obj self;
      if already_seen (name w) seen_caches
      then ret (tt, default ∅ seen_caches)
      else
        seen ← _add_seen_cache self seen_caches;
        r ← invalidate_and_rebuild_body fuel' self;
        seen ← (if apply_to_dependents
                then for_dependent_caches
                       (λ o s, r ← invalidate_and_rebuild fuel' o apply_to_dependents (Some s);
                               ret r.2)
                       (manager w) (dependents w) seen
                else ret seen);
        ret (r, seen)
  end.

(** Lines 200-204: the node-local part of [load_or_build]; the result is the
    pair [(loaded, self.contents)]. *)
Definition load_or_build_body (fuel : nat) (self : nat) : M state (option (bool * value)) :=
  r ← load fuel self false None;
  let loaded := negb (is_None r.1) in
  (if loaded then ret VNone else _build fuel self);;
  w' ← get_obj self;
  ret (Some (loaded, contents w')).

(** The result is [None] when the guard returns. *)
Fixpoint load_or_build (fuel : nat) (self : nat) (apply_to_dependents : bool)
    (seen_caches : option (gset string))
  : M state (option (bool * value) * gset string) :=
  match fuel with
  | 0 => out_of_fuel
  | S fuel' =>
      w ← get_obj self;
      if already_seen (name w) seen_caches
      then ret (None, default ∅ seen_caches)
      else
        seen ← _add_seen_cache self seen_caches;
        seen ← (if apply_to_dependents
                then for_dependent_caches
                       (λ o s, r ← load_or_build fuel' o apply_to_dependents (Some s);
                               ret r.2)
                       (manager w) (dependents w) seen
                else ret seen);
        r ← load_or_build_body fuel' self;
        ret (r, seen)
  end.

(** ** The cascade of the specification

    The algorithm of section 4.3 of the spec as one higher-order method:
    guard, add the own name, visit the dependents, perform the node-local
    action [body].  [ord] tells on which side of the node-local action the
    dependents are visited; the spec's shape is [DependentsFirst]. *)
Inductive order := DependentsFirst | SelfFirst.

Fixpoint cascade {R : Type} (ord : order) (guarded : R) (body : nat → nat → M state R)
    (fuel : nat) (self : nat) (apply_to_dependents : bool)
    (seen_caches : option (gset string)) : M state (R * gset string) :=
  match fuel with
  | 0 => out_of_fuel
  | S fuel' =>
      w ← get_obj self;
      if already_seen (name w) seen_caches
      then ret (guarded, default ∅ seen_caches)
      else
        seen ← _add_seen_cache self seen_caches;
        match ord with
        | DependentsFirst =>
            seen ← (if apply_to_dependents
                    then for_dependent_caches
                           (λ o s, r ← cascade ord guarded body fuel' o
                                         apply_to_dependents (Some s);
                                   ret r.2)
                           (manager w) (dependents w) seen
                    else ret seen);
            r ← body fuel' self;
            ret (r, seen)
        | SelfFirst =>
            r ← body fuel' self;
            seen ← (if apply_to_dependents
                    then for_dependent_caches
                           (λ o s, r ← cascade ord guarded body fuel' o
                                         apply_to_dependents (Some s);
                                   ret r.2)
                           (manager w) (dependents w) seen
                    else ret seen);
            ret (r, seen)
        end
  end.

(** ** Vocabulary of the statements *)

(** The part of the history written between two states. *)
Definition log_since (st st' : state) : list event :=
  drop (length (log st)) (log st').

(** The names carried by the wrapper objects. *)
Definition names (st : state) : gset string := map_img (name <$> heap st).

(** Every registered identity is a live object. *)
Definition registry_ok (st : state) : Prop :=
  ∀ m n o, cache_by_name st m !! n = Some o → is_Some (heap st !! o).

(** What a method leaves alone whatever it does: the names of the objects
    and the registries. *)
Definition same_shape (st st' : state) : Prop :=
  name <$> heap st' = name <$> heap st ∧ cache_by_name st' = cache_by_name st.

Definition same_heap (st st' : state) : Prop := heap st' = heap st.

Definition same_log (st st' : state) : Prop := log st' = log st.

Definition finished {A} (r : outcome A) : Prop :=
  match r with
  | Return _ | Raise _ => True
  | OutOfFuel | Dangling => False
  end.

Definition returned {A} (r : outcome A) : Prop :=
  match r with Return _ => True | _ => False end.

(** [preserves R c]: every run of [c] relates its start to its end by [R]. *)
Definition preserves {A} (R : relation state) (c : M state A) : Prop :=
  ∀ st, R st (c st).2.

(** [acts_on self must allowed c]: what [c] writes to the history are entries
    of the node [self], each at most once and of an action in [allowed]; a
    run that returns has written the actions in [must]. *)
Definition acts_on {A} (self : nat) (must allowed : list action) (c : M state A) : Prop :=
  ∀ st, ∃ l,
    log (c st).2 = log st ++ l ∧ NoDup l ∧
    (∀ e, e ∈ l → name <$> heap st !! self = Some (ev_name e) ∧ ev_action e ∈ allowed) ∧
    (returned (c st).1 → ∀ a, a ∈ must → a ∈ ev_action <$> l).

(** [finishes self c]: on a live [self], [c] returns or raises. *)
Definition finishes {A} (self : nat) (c : M state A) : Prop :=
  ∀ st, is_Some (heap st !! self) → finished (c st).1.

(** What one visit of a cascade does to the history, given the seen-set
    [seen] it starts from; [proj] reads the seen-set off the result. *)
Definition visit_post {A} (proj : A → gset string) (seen : gset string)
    (st : state) (run : outcome A * state) : Prop :=
  ∃ l,
    log run.2 = log st ++ l ∧ NoDup l ∧
    (∀ e, e ∈ l → ev_name e ∉ seen) ∧
    (∀ a, run.1 = Return a → seen ⊆ proj a ∧ ∀ e, e ∈ l → ev_name e ∈ proj a).

(** The history of one cascading call on a node named [n], split into what
    the visits of the dependents wrote and what the node wrote itself. *)
Definition cascade_split {A} (ord : order) (n : string) (seen : gset string)
    (must allowed : list action) (st : state)
    (run : outcome (A * gset string) * state) : Prop :=
  ∃ l_deps l_self,
    log run.2 = log st ++ match ord with
                          | DependentsFirst => l_deps ++ l_self
                          | SelfFirst => l_self ++ l_deps
                          end ∧
    NoDup l_deps ∧ NoDup l_self ∧
    (∀ e, e ∈ l_deps → ev_name e ∉ {[n]} ∪ seen) ∧
    (∀ e, e ∈ l_self → ev_name e = n ∧ ev_action e ∈ allowed) ∧
    (∀ r, run.1 = Return r →
          {[n]} ∪ seen ⊆ r.2 ∧ (∀ e, e ∈ l_deps → ev_name e ∈ r.2) ∧
          ∀ a, a ∈ must → a ∈ ev_action <$> l_self).

(** A cascading method ends on every live object of a well-formed state,
    given a budget above the number of objects, and writes no entry of the
    history twice. *)
Definition ends_visiting_once {R : Type}
    (op : nat → nat → bool → option (gset string) → M state (R * gset string)) : Prop :=
  ∀ (st : state) (self : nat) (apply_to_dependents : bool)
    (seen_caches : option (gset string)) (extra : nat),
    let run := op (size (heap st) + 2 + extra) self apply_to_dependents seen_caches st in
    NoDup (log_since st run.2) ∧
    (registry_ok st → is_Some (heap st !! self) → finished run.1).






(** A method that writes to the wrapper [self] and nowhere else: the other
    objects, the attributes of [self] other than its contents, the world,
    the history and the registries stay as they are. *)
Definition only_contents_of (self : nat) (st st' : state) : Prop :=
  (∀ o, o ≠ self → heap st' !! o = heap st !! o) ∧
  with_contents VNone <$> heap st' !! self = with_contents VNone <$> heap st !! self ∧
  world st' = world st ∧ log st' = log st ∧ cache_by_name st' = cache_by_name st.

(** The node-local part of [load] seen from outside: the outcome, the
    contents the wrapper ends with and the world the callbacks leave, as a
    function of the wrapper and the world.  [load_body_run] shows that
    [load_body] does just this. *)
Definition post_process_effect (w : CacheWrap) (c : value) (wd : W)
  : outcome value * value * W :=
  match post_processor w with
  | None => (Return c, c, wd)
  | Some pp =>
      match pp c wd with
      | (inl e, wd') => (Raise e, c, wd')
      | (inr _, wd') => (Return c, c, wd')
      end
  end.

Definition load_effect (w : CacheWrap) (wd : W) : outcome value * value * W :=
  match loader w with
  | None => (Return VNone, VNone, wd)
  | Some ld =>
      match ld (name w) wd with
      | (inl e, wd1) => (Raise e, VNone, wd1)
      | (inr c, wd1) =>
          if is_None c then (Return VNone, VNone, wd1)
          else match validator w with
               | None => post_process_effect w c wd1
               | Some vd =>
                   match vd c wd1 with
                   | (inl e, wd2) => (Raise e, c, wd2)
                   | (inr ok, wd2) =>
                       if truthy ok then post_process_effect w c wd2
                       else (Return VNone, VNone, wd2)
                   end
               end
      end
  end.

(** The state a node-local action on [self] leaves: one entry more in the
    history, the world [wd], the contents [c]. *)
Definition acted (a : action) (self : nat) (w : CacheWrap) (c : value) (wd : W)
    (st : state) : state :=
  {| heap := <[self := with_contents c w]> (heap st);
     cache_by_name := cache_by_name st;
     world := wd;
     log := log st ++ [Ev a (name w)] |}.

(** Nothing but contents differs between two states: the same objects with
    the same names, dependents, managers and callbacks, and the same
    registries. *)
Definition same_but_contents (st st' : state) : Prop :=
  (∀ o, with_contents VNone <$> heap st' !! o = with_contents VNone <$> heap st !! o) ∧
  cache_by_name st' = cache_by_name st.

(** No object other than [self] differs. *)
Definition others_same (self : nat) (st st' : state) : Prop :=
  ∀ o, o ≠ self → heap st' !! o = heap st !! o.

(** A statement about each of the six cascading operations. *)
Definition every_operation
    (P : ∀ R : Type,
           (nat → nat → bool → option (gset string) → M state (R * gset string)) → Prop)
  : Prop :=
  P _ load ∧ P _ save ∧ P _ invalidate ∧ P _ delete_saved_content ∧
  P _ invalidate_and_rebuild ∧ P _ load_or_build.

(** [writes self acts c]: a run of [c] that returns has added to the history
    the actions [acts] of the node [self], in this order, and nothing else. *)
Definition writes {A} (self : nat) (acts : list action) (c : M state A) : Prop :=
  ∀ st w a st',
    heap st !! self = Some w → c st = (Return a, st') →
    log st' = log st ++ ((λ x, Ev x (name w)) <$> acts).

(** The entries of the node named [n]. *)
Definition own_entries (n : string) (l : list event) : list event :=
  filter (λ e, ev_name e = n) l.

(** A run that returns has written the actions [must] for every name it
    added to the seen-set. *)
Definition visit_complete {A} (proj : A → gset string) (must : list action)
    (seen : gset string) (st : state) (run : outcome A * state) : Prop :=
  ∀ a, run.1 = Return a →
       ∀ n, n ∈ proj a → n ∉ seen →
            ∀ x, x ∈ must → Ev x n ∈ log_since st run.2.

(** A cascading call of [op] that returns has performed the action [a] on
    the wrapper it was called on, and on every dependent that is registered
    under its own name and was not seen before. *)
Definition reaches_dependents {R : Type} (a : action)
    (op : nat → nat → bool → option (gset string) → M state (R * gset string)) : Prop :=
  ∀ (fuel self : nat) (seen_caches : option (gset string)) (st : state) (w : CacheWrap)
    (r : R) (s' : gset string) (st' : state),
    heap st !! self = Some w →
    already_seen (name w) seen_caches = false →
    op (S fuel) self true seen_caches st = (Return (r, s'), st') →
    Ev a (name w) ∈ log_since st st' ∧
    ∀ d o w', d ∈ dependents w →
              cache_by_name st (manager w) !! d = Some o →
              heap st !! o = Some w' → name w' = d →
              d ∈ default ∅ seen_caches ∨ Ev a d ∈ log_since st st'.

(** With every dependent seen already, unregistered, or the wrapper itself,
    cascading makes no difference. *)
Definition skips_dependents {R : Type}
    (op : nat → nat → bool → option (gset string) → M state (R * gset string)) : Prop :=
  ∀ (fuel self : nat) (seen_caches : option (gset string)) (st : state) (w : CacheWrap),
    heap st !! self = Some w →
    already_seen (name w) seen_caches = false →
    (∀ d, d ∈ dependents w →
          d = name w ∨ d ∈ default ∅ seen_caches ∨
          cache_by_name st (manager w) !! d = None) →
    op (S fuel) self true seen_caches st = op (S fuel) self false seen_caches st.

(** ** Construction and finalisation

    Modelled from the spec: the manager's methods live in the module
    [cacher], which is not part of the sources.  [get_cache_manager] yields
    the process-wide manager, [cache_registered] is the spec's "is a cache
    registered under this name" and [register_cache] its "register this
    instance under this name". *)

Definition set_cache_by_name (r : nat → gmap string nat) (st : state) : state :=
  {| heap := heap st; cache_by_name := r; world := world st; log := log st |}.

Definition default_manager : nat := 0.

Definition get_cache_manager : M state nat := ret default_manager.

Definition cache_registered (mgr : nat) (n : string) : M state bool :=
  λ st, (Return (bool_decide (is_Some (cache_by_name st mgr !! n))), st).

Definition register_cache (mgr : nat) (n : string) (o : nat) : M state unit :=
  λ st, (Return tt,
         set_cache_by_name
           (λ m, if decide (m = mgr) then <[n := o]> (cache_by_name st m)
                 else cache_by_name st m) st).

(** [n in self.manager.cache_by_name] *)
Definition in_cache_by_name (mgr : nat) (n : string) : M state bool :=
  λ st, (Return (bool_decide (is_Some (cache_by_name st mgr !! n))), st).

(** [del self.manager.cache_by_name[n]], for a key that is present *)
Definition del_cache_by_name (mgr : nat) (n : string) : M state unit :=
  λ st, (Return tt,
         set_cache_by_name
           (λ m, if decide (m = mgr) then delete n (cache_by_name st m)
                 else cache_by_name st m) st).

(** The keyword arguments of a constructor that name callbacks.  A key that
    is not given is [None]; a key given with the value [None] is
    [Some None].  [__init__] reads no other key. *)
Record kwargs := {
  kw_loader : option (option (string → effect));
  kw_saver : option (option (string → value → effect));
  kw_builder : option (option (string → effect));
  kw_deleter : option (option (string → effect));
  kw_pre_processor : option (option (value → effect));
  kw_post_processor : option (option (value → effect));
  kw_validator : option (option (value → effect))
}.

(** [kwargs.get(name)] *)
Definition kwargs_get {A} (k : option (option A)) : option A :=
  match k with
  | Some v => v
  | None => None
  end.

(** The attribute assignments of lines 15-24 on the new object [self]. *)
Definition set_attributes (self : nat) (w : CacheWrap) : M state unit :=
  λ st, (Return tt, set_heap (<[self := w]> (heap st)) st).

(** The attributes lines 15-24 give to an object of class [c]. *)
Definition new_wrapper (c : wrapper_class) (cache_name : string) (contents : value)
    (ds : list string) (mgr : nat) (kw : kwargs) : CacheWrap :=
  {| cls := c; name := cache_name; contents := contents; dependents := ds;
     manager := mgr;
     loader := kwargs_get (kw_loader kw); saver := kwargs_get (kw_saver kw);
     builder := kwargs_get (kw_builder kw); deleter := kwargs_get (kw_deleter kw);
     pre_processor := kwargs_get (kw_pre_processor kw);
     post_processor := kwargs_get (kw_post_processor kw);
     validator := kwargs_get (kw_validator kw) |}.

(** [CacheWrap.__init__] on the new object [self] of class [c]; an empty
    list of dependents stands for [None] as well. *)
Definition __init__ (fuel : nat) (c : wrapper_class) (self : nat) (cache_name : string)
    (contents : value) (dependents : list dependent) (cache_manager : option nat)
    (kw : kwargs) : M state unit :=
  mgr ← match cache_manager with
        | Some m => ret m
        | None => get_cache_manager
        end;
  ds ← init_dependents dependents;
  set_attributes self (new_wrapper c cache_name contents ds mgr kw);;
  registered ← cache_registered mgr cache_name;
  (if registered : bool then ret tt else register_cache mgr cache_name self);;
  if is_None contents
  then load_or_build fuel self true None;; ret tt
  else ret tt.

(** [dict([('loader', dict_loader)] + kwargs.items())]: a loader given by
    the caller, be it [None], replaces the default. *)
Definition with_default_loader (kw : kwargs) : kwargs :=
  {| kw_loader := match kw_loader kw with
                  | Some l => Some l
                  | None => Some (Some (λ _ wd, (inr dict_loader, wd)))
                  end;
     kw_saver := kw_saver kw; kw_builder := kw_builder kw; kw_deleter := kw_deleter kw;
     kw_pre_processor := kw_pre_processor kw; kw_post_processor := kw_post_processor kw;
     kw_validator := kw_validator kw |}.

(** [NonPersistentCache.__init__]; [contents], [dependents] and
    [cache_manager] reach [CacheWrap.__init__] as keywords. *)
Definition NonPersistentCache__init__ (fuel : nat) (self : nat) (cache_name : string)
    (contents : value) (dependents : list dependent) (cache_manager : option nat)
    (kw : kwargs) : M state unit :=
  __init__ fuel NonPersistentCacheC self cache_name contents dependents cache_manager
    (with_default_loader kw).

(** [__del__]: an exception of [save] ends the finaliser before the name is
    removed. *)
Definition __del__ (fuel : nat) (self : nat) : M state unit :=
  save fuel self false None;;
  w ← get_obj self;
  registered ← in_cache_by_name (manager w) (name w);
  if registered : bool then del_cache_by_name (manager w) (name w) else ret tt.

Definition __enter__ (self : nat) : M state nat := ret self.

(** [__exit__]: the result is [None], so an exception of the block is
    raised again. *)
Definition __exit__ (fuel : nat) (self : nat) : M state unit :=
  save fuel self false None;; ret tt.

(** The name a dependent stands for. *)
Definition dependent_name (st : state) (d : dependent) : option string :=
  match d with
  | DepName s => Some s
  | DepWrapper o => name <$> heap st !! o
  end.


End CacheWrap.

(** ** Concrete systems

    The external world is a persistent store: what is saved under each
    name. *)
Module Examples.

Abbreviation store := (gmap string value).

Definition pickle_loader (n : string) : effect (W := store) :=
  λ wd, (inr (default VNone (wd !! n)), wd).
Definition pickle_saver (n : string) (c : value) : effect (W := store) :=
  λ wd, (inr VNone, <[n := c]> wd).
Definition pickle_deleter (n : string) : effect (W := store) :=
  λ wd, (inr VNone, delete n wd).

(** A wrapper without callbacks. *)
Definition plain (n : string) (c : value) (ds : list string) : CacheWrap (W := store) :=
  {| cls := CacheWrapC; name := n; contents := c; dependents := ds; manager := 0;
     loader := None; saver := None; builder := None; deleter := None;
     pre_processor := None; post_processor := None; validator := None |}.

(** A wrapper whose loader, saver and deleter work on the store. *)
Definition persistent (n : string) (c : value) (ds : list string) : CacheWrap (W := store) :=
  {| cls := PersistentCacheC; name := n; contents := c; dependents := ds; manager := 0;
     loader := Some pickle_loader; saver := Some pickle_saver; builder := None;
     deleter := Some pickle_deleter;
     pre_processor := None; post_processor := None; validator := None |}.

Definition kv (k v : string) : value := VDict {[ k := v ]}.

(** One manager, the objects registered under their names in heap order. *)
Definition system (ws : list (CacheWrap (W := store))) (wd : store) : state :=
  {| heap := list_to_map (zip (seq 0 (length ws)) ws);
     cache_by_name := λ m,
       if bool_decide (m = 0)
       then list_to_map (zip (name <$> ws) (seq 0 (length ws)))
       else ∅;
     world := wd;
     log := [] |}.

(** A and B depend on each other. *)
Definition cycle : state :=
  system [plain "A" VNone ["B"]; plain "B" VNone ["A"]] ∅.

(** A depends on B and C, which both depend on D. *)
Definition diamond : state :=
  system [persistent "A" VNone ["B"; "C"]; persistent "B" VNone ["D"];
          persistent "C" VNone ["D"]; persistent "D" VNone []]
         {[ "D" := kv "k" "v" ]}.

(** A depends on B. *)
Definition chain : state :=
  system [plain "A" VNone ["B"]; plain "B" VNone []] ∅.

(** A lone wrapper whose builder returns [None]. *)
Definition none_builder (n : string) : effect (W := store) := λ wd, (inr VNone, wd).


(** A lone wrapper whose loader finds [{k: v}] and whose post-processor
    returns a new mapping [{k: V2}]; the post-processor leaves a copy of its
    argument in the store. *)
Definition upper_post (c : value) : effect (W := store) :=
  λ wd, (inr (kv "k" "V2"), <["post_processor saw" := c]> wd).

Definition post_processed : state :=
  system [{| cls := CacheWrapC; name := "A"; contents := VNone; dependents := [];
             manager := 0;
             loader := Some pickle_loader; saver := None; builder := None; deleter := None;
             pre_processor := None; post_processor := Some upper_post;
             validator := None |}]
         {[ "A" := kv "k" "v" ]}.

(** A lone persistent wrapper holding [{k: v}]. *)
Definition saved : state := system [persistent "A" (kv "k" "v") []] ∅.

(** A lone wrapper named users that holds an empty mapping. *)
Definition users : state := system [plain "users" (VDict ∅) []] ∅.

(** The attribute lookup of the contents: every value has
    [__getattribute__] and none has [__getattr__]; the only attribute of
    the model is [keys]. *)
Definition builtin_getter (c : value) (getter : string) : option (string → option unit) :=
  if bool_decide (getter = "__getattribute__")
  then Some (λ attr, if bool_decide (attr = "keys") then Some tt else None)
  else None.

(** A lone wrapper whose loader raises. *)
Definition failing_loader (n : string) : effect (W := store) :=
  λ wd, (inl (CallbackFailure "loader"), wd).

Definition unloadable : state :=
  system [{| cls := CacheWrapC; name := "A"; contents := kv "k" "v"; dependents := [];
             manager := 0;
             loader := Some failing_loader; saver := None; builder := None; deleter := None;
             pre_processor := None; post_processor := None; validator := None |}] ∅.

(** A lone persistent wrapper without contents; the store holds [{k: v}]
    under its name. *)
Definition stored : state := system [persistent "A" VNone []] {[ "A" := kv "k" "v" ]}.

(** A lone wrapper whose loader finds [{k: v}] and whose validator is [vd]. *)
Definition validated (vd : value → effect (W := store)) : state :=
  system [{| cls := CacheWrapC; name := "A"; contents := VNone; dependents := [];
             manager := 0;
             loader := Some pickle_loader; saver := None; builder := None; deleter := None;
             pre_processor := None; post_processor := None;
             validator := Some vd |}]
         {[ "A" := kv "k" "v" ]}.

Definition rejecting (c : value) : effect (W := store) := λ wd, (inr (VBool false), wd).

Definition failing_validator (c : value) : effect (W := store) :=
  λ wd, (inl (CallbackFailure "validator"), wd).

(** A wrapper whose only dependent is not registered. *)
Definition orphan : state := system [plain "A" VNone ["Z"]] ∅.

(** Keyword arguments: none, and a builder alone. *)
Definition no_callbacks : kwargs (W := store) :=
  {| kw_loader := None; kw_saver := None; kw_builder := None; kw_deleter := None;
     kw_pre_processor := None; kw_post_processor := None; kw_validator := None |}.

Definition builder_only : kwargs (W := store) :=
  {| kw_loader := None; kw_saver := None; kw_builder := Some (Some none_builder);
     kw_deleter := None;
     kw_pre_processor := None; kw_post_processor := None; kw_validator := None |}.


(** A lone wrapper whose builder returns [{k: v}], with the post-processor
    [upper_post] and the saver of the store. *)
Definition kv_builder (n : string) : effect (W := store) := λ wd, (inr (kv "k" "v"), wd).

Definition buildable : state :=
  system [{| cls := CacheWrapC; name := "A"; contents := VNone; dependents := [];
             manager := 0;
             loader := None; saver := Some pickle_saver; builder := Some kv_builder;
             deleter := None;
             pre_processor := None; post_processor := Some upper_post;
             validator := None |}] ∅.

(** A lone wrapper whose loader finds [{k: v}], whose validator accepts it
    and whose post-processor raises. *)
Definition accepting (c : value) : effect (W := store) := λ wd, (inr (VBool true), wd).

Definition failing_post (c : value) : effect (W := store) :=
  λ wd, (inl (CallbackFailure "post_processor"), wd).

Definition post_fails : state :=
  system [{| cls := CacheWrapC; name := "A"; contents := VNone; dependents := [];
             manager := 0;
             loader := Some pickle_loader; saver := None; builder := None; deleter := None;
             pre_processor := None; post_processor := Some failing_post;
             validator := Some accepting |}]
         {[ "A" := kv "k" "v" ]}.


End Examples.

(** * Properties *)

Section Correctness.

Context {W : Type}.

Local Abbreviation state := (@state W).
Local Abbreviation CacheWrap := (@CacheWrap W).
Local Abbreviation preserves := (preserves (W := W)).
Local Abbreviation acts_on := (acts_on (W := W)).
Local Abbreviation finishes := (finishes (W := W)).
Local Abbreviation visit_post := (visit_post (W := W)).
Local Abbreviation cascade_split := (cascade_split (W := W)).
Local Abbreviation writes := (writes (W := W)).

Implicit Types (st : state) (w : CacheWrap) (self o mgr : nat).
Implicit Types (seen : gset string) (seen_caches : option (gset string)).
Implicit Types (n : string) (l : list event).

(** ** The relations on states *)

#[local] Instance same_shape_preorder : PreOrder (same_shape (W := W)).
Proof.
  split.
  - by intros st.
  - intros st1 st2 st3 [H1 H2] [H3 H4]. split; congruence.
Qed.

#[local] Instance same_heap_preorder : PreOrder (same_heap (W := W)).
Proof.
  split.
  - by intros st.
  - intros st1 st2 st3 H1 H2. unfold same_heap in *. congruence.
Qed.

#[local] Instance same_log_preorder : PreOrder (same_log (W := W)).
Proof.
  split.
  - by intros st.
  - intros st1 st2 st3 H1 H2. unfold same_log in *. congruence.
Qed.

Lemma same_shape_name st st' o :
  same_shape st st' → name <$> heap st' !! o = name <$> heap st !! o.
Proof. intros [H _]. by rewrite <- !lookup_fmap, H. Qed.

Lemma same_shape_live st st' o :
  same_shape st st' → is_Some (heap st !! o) → is_Some (heap st' !! o).
Proof.
  intros H%(same_shape_name _ _ o) [w Hw]. rewrite Hw in H.
  destruct (heap st' !! o); [eauto | discriminate].
Qed.

Lemma same_shape_names st st' : same_shape st st' → names st' = names st.
Proof. intros [H _]. unfold names. by rewrite H. Qed.

Lemma same_shape_registry_ok st st' :
  same_shape st st' → registry_ok st → registry_ok st'.
Proof.
  intros Hs Hr m n o Ho. destruct Hs as [Hn Hc] eqn:E. rewrite Hc in Ho.
  eapply same_shape_live; [done | eauto].
Qed.

Lemma same_shape_set_contents st o w c :
  heap st !! o = Some w →
  same_shape st (set_heap (<[o := with_contents c w]> (heap st)) st).
Proof.
  intros Hw. split; [|done]. simpl. rewrite fmap_insert.
  apply insert_id. by rewrite lookup_fmap, Hw.
Qed.

(** ** [preserves]: the rules *)

Section Preserves.

Context (R : relation state) `{!PreOrder R}.

Lemma preserves_ret {A} (a : A) : preserves R (ret a).
Proof. intros st. reflexivity. Qed.

Lemma preserves_raise {A} e : preserves R (raise (A := A) e).
Proof. intros st. reflexivity. Qed.

Lemma preserves_out_of_fuel {A} : preserves R (out_of_fuel (A := A)).
Proof. intros st. reflexivity. Qed.

Lemma preserves_bind {A B} (c : M state A) (k : A → M state B) :
  preserves R c → (∀ a, preserves R (k a)) → preserves R (c ≫= k).
Proof.
  intros Hc Hk st. specialize (Hc st).
  unfold mbind, M_bind, bind. destruct (c st) as [[a|e| |] st1]; simpl in *; try done.
  etrans; [exact Hc | apply Hk].
Qed.

Lemma preserves_get_obj self : preserves R (get_obj self).
Proof. intros st. unfold get_obj. destruct (heap st !! self); reflexivity. Qed.

Lemma preserves_retrieve_cache mgr n : preserves R (retrieve_cache mgr n).
Proof. intros st. reflexivity. Qed.

Lemma preserves_add_seen self seen_caches : preserves R (_add_seen_cache self seen_caches).
Proof.
  apply preserves_bind; [apply preserves_get_obj | intros; apply preserves_ret].
Qed.

End Preserves.

Lemma preserves_shape_set_contents o c : preserves same_shape (set_contents o c).
Proof.
  intros st. unfold set_contents. destruct (heap st !! o) as [w|] eqn:Hw; simpl.
  - by apply same_shape_set_contents.
  - reflexivity.
Qed.

Lemma preserves_shape_call f : preserves same_shape (call f).
Proof. intros st. unfold call. by destruct (f (world st)) as [[e|v] wd]. Qed.

Lemma preserves_heap_call f : preserves same_heap (call f).
Proof. intros st. unfold call. by destruct (f (world st)) as [[e|v] wd]. Qed.

Lemma preserves_shape_emit ev : preserves same_shape (emit ev).
Proof. by intros st. Qed.

Lemma preserves_heap_emit ev : preserves same_heap (emit ev).
Proof. by intros st. Qed.

Lemma preserves_log_set_contents o c : preserves same_log (set_contents o c).
Proof. intros st. unfold set_contents. by destruct (heap st !! o). Qed.

Lemma preserves_log_call f : preserves same_log (call f).
Proof. intros st. unfold call. by destruct (f (world st)) as [[e|v] wd]. Qed.

Create HintDb preserves.

#[local] Hint Resolve preserves_ret preserves_raise preserves_out_of_fuel
  preserves_get_obj preserves_retrieve_cache preserves_add_seen
  preserves_shape_set_contents preserves_shape_call preserves_heap_call
  preserves_shape_emit preserves_heap_emit
  preserves_log_set_contents preserves_log_call : preserves.

(** Walks through a method body: binds are split, case distinctions are
    followed, the leaves are closed from the hint database. *)
Ltac preserves_walk :=
  repeat first
    [ progress (auto with preserves typeclass_instances)
    | apply preserves_bind; [try apply _ | | intros ?]
    | match goal with
      | |- preserves _ (match ?x with _ => _ end) => destruct x
      end ].

Lemma preserves_pre_process R `{!PreOrder R} self c :
  (∀ f, preserves R (call f)) → preserves R (_pre_process self c).
Proof. intros Hcall. unfold _pre_process. preserves_walk. Qed.

Lemma preserves_post_process R `{!PreOrder R} self c :
  (∀ f, preserves R (call f)) → preserves R (_post_process self c).
Proof. intros Hcall. unfold _post_process. preserves_walk. Qed.

Lemma preserves_shape_load_body self : preserves same_shape (load_body self).
Proof.
  unfold load_body.
  pose proof (preserves_post_process same_shape self) as Hpost.
  preserves_walk.
Qed.

Lemma preserves_save_body R `{!PreOrder R} self :
  (∀ f, preserves R (call f)) → (∀ ev, preserves R (emit ev)) →
  preserves R (save_body self).
Proof.
  intros Hcall Hemit. unfold save_body.
  pose proof (preserves_pre_process R self) as Hpre.
  preserves_walk.
Qed.

Lemma preserves_delete_body R `{!PreOrder R} self :
  (∀ f, preserves R (call f)) → (∀ ev, preserves R (emit ev)) →
  preserves R (delete_body self).
Proof. intros Hcall Hemit. unfold delete_body. preserves_walk. Qed.

Lemma preserves_for_dependent_caches R `{!PreOrder R} visit mgr ds seen :
  (∀ o s, preserves R (visit o s)) →
  preserves R (for_dependent_caches visit mgr ds seen).
Proof.
  intros Hv. revert seen. induction ds as [|d ds IH]; intros seen; simpl; preserves_walk.
Qed.

Lemma preserves_cascade R `{!PreOrder R} {A} ord (g : A) body fuel self apply seen_caches :
  (∀ f o, preserves R (body f o)) →
  preserves R (cascade ord g body fuel self apply seen_caches).
Proof.
  intros Hb. revert self seen_caches.
  induction fuel as [|fuel IH]; intros self seen_caches; simpl; preserves_walk;
    apply preserves_for_dependent_caches; try apply _; intros; preserves_walk.
Qed.

(** ** The methods are cascades *)

Lemma load_cascade fuel :
  load (W := W) fuel = cascade DependentsFirst VNone (λ _, load_body) fuel.
Proof. induction fuel as [|fuel IH]; [done|]. simpl. by rewrite IH. Qed.

Lemma save_cascade fuel :
  save (W := W) fuel = cascade DependentsFirst VNone (λ _, save_body) fuel.
Proof. induction fuel as [|fuel IH]; [done|]. simpl. by rewrite IH. Qed.

Lemma invalidate_cascade fuel :
  invalidate (W := W) fuel = cascade DependentsFirst VNone (λ _, load_body) fuel.
Proof. unfold invalidate. rewrite <- load_cascade. done. Qed.

Lemma delete_saved_content_cascade fuel :
  delete_saved_content (W := W) fuel = cascade DependentsFirst tt (λ _, delete_body) fuel.
Proof. induction fuel as [|fuel IH]; [done|]. simpl. by rewrite IH. Qed.

Lemma load_or_build_cascade fuel :
  load_or_build (W := W) fuel = cascade DependentsFirst None load_or_build_body fuel.
Proof. induction fuel as [|fuel IH]; [done|]. simpl. by rewrite IH. Qed.

Lemma invalidate_and_rebuild_cascade fuel :
  invalidate_and_rebuild (W := W) fuel = cascade SelfFirst tt invalidate_and_rebuild_body fuel.
Proof. induction fuel as [|fuel IH]; [done|]. simpl. by rewrite IH. Qed.

(** ** [acts_on]: the rules *)

Lemma acts_on_quiet {A} self (c : M state A) :
  preserves same_log c → acts_on self [] [] c.
Proof.
  intros Hc st. exists []. rewrite app_nil_r.
  split; [apply Hc|]. split; [constructor|].
  split; [by intros ev ?%elem_of_nil | by intros _ a ?%elem_of_nil].
Qed.

Lemma acts_on_out_of_fuel {A} self must allowed :
  acts_on self must allowed (out_of_fuel (A := A)).
Proof.
  intros st. exists []. simpl. rewrite app_nil_r.
  split; [done|]. split; [constructor|].
  split; [by intros ev ?%elem_of_nil | done].
Qed.

Lemma acts_on_weaken {A} self must allowed must' allowed' (c : M state A) :
  acts_on self must allowed c →
  must' ⊆ must → allowed ⊆ allowed' →
  acts_on self must' allowed' c.
Proof.
  intros Hc Hm Ha st. destruct (Hc st) as (l & Hl & Hnd & Hev & Hmust).
  exists l. split; [done|]. split; [done|]. split.
  - intros ev Hin. destruct (Hev ev Hin). split; [done|]. by apply Ha.
  - intros Hr a Hin. apply Hmust; [done|]. by apply Hm.
Qed.

Lemma acts_on_bind {A B} self m1 m2 a1 a2 (c : M state A) (k : A → M state B) :
  preserves same_shape c →
  acts_on self m1 a1 c →
  (∀ x, acts_on self m2 a2 (k x)) →
  (∀ a, a ∈ a1 → a ∉ a2) →
  acts_on self (m1 ++ m2) (a1 ++ a2) (c ≫= k).
Proof.
  intros Hs Hc Hk Hdisj st. specialize (Hs st).
  destruct (Hc st) as (l1 & Hl1 & Hnd1 & Hev1 & Hm1).
  unfold mbind, M_bind, bind. destruct (c st) as [[x|e| |] st1]; simpl in *.
  - destruct (Hk x st1) as (l2 & Hl2 & Hnd2 & Hev2 & Hm2).
    exists (l1 ++ l2). split; [by rewrite Hl2, Hl1, app_assoc|].
    split; [|split].
    + apply NoDup_app. split; [done|]. split; [|done].
      intros ev Hin1 Hin2. apply (Hdisj (ev_action ev)); [by apply Hev1 | by apply Hev2].
    + intros ev [Hin|Hin]%elem_of_app.
      * destruct (Hev1 ev Hin). split; [done|]. apply elem_of_app. by left.
      * destruct (Hev2 ev Hin) as [Hn Ha]. rewrite (same_shape_name _ _ _ Hs) in Hn.
        split; [done|]. apply elem_of_app. by right.
    + intros Hr a [Hin|Hin]%elem_of_app; rewrite fmap_app; apply elem_of_app.
      * left. by apply Hm1.
      * right. by apply Hm2.
  - exists l1. split; [done|]. split; [done|]. split; [|done].
    intros ev Hin. destruct (Hev1 ev Hin). split; [done|]. apply elem_of_app. by left.
  - exists l1. split; [done|]. split; [done|]. split; [|done].
    intros ev Hin. destruct (Hev1 ev Hin). split; [done|]. apply elem_of_app. by left.
  - exists l1. split; [done|]. split; [done|]. split; [|done].
    intros ev Hin. destruct (Hev1 ev Hin). split; [done|]. apply elem_of_app. by left.
Qed.

(** A body opens by reading [self] and recording its action. *)
Lemma acts_on_announce {A} self a must allowed (k : CacheWrap → M state A) :
  (∀ w, acts_on self must allowed (k w)) →
  a ∉ allowed →
  acts_on self (a :: must) (a :: allowed)
    (w ← get_obj self; emit (Ev a (name w));; k w).
Proof.
  intros Hk Ha st. unfold mbind, M_bind, bind, get_obj, emit.
  destruct (heap st !! self) as [w|] eqn:Hw; simpl.
  - destruct (Hk w (add_log (Ev a (name w)) st)) as (l & Hl & Hnd & Hev & Hm).
    exists (Ev a (name w) :: l). simpl in *.
    split; [by rewrite Hl, <- app_assoc|]. split; [|split].
    + constructor; [|done]. intros Hin. apply Ha. by apply (Hev _ Hin).
    + intros ev [->|Hin]%elem_of_cons.
      * simpl. split; [done|]. by left.
      * destruct (Hev _ Hin) as [Hn Hal]. rewrite Hw in Hn. split; [done|]. by right.
    + intros Hr a' [->|Hin]%elem_of_cons; simpl; [by left|].
      right. by apply Hm.
  - exists []. rewrite app_nil_r. split; [done|]. split; [constructor|].
    split; [by intros ev ?%elem_of_nil | done].
Qed.

(** Membership, inclusion and disjointness of explicit lists of actions. *)
Ltac actions :=
  repeat intro;
  repeat match goal with
    | H : _ ∈ [] |- _ => apply elem_of_nil in H; destruct H
    | H : _ ∈ _ :: _ |- _ => apply elem_of_cons in H; destruct H as [H|H]; [subst|]
    end;
  try discriminate;
  repeat first [ apply list_elem_of_here | apply list_elem_of_further ].

Lemma acts_on_bind_quiet_l {A B} self must allowed (c : M state A) (k : A → M state B) :
  preserves same_shape c → preserves same_log c →
  (∀ x, acts_on self must allowed (k x)) →
  acts_on self must allowed (c ≫= k).
Proof.
  intros Hs Hq Hk.
  apply (acts_on_bind self [] must [] allowed); [done | by apply acts_on_quiet | done |].
  by intros a ?%elem_of_nil.
Qed.

Lemma acts_on_bind_quiet_r {A B} self must allowed (c : M state A) (k : A → M state B) :
  preserves same_shape c → acts_on self must allowed c →
  (∀ x, preserves same_log (k x)) →
  acts_on self must allowed (c ≫= k).
Proof.
  intros Hs Hc Hk.
  eapply acts_on_weaken.
  - apply (acts_on_bind self must [] allowed []); [done | done | |].
    + intros x. by apply acts_on_quiet.
    + by intros a _ ?%elem_of_nil.
  - by rewrite app_nil_r.
  - by rewrite app_nil_r.
Qed.

#[local] Hint Resolve preserves_pre_process preserves_post_process
  preserves_shape_load_body preserves_save_body preserves_delete_body
  preserves_for_dependent_caches preserves_cascade : preserves.

Lemma acts_on_load_body self : acts_on self [ALoad] [ALoad] (load_body self).
Proof.
  unfold load_body. apply acts_on_announce; [|by intros ?%elem_of_nil].
  intros w. apply acts_on_quiet. preserves_walk.
Qed.

Lemma acts_on_save_body self : acts_on self [ASave] [ASave] (save_body self).
Proof.
  unfold save_body. apply acts_on_announce; [|by intros ?%elem_of_nil].
  intros w. apply acts_on_quiet. preserves_walk.
Qed.

Lemma acts_on_delete_body self : acts_on self [ADelete] [ADelete] (delete_body self).
Proof.
  unfold delete_body. apply acts_on_announce; [|by intros ?%elem_of_nil].
  intros w. apply acts_on_quiet. preserves_walk.
Qed.

(** A call that does not cascade and starts a seen-set of its own is the
    node-local action. *)
Lemma acts_on_cascade_alone {A} ord (g : A) body fuel self must allowed :
  (∀ f, preserves same_shape (body f self)) →
  (∀ f, acts_on self must allowed (body f self)) →
  acts_on self must allowed (cascade ord g body fuel self false None).
Proof.
  intros Hs Hb. destruct fuel as [|fuel]; simpl.
  - apply acts_on_out_of_fuel.
  - apply acts_on_bind_quiet_l; [preserves_walk..|]. intros w.
    apply acts_on_bind_quiet_l; [preserves_walk..|]. intros seen.
    destruct ord.
    + apply acts_on_bind_quiet_l; [preserves_walk..|]. intros seen'.
      apply acts_on_bind_quiet_r; [done.. |]. intros r. preserves_walk.
    + apply acts_on_bind_quiet_r; [done.. |]. intros r. preserves_walk.
Qed.

Lemma preserves_shape_build fuel self : preserves same_shape (_build fuel self).
Proof. unfold _build. rewrite save_cascade. preserves_walk. Qed.

Lemma preserves_shape_load_or_build_body fuel self :
  preserves same_shape (load_or_build_body fuel self).
Proof.
  unfold load_or_build_body. rewrite load_cascade.
  pose proof preserves_shape_build. preserves_walk.
Qed.

Lemma preserves_shape_invalidate_and_rebuild_body fuel self :
  preserves same_shape (invalidate_and_rebuild_body fuel self).
Proof.
  unfold invalidate_and_rebuild_body.
  rewrite invalidate_cascade, delete_saved_content_cascade.
  pose proof preserves_shape_build. preserves_walk.
Qed.

#[local] Hint Resolve preserves_shape_build preserves_shape_load_or_build_body
  preserves_shape_invalidate_and_rebuild_body : preserves.

Lemma acts_on_load_alone fuel self :
  acts_on self [ALoad] [ALoad] (load fuel self false None).
Proof.
  rewrite load_cascade. apply acts_on_cascade_alone; intros; [preserves_walk|].
  apply acts_on_load_body.
Qed.

Lemma acts_on_save_alone fuel self :
  acts_on self [ASave] [ASave] (save fuel self false None).
Proof.
  rewrite save_cascade. apply acts_on_cascade_alone; intros; [preserves_walk|].
  apply acts_on_save_body.
Qed.

Lemma acts_on_delete_alone fuel self :
  acts_on self [ADelete] [ADelete] (delete_saved_content fuel self false None).
Proof.
  rewrite delete_saved_content_cascade.
  apply acts_on_cascade_alone; intros; [preserves_walk|].
  apply acts_on_delete_body.
Qed.

Lemma acts_on_build fuel self :
  acts_on self [ABuild; ASave] [ABuild; ASave] (_build fuel self).
Proof.
  unfold _build. apply acts_on_announce; [|actions].
  intros w.
  apply acts_on_bind_quiet_l; [preserves_walk..|]. intros c.
  apply acts_on_bind_quiet_l; [preserves_walk..|]. intros _.
  apply acts_on_bind_quiet_r.
  - rewrite save_cascade. preserves_walk.
  - apply acts_on_save_alone.
  - intros r. preserves_walk.
Qed.

Lemma acts_on_load_or_build_body fuel self :
  acts_on self [ALoad] [ALoad; ABuild; ASave] (load_or_build_body fuel self).
Proof.
  unfold load_or_build_body.
  apply (acts_on_bind self [ALoad] [] [ALoad] [ABuild; ASave]).
  - rewrite load_cascade. preserves_walk.
  - apply acts_on_load_alone.
  - intros r. cbv zeta. apply acts_on_bind_quiet_r.
    + preserves_walk.
    + destruct (negb (is_None r.1)).
      * eapply acts_on_weaken; [apply acts_on_quiet; preserves_walk | done | actions].
      * eapply acts_on_weaken; [apply acts_on_build | actions | done].
    + intros _. preserves_walk.
  - actions.
Qed.

Lemma acts_on_invalidate_and_rebuild_body fuel self :
  acts_on self [ALoad; ADelete; ABuild; ASave] [ALoad; ADelete; ABuild; ASave]
    (invalidate_and_rebuild_body fuel self).
Proof.
  unfold invalidate_and_rebuild_body.
  apply (acts_on_bind self [ALoad] [ADelete; ABuild; ASave] [ALoad] [ADelete; ABuild; ASave]).
  - rewrite invalidate_cascade. preserves_walk.
  - apply acts_on_load_alone.
  - intros _.
    apply (acts_on_bind self [ADelete] [ABuild; ASave] [ADelete] [ABuild; ASave]).
    + rewrite delete_saved_content_cascade. preserves_walk.
    + apply acts_on_delete_alone.
    + intros _. apply acts_on_bind_quiet_r.
      * preserves_walk.
      * apply acts_on_build.
      * intros _. preserves_walk.
    + actions.
  - actions.
Qed.

(** ** [finishes]: the rules *)

Lemma finishes_ret {A} self (a : A) : finishes self (ret a).
Proof. by intros st _. Qed.

Lemma finishes_raise {A} self e : finishes self (raise (A := A) e).
Proof. by intros st _. Qed.

Lemma finishes_get_obj self : finishes self (get_obj self).
Proof. intros st [w Hw]. unfold get_obj. by rewrite Hw. Qed.

Lemma finishes_set_contents self c : finishes self (set_contents self c).
Proof. intros st [w Hw]. unfold set_contents. by rewrite Hw. Qed.

Lemma finishes_call self f : finishes self (call f).
Proof. intros st _. unfold call. by destruct (f (world st)) as [[e|v] wd]. Qed.

Lemma finishes_emit self ev : finishes self (emit ev).
Proof. by intros st _. Qed.

Lemma finishes_retrieve_cache self mgr n : finishes self (retrieve_cache mgr n).
Proof. by intros st _. Qed.

Lemma finishes_bind {A B} self (c : M state A) (k : A → M state B) :
  preserves same_shape c → finishes self c → (∀ x, finishes self (k x)) →
  finishes self (c ≫= k).
Proof.
  intros Hs Hc Hk st Hlive. specialize (Hs st). specialize (Hc st Hlive).
  unfold mbind, M_bind, bind. destruct (c st) as [[x|e| |] st1]; simpl in *; try done.
  apply Hk. by eapply same_shape_live.
Qed.

Create HintDb finishes.

#[local] Hint Resolve finishes_ret finishes_raise finishes_get_obj finishes_set_contents
  finishes_call finishes_emit finishes_retrieve_cache : finishes.

Ltac finishes_walk :=
  repeat first
    [ progress (auto with finishes)
    | apply finishes_bind; [preserves_walk | | intros ?]
    | match goal with
      | |- finishes _ (match ?x with _ => _ end) => destruct x
      end ].

Lemma finishes_add_seen self seen_caches : finishes self (_add_seen_cache self seen_caches).
Proof. unfold _add_seen_cache. finishes_walk. Qed.

Lemma finishes_pre_process self c : finishes self (_pre_process self c).
Proof. unfold _pre_process. finishes_walk. Qed.

Lemma finishes_post_process self c : finishes self (_post_process self c).
Proof. unfold _post_process. finishes_walk. Qed.

#[local] Hint Resolve finishes_add_seen finishes_pre_process finishes_post_process : finishes.

Lemma finishes_load_body self : finishes self (load_body self).
Proof. unfold load_body. finishes_walk. Qed.

Lemma finishes_save_body self : finishes self (save_body self).
Proof. unfold save_body. finishes_walk. Qed.

Lemma finishes_delete_body self : finishes self (delete_body self).
Proof. unfold delete_body. finishes_walk. Qed.

Lemma finishes_cascade_alone {A} ord (g : A) body fuel self :
  (∀ f, preserves same_shape (body f self)) →
  finishes self (body fuel self) →
  finishes self (cascade ord g body (S fuel) self false None).
Proof. intros Hs Hb. simpl. finishes_walk. Qed.

Lemma finishes_load_alone fuel self : finishes self (load (S fuel) self false None).
Proof.
  rewrite load_cascade. apply finishes_cascade_alone; intros; [preserves_walk|].
  apply finishes_load_body.
Qed.

Lemma finishes_save_alone fuel self : finishes self (save (S fuel) self false None).
Proof.
  rewrite save_cascade. apply finishes_cascade_alone; intros; [preserves_walk|].
  apply finishes_save_body.
Qed.

Lemma finishes_delete_alone fuel self :
  finishes self (delete_saved_content (S fuel) self false None).
Proof.
  rewrite delete_saved_content_cascade.
  apply finishes_cascade_alone; intros; [preserves_walk|].
  apply finishes_delete_body.
Qed.

Lemma finishes_build fuel self : finishes self (_build (S fuel) self).
Proof.
  pose proof (finishes_save_alone fuel self) as Hsave.
  unfold _build. rewrite save_cascade in *. finishes_walk.
Qed.

Lemma finishes_load_or_build_body fuel self :
  finishes self (load_or_build_body (S fuel) self).
Proof.
  pose proof (finishes_load_alone fuel self) as Hload.
  pose proof (finishes_build fuel self) as Hbuild.
  unfold load_or_build_body. rewrite load_cascade in *. finishes_walk.
Qed.

Lemma finishes_invalidate_and_rebuild_body fuel self :
  finishes self (invalidate_and_rebuild_body (S fuel) self).
Proof.
  pose proof (finishes_load_alone fuel self) as Hload.
  pose proof (finishes_delete_alone fuel self) as Hdelete.
  pose proof (finishes_build fuel self) as Hbuild.
  unfold invalidate_and_rebuild_body.
  rewrite invalidate_cascade, delete_saved_content_cascade in *.
  finishes_walk.
Qed.

(** ** Running a bind *)

Lemma bind_run {A B} (c : M state A) (k : A → M state B) st :
  (c ≫= k) st =
  match c st with
  | (Return a, st') => k a st'
  | (Raise e, st') => (Raise e, st')
  | (OutOfFuel, st') => (OutOfFuel, st')
  | (Dangling, st') => (Dangling, st')
  end.
Proof. done. Qed.

Lemma bind_get_obj {B} self w (k : CacheWrap → M state B) st :
  heap st !! self = Some w → (get_obj self ≫= k) st = k w st.
Proof. intros Hw. rewrite bind_run. unfold get_obj. by rewrite Hw. Qed.

Lemma bind_add_seen {B} self w seen_caches (k : gset string → M state B) st :
  heap st !! self = Some w →
  (_add_seen_cache self seen_caches ≫= k) st = k ({[name w]} ∪ default ∅ seen_caches) st.
Proof.
  intros Hw. rewrite bind_run. unfold _add_seen_cache.
  by rewrite (bind_get_obj self w).
Qed.

Lemma run_emit {B} ev (k : unit → M state B) st :
  (emit ev ≫= k) st = k tt (add_log ev st).
Proof. done. Qed.

Lemma run_set_contents {B} self w c (k : unit → M state B) st :
  heap st !! self = Some w →
  (set_contents self c ≫= k) st =
  k tt (set_heap (<[self := with_contents c w]> (heap st)) st).
Proof. intros Hw. rewrite bind_run. unfold set_contents. by rewrite Hw. Qed.

Lemma run_call_returns {B} f v wd (k : value → M state B) st :
  f (world st) = (inr v, wd) → (call f ≫= k) st = k v (set_world wd st).
Proof. intros Hf. rewrite bind_run. unfold call. by rewrite Hf. Qed.

Lemma call_run_returns f v wd st :
  f (world st) = (inr v, wd) → call f st = (Return v, set_world wd st).
Proof. intros Hf. unfold call. by rewrite Hf. Qed.

Lemma run_call_raises {B} f e wd (k : value → M state B) st :
  f (world st) = (inl e, wd) → (call f ≫= k) st = (Raise e, set_world wd st).
Proof. intros Hf. rewrite bind_run. unfold call. by rewrite Hf. Qed.

Lemma already_seen_spec n seen_caches :
  already_seen n seen_caches = true ↔ n ∈ default ∅ seen_caches.
Proof.
  destruct seen_caches as [s|]; simpl.
  - rewrite andb_true_iff, negb_true_iff, bool_decide_eq_false, bool_decide_eq_true.
    split; [by intros [_ ?]|]. intros Hin. split; [|done].
    intros ->. by apply not_elem_of_empty in Hin.
  - split; [done|]. by intros ?%not_elem_of_empty.
Qed.

Lemma already_seen_false n seen_caches :
  already_seen n seen_caches = false → n ∉ default ∅ seen_caches.
Proof.
  intros Hf Hin%already_seen_spec. congruence.
Qed.

(** ** The history of a cascade *)

Lemma visit_post_nothing {A} (proj : A → gset string) seen st (r : outcome A) :
  (∀ a, r = Return a → seen ⊆ proj a) →
  visit_post proj seen st (r, st).
Proof.
  intros Hr. exists []. simpl. rewrite app_nil_r.
  split; [done|]. split; [constructor|]. split; [by intros ev ?%elem_of_nil|].
  intros a Ha. split; [by apply Hr | by intros ev ?%elem_of_nil].
Qed.

Lemma visit_post_then {A} (proj : A → gset string) seen seen1 st st1 l1
    (run : outcome A * state) :
  log st1 = log st ++ l1 → NoDup l1 →
  (∀ ev, ev ∈ l1 → ev_name ev ∉ seen) →
  seen ⊆ seen1 → (∀ ev, ev ∈ l1 → ev_name ev ∈ seen1) →
  visit_post proj seen1 st1 run →
  visit_post proj seen st run.
Proof.
  intros Hl1 Hnd1 Hout1 Hsub Hin1 (l2 & Hl2 & Hnd2 & Hout2 & Hret2).
  exists (l1 ++ l2). split; [by rewrite Hl2, Hl1, app_assoc|].
  split; [|split].
  - apply NoDup_app. split; [done|]. split; [|done].
    intros ev H1 H2. apply (Hout2 ev H2). by apply Hin1.
  - intros ev [H|H]%elem_of_app; [by apply Hout1|].
    intros Hin. apply (Hout2 ev H). by apply Hsub.
  - intros a Ha. destruct (Hret2 a Ha) as [Hsub2 Hin2]. split; [by trans seen1|].
    intros ev [H|H]%elem_of_app; [|by apply Hin2].
    apply Hsub2. by apply Hin1.
Qed.

Lemma visit_post_loop visit mgr ds seen st :
  (∀ o s st', visit_post id s st' (visit o s st')) →
  visit_post id seen st (for_dependent_caches visit mgr ds seen st).
Proof.
  intros Hv. revert seen st. induction ds as [|d ds IH]; intros seen st; simpl.
  - by apply visit_post_nothing; intros a [= <-].
  - destruct (bool_decide (d ∈ seen)); [apply IH|].
    rewrite bind_run. simpl. destruct (cache_by_name st mgr !! d) as [o|]; [|apply IH].
    rewrite bind_run. specialize (Hv o seen st).
    destruct (visit o seen st) as [[seen1|e| |] st1] eqn:Hrun; [|done..].
    destruct Hv as (l1 & Hl1 & Hnd1 & Hout1 & Hret1). simpl in *.
    destruct (Hret1 seen1 eq_refl) as [Hsub Hin1].
    eapply visit_post_then; [done..|apply IH].
Qed.

Lemma visit_post_result {A} (c : M state (A * gset string)) seen st :
  visit_post snd seen st (c st) →
  visit_post id seen st ((r ← c; ret r.2) st).
Proof.
  intros (l & Hl & Hnd & Hout & Hret). rewrite bind_run.
  destruct (c st) as [[[a s1]|e| |] st1]; simpl in *;
    exists l; (split; [done|]); (split; [done|]); (split; [done|]); [|done..].
  intros s2 [= <-]. by apply (Hret (a, s1)).
Qed.

Lemma cascade_step {A} ord (g : A) body must allowed fuel self apply seen_caches st w :
  (∀ f o, preserves same_shape (body f o)) →
  (∀ f o, acts_on o must allowed (body f o)) →
  (∀ o s st', visit_post snd s st' (cascade ord g body fuel o apply (Some s) st')) →
  heap st !! self = Some w →
  already_seen (name w) seen_caches = false →
  cascade_split ord (name w) (default ∅ seen_caches) must allowed st
    (cascade ord g body (S fuel) self apply seen_caches st).
Proof.
  intros Hshape Hacts IH Hw Hguard. unfold cascade_split. cbn [cascade].
  rewrite (bind_get_obj self w), Hguard, (bind_add_seen self w) by done.
  set (seen1 := {[name w]} ∪ default ∅ seen_caches).
  destruct ord.
  - set (loop := if apply then _ else _).
    assert (visit_post id seen1 st (loop st)) as (l1 & Hl1 & Hnd1 & Hout1 & Hret1).
    { subst loop. destruct apply.
      - apply visit_post_loop. intros. apply visit_post_result, IH.
      - by apply visit_post_nothing; intros a [= <-]. }
    assert (same_shape st (loop st).2) as Hs1.
    { assert (preserves same_shape loop) as Hp; [|apply Hp].
      subst loop. destruct apply; [|preserves_walk].
      apply preserves_for_dependent_caches; [apply _|]. intros. preserves_walk. }
    rewrite bind_run. destruct (loop st) as [[seen2|e| |] st1]; simpl in *.
    + destruct (Hret1 seen2 eq_refl) as [Hsub Hin1].
      destruct (Hacts fuel self st1) as (l2 & Hl2 & Hnd2 & Hev2 & Hm2).
      assert (∀ ev, ev ∈ l2 → ev_name ev = name w ∧ ev_action ev ∈ allowed) as Hev2'.
      { intros ev Hin. destruct (Hev2 ev Hin) as [Hn Ha]. split; [|done].
        rewrite (same_shape_name _ _ _ Hs1), Hw in Hn. by injection Hn. }
      rewrite bind_run.
      destruct (body fuel self st1) as [[r|e| |] st2]; simpl in *;
        exists l1, l2; rewrite Hl2, Hl1, <- app_assoc;
        (split; [done|]); (split; [done|]); (split; [done|]);
        (split; [done|]); (split; [done|]); [|done..].
      intros r' [= <-]. simpl. split; [done|]. split; [done|]. by apply Hm2.
    + exists l1, []. rewrite app_nil_r.
      split; [done|]. split; [done|]. split; [constructor|]. split; [done|].
      split; [by intros ev ?%elem_of_nil | done].
    + exists l1, []. rewrite app_nil_r.
      split; [done|]. split; [done|]. split; [constructor|]. split; [done|].
      split; [by intros ev ?%elem_of_nil | done].
    + exists l1, []. rewrite app_nil_r.
      split; [done|]. split; [done|]. split; [constructor|]. split; [done|].
      split; [by intros ev ?%elem_of_nil | done].
  - destruct (Hacts fuel self st) as (l2 & Hl2 & Hnd2 & Hev2 & Hm2).
    assert (∀ ev, ev ∈ l2 → ev_name ev = name w ∧ ev_action ev ∈ allowed) as Hev2'.
    { intros ev Hin. destruct (Hev2 ev Hin) as [Hn Ha]. split; [|done].
      rewrite Hw in Hn. by injection Hn. }
    rewrite bind_run.
    destruct (body fuel self st) as [[r|e| |] st1]; simpl in *.
    + set (loop := if apply then _ else _).
      assert (visit_post id seen1 st1 (loop st1)) as (l1 & Hl1 & Hnd1 & Hout1 & Hret1).
      { subst loop. destruct apply.
        - apply visit_post_loop. intros. apply visit_post_result, IH.
        - by apply visit_post_nothing; intros a [= <-]. }
      rewrite bind_run. destruct (loop st1) as [[seen2|e| |] st2]; simpl in *;
        exists l1, l2; rewrite Hl1, Hl2, <- app_assoc;
        (split; [done|]); (split; [done|]); (split; [done|]);
        (split; [done|]); (split; [done|]); [|done..].
      intros r' [= <-]. simpl. destruct (Hret1 seen2 eq_refl) as [Hsub Hin1].
      split; [done|]. split; [done|]. by apply Hm2.
    + exists [], l2. rewrite app_nil_r.
      split; [done|]. split; [constructor|]. split; [done|].
      split; [by intros ev ?%elem_of_nil|]. split; done.
    + exists [], l2. rewrite app_nil_r.
      split; [done|]. split; [constructor|]. split; [done|].
      split; [by intros ev ?%elem_of_nil|]. split; done.
    + exists [], l2. rewrite app_nil_r.
      split; [done|]. split; [constructor|]. split; [done|].
      split; [by intros ev ?%elem_of_nil|]. split; done.
Qed.

Lemma visit_post_cascade {A} ord (g : A) body must allowed :
  (∀ f o, preserves same_shape (body f o)) →
  (∀ f o, acts_on o must allowed (body f o)) →
  ∀ fuel self apply seen_caches st,
    visit_post snd (default ∅ seen_caches) st
      (cascade ord g body fuel self apply seen_caches st).
Proof.
  intros Hshape Hacts fuel.
  induction fuel as [|fuel IH]; intros self apply seen_caches st.
  { by apply visit_post_nothing. }
  destruct (heap st !! self) as [w|] eqn:Hw.
  - destruct (already_seen (name w) seen_caches) eqn:Hguard.
    { cbn [cascade]. rewrite (bind_get_obj self w), Hguard by done.
      by apply visit_post_nothing; intros a [= <-]. }
    destruct (cascade_step ord g body must allowed fuel self apply seen_caches st w)
      as (l_deps & l_self & Hl & Hnd1 & Hnd2 & Hout & Hself & Hret); [done..| | done | done |].
    { intros o s st'. apply (IH o apply (Some s) st'). }
    apply already_seen_false in Hguard.
    assert (∀ ev, ev ∈ l_deps → ev ∉ l_self) as Hdisj.
    { intros ev Hin1 Hin2. apply (Hout ev Hin1). destruct (Hself ev Hin2) as [-> _].
      apply elem_of_union. left. by apply elem_of_singleton. }
    exists (match ord with
            | DependentsFirst => l_deps ++ l_self
            | SelfFirst => l_self ++ l_deps
            end).
    split; [done|]. split; [|split].
    + destruct ord; apply NoDup_app; (split; [done|]); (split; [|done]); [done|].
      intros ev Hin2 Hin1. by apply (Hdisj ev).
    + intros ev Hin Hseen.
      assert (ev ∈ l_deps ∨ ev ∈ l_self) as [Hin'|Hin']
        by (destruct ord; apply elem_of_app in Hin; tauto).
      * apply (Hout ev Hin'). apply elem_of_union. by right.
      * destruct (Hself ev Hin') as [Hn _]. by rewrite Hn in Hseen.
    + intros r Hr. destruct (Hret r Hr) as (Hsub & Hin1 & _). split.
      * intros x Hx. apply Hsub. apply elem_of_union. by right.
      * intros ev Hin.
        assert (ev ∈ l_deps ∨ ev ∈ l_self) as [Hin'|Hin']
          by (destruct ord; apply elem_of_app in Hin; tauto).
        -- by apply Hin1.
        -- destruct (Hself ev Hin') as [-> _]. apply Hsub.
           apply elem_of_union. left. by apply elem_of_singleton.
  - cbn [cascade]. rewrite bind_run. unfold get_obj. rewrite Hw.
    by apply visit_post_nothing.
Qed.

Lemma cascade_split_holds {A} ord (g : A) body must allowed fuel self apply seen_caches st w :
  (∀ f o, preserves same_shape (body f o)) →
  (∀ f o, acts_on o must allowed (body f o)) →
  heap st !! self = Some w →
  already_seen (name w) seen_caches = false →
  cascade_split ord (name w) (default ∅ seen_caches) must allowed st
    (cascade ord g body (S fuel) self apply seen_caches st).
Proof.
  intros Hshape Hacts Hw Hguard. apply cascade_step; [done..| |done|done].
  intros o s st'. by apply (visit_post_cascade ord g body must allowed).
Qed.

Lemma log_since_app st st' l : log st' = log st ++ l → log_since st st' = l.
Proof. intros Hl. unfold log_since. by rewrite Hl, drop_app_length. Qed.

(** ** Enough budget *)

Lemma size_names st : size (names st) ≤ size (heap st).
Proof.
  unfold names. rewrite <- (map_size_fmap name (heap st)).
  generalize (name <$> heap st). intros m.
  induction m as [|i x m Hi IH] using map_ind.
  - by rewrite map_img_empty_L, size_empty, map_size_empty.
  - rewrite map_img_insert_notin_L, map_size_insert_None by done.
    rewrite size_union_alt, size_singleton.
    assert (size (map_img m ∖ {[x]} : gset string) ≤ size (map_img m : gset string)).
    { apply subseteq_size. by apply subseteq_difference_l. }
    lia.
Qed.

Lemma name_in_names st self w : heap st !! self = Some w → name w ∈ names st.
Proof.
  intros Hw. unfold names. apply elem_of_map_img. exists self.
  by rewrite lookup_fmap, Hw.
Qed.

Lemma finished_result {A} (c : M state (A * gset string)) st :
  finished (c st).1 → finished ((r ← c; ret r.2) st).1.
Proof. rewrite bind_run. by destruct (c st) as [[[a s]|e| |] st1]. Qed.

Lemma finished_loop visit mgr ds fuel seen st :
  (∀ o s st', visit_post id s st' (visit o s st')) →
  (∀ o s, preserves same_shape (visit o s)) →
  (∀ o s st', registry_ok st' → is_Some (heap st' !! o) →
              size (names st' ∖ s) + 1 < fuel → finished (visit o s st').1) →
  registry_ok st → size (names st ∖ seen) + 1 < fuel →
  finished (for_dependent_caches visit mgr ds seen st).1.
Proof.
  intros Hpost Hshape Hfin. revert seen st.
  induction ds as [|d ds IH]; intros seen st Hreg Hsize; simpl; [done|].
  destruct (bool_decide (d ∈ seen)); [by apply IH|].
  rewrite bind_run. simpl.
  destruct (cache_by_name st mgr !! d) as [o|] eqn:Ho; [|by apply IH].
  rewrite bind_run.
  specialize (Hfin o seen st Hreg (Hreg _ _ _ Ho) Hsize).
  specialize (Hshape o seen st).
  destruct (Hpost o seen st) as (l & _ & _ & _ & Hret).
  destruct (visit o seen st) as [[seen1|e| |] st1]; simpl in *; try done.
  destruct (Hret seen1 eq_refl) as [Hsub _].
  apply IH; [by eapply same_shape_registry_ok|].
  rewrite (same_shape_names _ _ Hshape).
  assert (size (names st ∖ seen1) ≤ size (names st ∖ seen)); [|lia].
  apply subseteq_size. intros x [Hx Hn]%elem_of_difference.
  apply elem_of_difference. split; [done|]. intros Hin. apply Hn. by apply Hsub.
Qed.

Lemma finished_cascade {A} ord (g : A) body must allowed :
  (∀ f o, preserves same_shape (body f o)) →
  (∀ f o, acts_on o must allowed (body f o)) →
  (∀ f o, finishes o (body (S f) o)) →
  ∀ fuel self apply seen_caches st,
    registry_ok st → is_Some (heap st !! self) →
    size (names st ∖ default ∅ seen_caches) + 1 < fuel →
    finished (cascade ord g body fuel self apply seen_caches st).1.
Proof.
  intros Hshape Hacts Hfin fuel.
  induction fuel as [|fuel IH]; intros self apply seen_caches st Hreg [w Hw] Hsize; [lia|].
  cbn [cascade]. rewrite (bind_get_obj self w) by done.
  destruct (already_seen (name w) seen_caches) eqn:Hguard; [done|].
  rewrite (bind_add_seen self w) by done.
  apply already_seen_false in Hguard.
  set (seen1 := {[name w]} ∪ default ∅ seen_caches).
  assert (size (names st ∖ seen1) < size (names st ∖ default ∅ seen_caches)) as Hless.
  { apply subset_size. split.
    - intros x [Hx Hn]%elem_of_difference. apply elem_of_difference. split; [done|].
      intros Hin. apply Hn. apply elem_of_union. by right.
    - intros Hsub. assert (name w ∈ names st ∖ seen1) as [_ Hn]%elem_of_difference.
      { apply Hsub. apply elem_of_difference. split; [by eapply name_in_names | done]. }
      apply Hn. apply elem_of_union. left. by apply elem_of_singleton. }
  destruct fuel as [|fuel]; [lia|].
  assert (∀ st', same_shape st st' →
    finished ((if apply
               then for_dependent_caches
                      (λ o s, r ← cascade ord g body (S fuel) o apply (Some s); ret r.2)
                      (manager w) (dependents w) seen1
               else ret seen1) st').1) as Hloop.
  { intros st' Hs. destruct apply; [|done].
    apply (finished_loop _ _ _ (S fuel)).
    - intros. by apply visit_post_result, (visit_post_cascade ord g body must allowed).
    - intros. preserves_walk.
    - intros o s st'' Hreg' Hlive' Hsize'. apply finished_result. by apply IH.
    - by eapply same_shape_registry_ok.
    - rewrite (same_shape_names _ _ Hs). lia. }
  assert (∀ seen, preserves same_shape
    (if apply
     then for_dependent_caches
            (λ o s, r ← cascade ord g body (S fuel) o apply (Some s); ret r.2)
            (manager w) (dependents w) seen
     else ret seen)) as Hloop_shape.
  { intros seen. destruct apply; [|preserves_walk].
    apply preserves_for_dependent_caches; [apply _|]. intros. preserves_walk. }
  destruct ord.
  - rewrite bind_run. specialize (Hloop st (reflexivity _)).
    specialize (Hloop_shape seen1 st).
    destruct (_ st) as [[seen2|e| |] st1]; simpl in *; try done.
    rewrite bind_run.
    assert (finished (body (S fuel) self st1).1) as Hbody.
    { apply Hfin. eapply same_shape_live; eauto. }
    by destruct (body (S fuel) self st1) as [[r|e| |] st2].
  - rewrite bind_run.
    assert (finished (body (S fuel) self st).1) as Hbody by (apply Hfin; eauto).
    pose proof (Hshape (S fuel) self st) as Hs.
    destruct (body (S fuel) self st) as [[r|e| |] st1]; simpl in *; try done.
    rewrite bind_run. specialize (Hloop st1 Hs).
    by destruct (_ st1) as [[seen2|e| |] st2].
Qed.

(** ** Termination and single visits *)

Lemma cascade_ends_visiting_once {A} ord (g : A) body must allowed :
  (∀ f o, preserves same_shape (body f o)) →
  (∀ f o, acts_on o must allowed (body f o)) →
  (∀ f o, finishes o (body (S f) o)) →
  ends_visiting_once (cascade ord g body).
Proof.
  intros Hshape Hacts Hfin st self apply seen_caches extra. cbv zeta. split.
  - destruct (visit_post_cascade ord g body must allowed Hshape Hacts
                (size (heap st) + 2 + extra) self apply seen_caches st)
      as (l & Hl & Hnd & _).
    by rewrite (log_since_app _ _ l Hl).
  - intros Hreg Hlive. apply (finished_cascade ord g body must allowed); [done..|].
    pose proof (size_names st).
    assert (size (names st ∖ default ∅ seen_caches) ≤ size (names st)); [|lia].
    apply subseteq_size. by apply subseteq_difference_l.
Qed.

(** C1. Each of the six cascading operations, started on any node of any
    dependency graph (cycles and diamonds included) with a call-depth budget
    above the number of wrapper objects, ends: it returns or raises what a
    callback raised.  Whatever the budget, the history of the call holds no
    entry twice: no node-local action runs twice for a cache name. *)
Theorem cascading_operations_end_visiting_once :
  ends_visiting_once (load (W := W)) ∧
  ends_visiting_once (save (W := W)) ∧
  ends_visiting_once (invalidate (W := W)) ∧
  ends_visiting_once (delete_saved_content (W := W)) ∧
  ends_visiting_once (invalidate_and_rebuild (W := W)) ∧
  ends_visiting_once (load_or_build (W := W)).
Proof.
  split; [|split; [|split; [|split; [|split]]]].
  - intros st self apply seen_caches extra. rewrite load_cascade.
    apply (cascade_ends_visiting_once _ _ _ [ALoad] [ALoad]); intros;
      [preserves_walk | apply acts_on_load_body | apply finishes_load_body].
  - intros st self apply seen_caches extra. rewrite save_cascade.
    apply (cascade_ends_visiting_once _ _ _ [ASave] [ASave]); intros;
      [preserves_walk | apply acts_on_save_body | apply finishes_save_body].
  - intros st self apply seen_caches extra. rewrite invalidate_cascade.
    apply (cascade_ends_visiting_once _ _ _ [ALoad] [ALoad]); intros;
      [preserves_walk | apply acts_on_load_body | apply finishes_load_body].
  - intros st self apply seen_caches extra. rewrite delete_saved_content_cascade.
    apply (cascade_ends_visiting_once _ _ _ [ADelete] [ADelete]); intros;
      [preserves_walk | apply acts_on_delete_body | apply finishes_delete_body].
  - intros st self apply seen_caches extra. rewrite invalidate_and_rebuild_cascade.
    apply (cascade_ends_visiting_once _ _ _ _ _
             preserves_shape_invalidate_and_rebuild_body
             acts_on_invalidate_and_rebuild_body
             finishes_invalidate_and_rebuild_body).
  - intros st self apply seen_caches extra. rewrite load_or_build_cascade.
    apply (cascade_ends_visiting_once _ _ _ _ _
             preserves_shape_load_or_build_body
             acts_on_load_or_build_body
             finishes_load_or_build_body).
Qed.

(** ** The order of a cascade *)










(** ** Messages *)

Lemma prefix_append n t : String.prefix n (n +:+ t) = true.
Proof.
  induction n as [|c n IH]; simpl; [by destruct t|].
  by destruct (Ascii.ascii_dec c c).
Qed.

Lemma occurs_in_here n t : occurs_in n (n +:+ t) = true.
Proof.
  assert (∀ h, occurs_in n h =
               String.prefix n h ||
               match h with EmptyString => false | String _ h' => occurs_in n h' end)
    as Hunfold by (by intros []).
  by rewrite Hunfold, prefix_append.
Qed.

Lemma occurs_in_append_r n p t : occurs_in n t = true → occurs_in n (p +:+ t) = true.
Proof.
  intros H. induction p as [|c p IH]; simpl; [done|].
  rewrite IH. apply orb_true_r.
Qed.

(** ** The mapping proxy on absent contents *)

Lemma check_contents_absent self w st :
  heap st !! self = Some w → contents w = VNone →
  _check_contents_present self st =
  (Raise (AttributeError ("No cache contents defined for '" +:+ name w +:+ "'")), st).
Proof.
  intros Hw Hc. unfold _check_contents_present.
  rewrite (bind_get_obj self w) by done. by rewrite Hc.
Qed.

(** C6. On a wrapper whose contents are absent, item read, item write, item
    delete, iteration and length raise the contents-absent error, whose
    message contains the cache name; the membership test returns false for
    every key. *)
Theorem absent_contents_proxy self w st (key v : string) :
  heap st !! self = Some w →
  contents w = VNone →
  let msg := "No cache contents defined for '" +:+ name w +:+ "'" in
  __getitem__ self key st = (Raise (AttributeError msg), st) ∧
  __setitem__ self key v st = (Raise (AttributeError msg), st) ∧
  __delitem__ self key st = (Raise (AttributeError msg), st) ∧
  __iter__ self st = (Raise (AttributeError msg), st) ∧
  __len__ self st = (Raise (AttributeError msg), st) ∧
  __contains__ self key st = (Return false, st) ∧
  occurs_in (name w) msg = true.
Proof.
  intros Hw Hc msg.
  unfold __getitem__, __setitem__, __delitem__, __iter__, __len__, __contains__.
  rewrite !bind_run, (check_contents_absent self w st Hw Hc).
  repeat (split; [done|]). split.
  - unfold get_obj. by rewrite Hw, Hc.
  - apply occurs_in_append_r, occurs_in_here.
Qed.

(** ** Attribute fallback *)

Section GetattrFacts.

Context {pyobj : Type} (py_getter : value → string → option (string → option pyobj)).

Lemma try_getters_none c gs attr :
  (∀ g get, g ∈ gs → py_getter c g = Some get → get attr = None) →
  try_getters py_getter c gs attr = None.
Proof.
  induction gs as [|g gs IH]; intros H; simpl; [done|].
  destruct (py_getter c g) as [get|] eqn:Hg.
  - rewrite (H g get) by (done || left). apply IH. intros g' get' Hin. apply H. by right.
  - apply IH. intros g' get' Hin. apply H. by right.
Qed.

(** C7 (amended). When no getter of the contents yields the attribute, the
    attribute access raises an error whose message contains the class name
    of the wrapper, the type name of the contents and the name of the
    attribute asked for.  The message is made of these three alone: it is
    the same for every wrapper of this class with these contents, whatever
    the name of the cache. *)
Theorem unknown_attribute_message self w st attr :
  heap st !! self = Some w →
  (∀ g get, g ∈ getters → py_getter (contents w) g = Some get → get attr = None) →
  let msg := "'" +:+ class_name (cls w) +:+ "' and '" +:+ type_name (contents w)
             +:+ "' objects have no attribute '" +:+ attr +:+ "'" in
  __getattr__ py_getter self attr st = (Raise (AttributeError msg), st) ∧
  occurs_in (class_name (cls w)) msg = true ∧
  occurs_in (type_name (contents w)) msg = true ∧
  occurs_in attr msg = true ∧
  ∀ st' w', heap st' !! self = Some w' →
            cls w' = cls w → contents w' = contents w →
            __getattr__ py_getter self attr st' = (Raise (AttributeError msg), st').
Proof.
  intros Hw Hnone msg. split; [|split; [|split; [|split]]].
  - unfold __getattr__. rewrite (bind_get_obj self w) by done.
    by rewrite try_getters_none.
  - apply occurs_in_append_r, occurs_in_here.
  - do 3 apply occurs_in_append_r. apply occurs_in_here.
  - do 5 apply occurs_in_append_r. apply occurs_in_here.
  - intros st' w' Hw' Hcls Hcontents. unfold __getattr__.
    rewrite (bind_get_obj self w') by done. rewrite Hcls, Hcontents.
    by rewrite try_getters_none.
Qed.

End GetattrFacts.

(** ** Calls that do not cascade *)

Lemma cascade_alone_run {A} (g : A) body fuel self seen_caches st w :
  heap st !! self = Some w →
  already_seen (name w) seen_caches = false →
  cascade DependentsFirst g body (S fuel) self false seen_caches st =
  (r ← body fuel self; ret (r, {[name w]} ∪ default ∅ seen_caches)) st.
Proof.
  intros Hw Hguard. cbn [cascade].
  by rewrite (bind_get_obj self w), Hguard, (bind_add_seen self w).
Qed.

Lemma load_body_loader_fails self w st ld e wd :
  heap st !! self = Some w →
  loader w = Some ld →
  ld (name w) (world st) = (inl e, wd) →
  load_body self st =
  (Raise e,
   set_world wd (set_heap (<[self := with_contents VNone w]> (heap st))
                          (add_log (Ev ALoad (name w)) st))).
Proof.
  intros Hw Hld Hcall. unfold load_body.
  rewrite (bind_get_obj self w), run_emit, (run_set_contents self w), Hld by done.
  rewrite bind_run. by rewrite (run_call_raises _ e wd).
Qed.

(** C10. [load] sets the contents absent before it calls the loader: when the
    loader raises, the exception reaches the caller, the wrapper is left
    with absent contents whatever it held, and the other objects are as
    they were. *)
Theorem load_not_atomic_on_loader_failure fuel self seen_caches st w ld e wd :
  heap st !! self = Some w →
  already_seen (name w) seen_caches = false →
  loader w = Some ld →
  ld (name w) (world st) = (inl e, wd) →
  let run := load (S fuel) self false seen_caches st in
  run.1 = Raise e ∧
  heap run.2 = <[self := with_contents VNone w]> (heap st) ∧
  world run.2 = wd.
Proof.
  intros Hw Hguard Hld Hcall. cbv zeta.
  rewrite load_cascade, (cascade_alone_run _ _ _ _ _ _ w), bind_run by done.
  by rewrite (load_body_loader_fails self w st ld e wd).
Qed.

(** ** [save] *)

(** C5 (amended). [save] passes the contents through the pre-processor
    (identity when there is none).  Without a saver it returns the processed
    contents.  With a saver it calls the saver on the name and the processed
    contents, and returns the saver's result when that result is truthy,
    the processed contents otherwise. *)
Theorem save_result fuel self seen_caches st w p wd1 :
  heap st !! self = Some w →
  already_seen (name w) seen_caches = false →
  match pre_processor w with
  | Some f => f (contents w) (world st) = (inr p, wd1)
  | None => p = contents w ∧ wd1 = world st
  end →
  let run := save (S fuel) self false seen_caches st in
  let seen := {[name w]} ∪ default ∅ seen_caches in
  match saver w with
  | None => run.1 = Return (p, seen) ∧ world run.2 = wd1
  | Some sv =>
      ∀ r wd2, sv (name w) p wd1 = (inr r, wd2) →
               run.1 = Return (if truthy r then r else p, seen) ∧ world run.2 = wd2
  end.
Proof.
  intros Hw Hguard Hpre. cbv zeta.
  rewrite save_cascade, (cascade_alone_run _ _ _ _ _ _ w), bind_run by done.
  unfold save_body. rewrite (bind_get_obj self w), run_emit by done.
  rewrite bind_run. unfold _pre_process. rewrite (bind_get_obj self w) by done.
  destruct (pre_processor w) as [f|].
  - rewrite (call_run_returns _ p wd1) by done.
    destruct (saver w) as [sv|]; [|done].
    intros r wd2 Hsv. by rewrite (run_call_returns _ r wd2).
  - destruct Hpre as [-> ->]. simpl.
    destruct (saver w) as [sv|]; [|done].
    intros r wd2 Hsv. by rewrite (run_call_returns _ r wd2).
Qed.

(** ** [_build] *)

Lemma bind_returns {A B} (c : M state A) (k : A → M state B) st b st' :
  (c ≫= k) st = (Return b, st') →
  ∃ a st1, c st = (Return a, st1) ∧ k a st1 = (Return b, st').
Proof.
  rewrite bind_run. destruct (c st) as [[a|e| |] st1]; [|done..]. eauto.
Qed.



Lemma call_returns_state f st v st' :
  call f st = (Return v, st') →
  ∃ wd, f (world st) = (inr v, wd) ∧ st' = set_world wd st.
Proof.
  unfold call. destruct (f (world st)) as [[e|v'] wd]; [done|].
  intros [= -> <-]. eauto.
Qed.


Lemma preserves_heap_save fuel self seen_caches apply :
  preserves same_heap (save fuel self apply seen_caches).
Proof. rewrite save_cascade. preserves_walk. Qed.


(** ** [delete_saved_content] *)


(** ** The mapping proxy on a mapping *)

#[local] Instance only_contents_of_preorder self : PreOrder (only_contents_of (W := W) self).
Proof.
  split.
  - by intros st.
  - intros st1 st2 st3 (H1 & H2 & H3 & H4 & H5) (K1 & K2 & K3 & K4 & K5).
    split; [|split; [|split; [|split]]]; try congruence.
    intros o Ho. by rewrite K1, H1.
Qed.


Lemma check_contents_present_run self w st :
  heap st !! self = Some w → contents w ≠ VNone →
  _check_contents_present self st = (Return tt, st).
Proof.
  intros Hw Hc. unfold _check_contents_present.
  rewrite (bind_get_obj self w) by done. by destruct (contents w).
Qed.

Lemma getitem_run self w d st key :
  heap st !! self = Some w → contents w = VDict d →
  __getitem__ self key st =
  (match d !! key with Some v => Return v | None => Raise (KeyError key) end, st).
Proof.
  intros Hw Hc. unfold __getitem__.
  rewrite bind_run, (check_contents_present_run self w) by (done || by rewrite Hc).
  rewrite (bind_get_obj self w), Hc by done. by destruct (d !! key).
Qed.

Lemma contains_run self w d st key :
  heap st !! self = Some w → contents w = VDict d →
  __contains__ self key st = (Return (bool_decide (is_Some (d !! key))), st).
Proof.
  intros Hw Hc. unfold __contains__. rewrite (bind_get_obj self w) by done.
  by rewrite Hc.
Qed.

Lemma len_run self w d st :
  heap st !! self = Some w → contents w = VDict d →
  __len__ self st = (Return (size d), st).
Proof.
  intros Hw Hc. unfold __len__.
  rewrite bind_run, (check_contents_present_run self w) by (done || by rewrite Hc).
  by rewrite (bind_get_obj self w), Hc.
Qed.

Lemma iter_run self w d st :
  heap st !! self = Some w → contents w = VDict d →
  __iter__ self st = (Return ((map_to_list d).*1), st).
Proof.
  intros Hw Hc. unfold __iter__.
  rewrite bind_run, (check_contents_present_run self w) by (done || by rewrite Hc).
  by rewrite (bind_get_obj self w), Hc.
Qed.

Lemma setitem_run self w d st key v :
  heap st !! self = Some w → contents w = VDict d →
  __setitem__ self key v st =
  (Return tt, set_heap (<[self := with_contents (VDict (<[key := v]> d)) w]> (heap st)) st).
Proof.
  intros Hw Hc. unfold __setitem__.
  rewrite bind_run, (check_contents_present_run self w) by (done || by rewrite Hc).
  rewrite (bind_get_obj self w), Hc by done. unfold set_contents. by rewrite Hw.
Qed.

Lemma delitem_run self w d st key :
  heap st !! self = Some w → contents w = VDict d →
  __delitem__ self key st =
  match d !! key with
  | Some _ =>
      (Return tt, set_heap (<[self := with_contents (VDict (delete key d)) w]> (heap st)) st)
  | None => (Raise (KeyError key), st)
  end.
Proof.
  intros Hw Hc. unfold __delitem__.
  rewrite bind_run, (check_contents_present_run self w) by (done || by rewrite Hc).
  rewrite (bind_get_obj self w), Hc by done.
  destruct (d !! key); [|done]. unfold set_contents. by rewrite Hw.
Qed.

(** X1. Item write then item read: after [w[key] = v] on a wrapper holding a
    mapping, reading [key] yields [v], [key] is a member, every other key
    reads as before, and the length grew by one exactly when [key] was new. *)
Theorem setitem_then_getitem self w d st key v :
  heap st !! self = Some w →
  contents w = VDict d →
  let st1 := (__setitem__ self key v st).2 in
  (__setitem__ self key v st).1 = Return tt ∧
  __getitem__ self key st1 = (Return v, st1) ∧
  __contains__ self key st1 = (Return true, st1) ∧
  (∀ key', key' ≠ key → (__getitem__ self key' st1).1 = (__getitem__ self key' st).1) ∧
  (__len__ self st1).1 =
    Return (match d !! key with Some _ => size d | None => S (size d) end).
Proof.
  intros Hw Hc. cbv zeta. rewrite (setitem_run self w d) by done. simpl.
  set (w1 := with_contents (VDict (<[key:=v]> d)) w).
  set (st1 := set_heap (<[self:=w1]> (heap st)) st).
  assert (heap st1 !! self = Some w1) as Hw1 by apply lookup_insert_eq.
  split; [done|]. split; [|split; [|split]].
  - rewrite (getitem_run self w1 (<[key:=v]> d)) by done. by rewrite lookup_insert_eq.
  - rewrite (contains_run self w1 (<[key:=v]> d)) by done.
    by rewrite lookup_insert_eq, bool_decide_eq_true_2.
  - intros key' Hne.
    rewrite (getitem_run self w1 (<[key:=v]> d)), (getitem_run self w d) by done.
    by rewrite lookup_insert_ne.
  - rewrite (len_run self w1 (<[key:=v]> d)) by done. simpl.
    destruct (d !! key) as [v'|] eqn:Hk.
    + by rewrite map_size_insert_Some.
    + by rewrite map_size_insert_None.
Qed.

(** X2. A key the mapping does not hold: item read and item delete raise
    KeyError for that key and the membership test is false; none of the
    three changes anything. *)
Theorem missing_key_raises self w d st key :
  heap st !! self = Some w →
  contents w = VDict d →
  d !! key = None →
  __getitem__ self key st = (Raise (KeyError key), st) ∧
  __delitem__ self key st = (Raise (KeyError key), st) ∧
  __contains__ self key st = (Return false, st).
Proof.
  intros Hw Hc Hk.
  rewrite (getitem_run self w d), (delitem_run self w d), (contains_run self w d), Hk
    by done.
  split; [done|]. split; [done|]. by rewrite bool_decide_eq_false_2 by by intros [].
Qed.

(** X3. Item delete of a key the mapping holds: afterwards the key is no
    member, reading it raises KeyError, the length is one less, and every
    other key reads as before. *)
Theorem delitem_removes_key self w d st key v :
  heap st !! self = Some w →
  contents w = VDict d →
  d !! key = Some v →
  let st1 := (__delitem__ self key st).2 in
  (__delitem__ self key st).1 = Return tt ∧
  __contains__ self key st1 = (Return false, st1) ∧
  __getitem__ self key st1 = (Raise (KeyError key), st1) ∧
  (∀ key', key' ≠ key → (__getitem__ self key' st1).1 = (__getitem__ self key' st).1) ∧
  (__len__ self st1).1 = Return (size d - 1).
Proof.
  intros Hw Hc Hk. cbv zeta. rewrite (delitem_run self w d), Hk by done. simpl.
  set (w1 := with_contents (VDict (delete key d)) w).
  set (st1 := set_heap (<[self:=w1]> (heap st)) st).
  assert (heap st1 !! self = Some w1) as Hw1 by apply lookup_insert_eq.
  assert (size d = S (size (delete key d))) as Hsize.
  { rewrite <- (insert_delete_id d key v) at 1 by done.
    by rewrite map_size_insert_None by apply lookup_delete_eq. }
  split; [done|]. split; [|split; [|split]].
  - rewrite (contains_run self w1 (delete key d)) by done.
    rewrite lookup_delete_eq. by rewrite bool_decide_eq_false_2 by by intros [].
  - rewrite (getitem_run self w1 (delete key d)) by done. by rewrite lookup_delete_eq.
  - intros key' Hne.
    rewrite (getitem_run self w1 (delete key d)), (getitem_run self w d) by done.
    by rewrite lookup_delete_ne.
  - rewrite (len_run self w1 (delete key d)) by done. simpl. f_equal. lia.
Qed.

(** X4. Iteration yields the keys of the mapping, each once: as many as the
    length reports, and a key is among them exactly when the membership test
    holds. *)
Theorem iter_lists_keys self w d st :
  heap st !! self = Some w →
  contents w = VDict d →
  ∃ keys,
    __iter__ self st = (Return keys, st) ∧
    NoDup keys ∧
    __len__ self st = (Return (length keys), st) ∧
    ∀ key, key ∈ keys ↔ __contains__ self key st = (Return true, st).
Proof.
  intros Hw Hc. exists ((map_to_list d).*1).
  split; [by apply (iter_run self w d)|]. split; [apply NoDup_fst_map_to_list|]. split.
  - rewrite (len_run self w d) by done. by rewrite length_fmap, length_map_to_list.
  - intros key. rewrite (contains_run self w d) by done.
    rewrite list_elem_of_fmap. split.
    + intros ([k v] & -> & Hin%elem_of_map_to_list). simpl.
      by rewrite Hin, bool_decide_eq_true_2.
    + intros [= Hk%bool_decide_eq_true]. destruct Hk as [v Hv].
      exists (key, v). split; [done|]. by apply elem_of_map_to_list.
Qed.


(** ** [load], case by case *)

Lemma run_ret {A B} (a : A) (k : A → M state B) st : (ret a ≫= k) st = k a st.
Proof. done. Qed.

Lemma bind_assoc_run {A B C} (c : M state A) (k1 : A → M state B) (k2 : B → M state C) st :
  ((c ≫= k1) ≫= k2) st = (c ≫= λ x, k1 x ≫= k2) st.
Proof. rewrite !bind_run. by destruct (c st) as [[a|e| |] st1]. Qed.

Lemma state_eq (st1 st2 : state) :
  heap st1 = heap st2 → cache_by_name st1 = cache_by_name st2 →
  world st1 = world st2 → log st1 = log st2 → st1 = st2.
Proof. destruct st1, st2. simpl. by intros -> -> -> ->. Qed.

Lemma post_process_run self w c st :
  heap st !! self = Some w →
  _post_process self c st =
  ((post_process_effect w c (world st)).1.1,
   set_world (post_process_effect w c (world st)).2 st).
Proof.
  intros Hw. unfold _post_process, post_process_effect.
  rewrite (bind_get_obj self w) by done.
  destruct (post_processor w) as [pp|]; [|by destruct st].
  rewrite bind_run. unfold call.
  by destruct (pp c (world st)) as [[e|r] wd'].
Qed.

Lemma load_body_run self w st :
  heap st !! self = Some w →
  load_body self st =
  ((load_effect w (world st)).1.1,
   acted ALoad self w (load_effect w (world st)).1.2 (load_effect w (world st)).2 st).
Proof.
  intros Hw. unfold load_body, load_effect.
  rewrite (bind_get_obj self w), run_emit, (run_set_contents self w) by done.
  set (st1 := set_heap _ _).
  assert (heap st1 !! self = Some (with_contents VNone w)) as Hw1
    by apply lookup_insert_eq.
  destruct (loader w) as [ld|].
  - rewrite bind_assoc_run.
    destruct (ld (name w) (world st)) as [[e|c] wd1] eqn:Hld.
    + rewrite (run_call_raises _ e wd1) by done. by apply (f_equal (pair _)), state_eq.
    + rewrite (run_call_returns _ c wd1) by done.
      rewrite bind_assoc_run.
      rewrite (run_set_contents self (with_contents VNone w)) by done.
      set (st2 := set_heap _ _).
      assert (heap st2 = <[self := with_contents c w]> (heap st)) as Hheap2.
      { subst st2 st1. simpl. by rewrite insert_insert_eq. }
      assert (∀ c' wd' (st3 : state),
                heap st3 = <[self := with_contents c' w]> (heap st) →
                cache_by_name st3 = cache_by_name st →
                log st3 = log st ++ [Ev ALoad (name w)] →
                world st3 = wd' →
                (get_obj self ≫= λ w', ret (contents w')) st3 =
                (Return c', acted ALoad self w c' wd' st)) as Hend.
      { intros c' wd' st3 H1 H2 H3 H4.
        rewrite (bind_get_obj self (with_contents c' w))
          by (by rewrite H1, lookup_insert_eq).
        by apply (f_equal (pair _)), state_eq. }
      assert (∀ wd' (st3 : state),
                heap st3 = heap st2 → cache_by_name st3 = cache_by_name st →
                log st3 = log st ++ [Ev ALoad (name w)] → world st3 = wd' →
                ((set_contents self VNone) ≫=
                   λ _, get_obj self ≫= λ w', ret (contents w')) st3 =
                (Return VNone, acted ALoad self w VNone wd' st)) as Hreject.
      { intros wd' st3 H1 H2 H3 H4.
        rewrite (run_set_contents self (with_contents c w))
          by (by rewrite H1, Hheap2, lookup_insert_eq).
        apply Hend; simpl; [|done..].
        by rewrite H1, Hheap2, insert_insert_eq. }
      assert (∀ wd' (st3 : state),
                heap st3 = heap st2 → cache_by_name st3 = cache_by_name st →
                log st3 = log st ++ [Ev ALoad (name w)] → world st3 = wd' →
                ((_post_process self c ≫= λ c', set_contents self c') ≫=
                   λ _, get_obj self ≫= λ w', ret (contents w')) st3 =
                ((post_process_effect w c wd').1.1,
                 acted ALoad self w (post_process_effect w c wd').1.2
                       (post_process_effect w c wd').2 st)) as Haccept.
      { intros wd' st3 H1 H2 H3 H4.
        rewrite bind_assoc_run, bind_run.
        rewrite (post_process_run self (with_contents c w))
          by (by rewrite H1, Hheap2, lookup_insert_eq).
        rewrite H4. unfold post_process_effect. simpl.
        destruct (post_processor w) as [pp|]; simpl.
        - destruct (pp c wd') as [[e|r] wd''] eqn:Hpp; simpl.
          + apply (f_equal (pair _)), state_eq; simpl; try done.
            by rewrite H1.
          + rewrite (run_set_contents self (with_contents c w))
              by (simpl; by rewrite H1, Hheap2, lookup_insert_eq).
            apply Hend; simpl; try done.
            by rewrite H1, Hheap2, insert_insert_eq.
        - rewrite (run_set_contents self (with_contents c w))
            by (simpl; by rewrite H1, Hheap2, lookup_insert_eq).
          apply Hend; simpl; try done.
          by rewrite H1, Hheap2, insert_insert_eq. }
      rewrite bind_assoc_run.
      destruct (is_None c) eqn:Hnone.
      { rewrite run_ret. by apply Hreject. }
      destruct (validator w) as [vd|].
      * rewrite bind_assoc_run.
        destruct (vd c wd1) as [[e|ok] wd2] eqn:Hvd.
        -- rewrite (run_call_raises _ e wd2) by done.
           by apply (f_equal (pair _)), state_eq.
        -- rewrite (run_call_returns _ ok wd2) by done. rewrite run_ret.
           destruct (truthy ok); simpl; [by apply Haccept | by apply Hreject].
      * rewrite run_ret. by apply Haccept.
  - rewrite run_ret, (bind_get_obj self (with_contents VNone w)) by done.
    by apply (f_equal (pair _)), state_eq.
Qed.

Lemma load_alone_run fuel self seen_caches st w :
  heap st !! self = Some w →
  already_seen (name w) seen_caches = false →
  load (S fuel) self false seen_caches st =
  (match (load_effect w (world st)).1.1 with
   | Return v => Return (v, {[name w]} ∪ default ∅ seen_caches)
   | Raise e => Raise e
   | OutOfFuel => OutOfFuel
   | Dangling => Dangling
   end,
   acted ALoad self w (load_effect w (world st)).1.2 (load_effect w (world st)).2 st).
Proof.
  intros Hw Hguard.
  rewrite load_cascade, (cascade_alone_run _ _ _ _ _ _ w), bind_run by done.
  rewrite (load_body_run self w) by done.
  by destruct (load_effect w (world st)).1.1.
Qed.

(** X6. [load] on a wrapper without loader: the contents become absent, the
    result is [None], no callback runs and no other object changes. *)
Theorem load_without_loader fuel self seen_caches st w :
  heap st !! self = Some w →
  already_seen (name w) seen_caches = false →
  loader w = None →
  let run := load (S fuel) self false seen_caches st in
  run.1 = Return (VNone, {[name w]} ∪ default ∅ seen_caches) ∧
  heap run.2 = <[self := with_contents VNone w]> (heap st) ∧
  world run.2 = world st.
Proof.
  intros Hw Hguard Hld. cbv zeta. rewrite (load_alone_run _ _ _ _ w) by done.
  unfold load_effect. by rewrite Hld.
Qed.

(** X7. [load] ends Unloaded and returns [None] when the loader returns
    [None], and when the validator returns a falsy value for what the loader
    returned; the post-processor is not called (the world is as the loader,
    or the validator, left it). *)
Theorem load_rejected_ends_unloaded fuel self seen_caches st w ld c wd1 wd2 :
  heap st !! self = Some w →
  already_seen (name w) seen_caches = false →
  loader w = Some ld →
  ld (name w) (world st) = (inr c, wd1) →
  (c = VNone ∧ wd2 = wd1) ∨
  (c ≠ VNone ∧ ∃ vd ok, validator w = Some vd ∧ vd c wd1 = (inr ok, wd2) ∧
                        truthy ok = false) →
  let run := load (S fuel) self false seen_caches st in
  run.1 = Return (VNone, {[name w]} ∪ default ∅ seen_caches) ∧
  heap run.2 = <[self := with_contents VNone w]> (heap st) ∧
  world run.2 = wd2.
Proof.
  intros Hw Hguard Hld Hcall Hrej. cbv zeta.
  rewrite (load_alone_run _ _ _ _ w) by done.
  unfold load_effect. rewrite Hld, Hcall.
  destruct Hrej as [[-> ->]|(Hc & vd & ok & Hvd & Hcallv & Hok)]; [done|].
  rewrite Hvd, Hcallv, Hok. by destruct c.
Qed.

(** X8. [load] on a wrapper without post-processor ends Loaded with what the
    loader returned, and returns it, when that is not [None] and the
    validator, if there is one, returns a truthy value for it. *)
Theorem load_accepted_ends_loaded fuel self seen_caches st w ld c wd1 wd2 :
  heap st !! self = Some w →
  already_seen (name w) seen_caches = false →
  loader w = Some ld →
  ld (name w) (world st) = (inr c, wd1) →
  c ≠ VNone →
  match validator w with
  | None => wd2 = wd1
  | Some vd => ∃ ok, vd c wd1 = (inr ok, wd2) ∧ truthy ok = true
  end →
  post_processor w = None →
  let run := load (S fuel) self false seen_caches st in
  run.1 = Return (c, {[name w]} ∪ default ∅ seen_caches) ∧
  heap run.2 = <[self := with_contents c w]> (heap st) ∧
  world run.2 = wd2.
Proof.
  intros Hw Hguard Hld Hcall Hc Hvd Hpp. cbv zeta.
  rewrite (load_alone_run _ _ _ _ w) by done.
  unfold load_effect, post_process_effect. rewrite Hld, Hcall, Hpp.
  destruct (validator w) as [vd|].
  - destruct Hvd as (ok & -> & ->). by destruct c.
  - subst wd2. by destruct c.
Qed.

(** X9. When the validator or the post-processor raises, the exception
    reaches the caller of [load] and the wrapper is left holding what the
    loader returned: [load] stores the loader's result before it validates
    and post-processes it.  The post-processor runs when there is no
    validator and when the validator has accepted the value. *)
Theorem load_keeps_result_when_check_raises fuel self seen_caches st w ld c wd1 e wd2 :
  heap st !! self = Some w →
  already_seen (name w) seen_caches = false →
  loader w = Some ld →
  ld (name w) (world st) = (inr c, wd1) →
  c ≠ VNone →
  (∃ vd, validator w = Some vd ∧ vd c wd1 = (inl e, wd2)) ∨
  (∃ wdv pp,
     match validator w with
     | None => wdv = wd1
     | Some vd => ∃ ok, vd c wd1 = (inr ok, wdv) ∧ truthy ok = true
     end ∧
     post_processor w = Some pp ∧ pp c wdv = (inl e, wd2)) →
  let run := load (S fuel) self false seen_caches st in
  run.1 = Raise e ∧
  heap run.2 = <[self := with_contents c w]> (heap st) ∧
  world run.2 = wd2.
Proof.
  intros Hw Hguard Hld Hcall Hc Hraise. cbv zeta.
  rewrite (load_alone_run _ _ _ _ w) by done.
  unfold load_effect, post_process_effect. rewrite Hld, Hcall.
  destruct Hraise as [(vd & -> & ->)|(wdv & pp & Hvd & -> & Hpp)]; [by destruct c|].
  destruct (validator w) as [vd|].
  - destruct Hvd as (ok & -> & ->). rewrite Hpp. by destruct c.
  - subst wdv. rewrite Hpp. by destruct c.
Qed.

(** ** What the operations leave alone *)

#[local] Instance same_but_contents_preorder : PreOrder (same_but_contents (W := W)).
Proof.
  split.
  - by intros st.
  - intros st1 st2 st3 [H1 H2] [K1 K2]. split; [|congruence].
    intros o. by rewrite K1, H1.
Qed.

#[local] Instance others_same_preorder self : PreOrder (others_same (W := W) self).
Proof.
  split.
  - by intros st.
  - intros st1 st2 st3 H K o Ho. by rewrite K, H.
Qed.

Lemma preserves_but_contents_set_contents o c :
  preserves same_but_contents (set_contents o c).
Proof.
  intros st. unfold set_contents. destruct (heap st !! o) as [w|] eqn:Hw; simpl; [|done].
  split; [|done]. intros o'. simpl. destruct (decide (o = o')) as [<-|Hne].
  - by rewrite lookup_insert_eq, Hw.
  - by rewrite lookup_insert_ne.
Qed.

Lemma preserves_but_contents_call f : preserves same_but_contents (call f).
Proof. intros st. unfold call. by destruct (f (world st)) as [[e|v] wd]. Qed.

Lemma preserves_but_contents_emit ev : preserves same_but_contents (emit ev).
Proof. by intros st. Qed.

Lemma preserves_others_set_contents self c :
  preserves (others_same self) (set_contents self c).
Proof.
  intros st. unfold set_contents. destruct (heap st !! self) as [w|]; simpl; [|done].
  intros o Ho. simpl. by rewrite lookup_insert_ne.
Qed.

Lemma preserves_others_call self f : preserves (others_same self) (call f).
Proof. intros st. unfold call. by destruct (f (world st)) as [[e|v] wd]. Qed.

Lemma preserves_others_emit self ev : preserves (others_same self) (emit ev).
Proof. by intros st. Qed.

Lemma preserves_cascade_alone R `{!PreOrder R} {A} ord (g : A) body fuel self seen_caches :
  (∀ f, preserves R (body f self)) →
  preserves R (cascade ord g body fuel self false seen_caches).
Proof. intros Hb. destruct fuel as [|fuel]; simpl; preserves_walk. Qed.

(** The node-local actions on [self] keep every relation that the callbacks,
    the history and the assignments to the contents of [self] keep. *)
Section NodeLocal.

Context (R : relation state) `{!PreOrder R} (self : nat).
Context (Hcall : ∀ f, preserves R (call f)).
Context (Hemit : ∀ ev, preserves R (emit ev)).
Context (Hset : ∀ c, preserves R (set_contents self c)).

Lemma node_local_load_body : preserves R (load_body self).
Proof. unfold load_body. preserves_walk. Qed.

Lemma node_local_load fuel seen_caches : preserves R (load fuel self false seen_caches).
Proof.
  rewrite load_cascade. apply preserves_cascade_alone; [done|].
  intros. apply node_local_load_body.
Qed.

Lemma node_local_save fuel seen_caches : preserves R (save fuel self false seen_caches).
Proof.
  rewrite save_cascade. apply preserves_cascade_alone; [done|]. intros. preserves_walk.
Qed.

Lemma node_local_delete fuel seen_caches :
  preserves R (delete_saved_content fuel self false seen_caches).
Proof.
  rewrite delete_saved_content_cascade. apply preserves_cascade_alone; [done|].
  intros. preserves_walk.
Qed.

Lemma node_local_build fuel : preserves R (_build fuel self).
Proof.
  pose proof node_local_save as Hsave. unfold _build. preserves_walk.
Qed.

Lemma node_local_load_or_build_body fuel : preserves R (load_or_build_body fuel self).
Proof.
  pose proof node_local_load as Hload. pose proof node_local_build as Hbuild.
  unfold load_or_build_body. preserves_walk.
Qed.

Lemma node_local_invalidate_and_rebuild_body fuel :
  preserves R (invalidate_and_rebuild_body fuel self).
Proof.
  pose proof node_local_load as Hload. pose proof node_local_delete as Hdelete.
  pose proof node_local_build as Hbuild.
  unfold invalidate_and_rebuild_body, invalidate. preserves_walk.
Qed.

End NodeLocal.

(** X10. [save], cascading or not, changes no wrapper object: the contents
    in memory are what they were. *)
Theorem save_keeps_memory fuel self apply seen_caches st :
  heap (save (W := W) fuel self apply seen_caches st).2 = heap st.
Proof. apply (preserves_heap_save fuel self seen_caches apply st). Qed.

(** X11. Each of the six cascading operations, whatever its outcome, changes
    nothing of the wrapper objects but their contents: the same objects
    exist, each with its name, dependents, manager and callbacks, and the
    registries are the same. *)
Theorem operations_replace_contents_only :
  every_operation (λ R op,
    ∀ fuel self apply seen_caches (st : state),
      same_but_contents st (op fuel self apply seen_caches st).2).
Proof.
  assert (∀ {A} ord (g : A) body,
            (∀ f o, preserves same_but_contents (body f o)) →
            ∀ fuel self apply seen_caches st,
              same_but_contents st (cascade ord g body fuel self apply seen_caches st).2)
    as Hcascade.
  { intros A ord g body Hb fuel self apply seen_caches.
    exact (preserves_cascade same_but_contents ord g body fuel self apply seen_caches Hb). }
  pose proof preserves_but_contents_call as Hcall.
  pose proof preserves_but_contents_emit as Hemit.
  pose proof preserves_but_contents_set_contents as Hset.
  split; [|split; [|split; [|split; [|split]]]]; intros fuel.
  - rewrite load_cascade. apply Hcascade. intros. apply node_local_load_body; auto with typeclass_instances.
  - rewrite save_cascade. apply Hcascade. intros. preserves_walk.
  - rewrite invalidate_cascade. apply Hcascade. intros. apply node_local_load_body; auto with typeclass_instances.
  - rewrite delete_saved_content_cascade. apply Hcascade. intros. preserves_walk.
  - rewrite invalidate_and_rebuild_cascade. apply Hcascade. intros.
    apply node_local_invalidate_and_rebuild_body; auto with typeclass_instances.
  - rewrite load_or_build_cascade. apply Hcascade. intros.
    apply node_local_load_or_build_body; auto with typeclass_instances.
Qed.

(** X12. A call that does not cascade touches no wrapper object other than
    the one it is called on, for each of the six operations and whatever the
    outcome. *)
Theorem call_without_cascade_touches_self_only :
  every_operation (λ R op,
    ∀ fuel self seen_caches (st : state),
      others_same self st (op fuel self false seen_caches st).2).
Proof.
  assert (∀ self f, preserves (others_same self) (call f)) as Hcall
    by (intros; apply preserves_others_call).
  assert (∀ self ev, preserves (others_same self) (emit ev)) as Hemit
    by (intros; apply preserves_others_emit).
  pose proof preserves_others_set_contents as Hset.
  split; [|split; [|split; [|split; [|split]]]]; intros fuel self seen_caches.
  - apply node_local_load; auto with typeclass_instances.
  - apply node_local_save; auto with typeclass_instances.
  - apply node_local_load; auto with typeclass_instances.
  - apply node_local_delete; auto with typeclass_instances.
  - rewrite invalidate_and_rebuild_cascade. apply preserves_cascade_alone; [apply _|].
    intros. apply node_local_invalidate_and_rebuild_body; auto with typeclass_instances.
  - rewrite load_or_build_cascade. apply preserves_cascade_alone; [apply _|].
    intros. apply node_local_load_or_build_body; auto with typeclass_instances.
Qed.

(** ** The exact history of a node-local action *)

Lemma writes_quiet {A} self (c : M state A) : preserves same_log c → writes self [] c.
Proof.
  intros Hc st w a st' _ Hrun. specialize (Hc st). rewrite Hrun in Hc.
  simpl. by rewrite app_nil_r.
Qed.

Lemma writes_bind {A B} self a1 a2 (c : M state A) (k : A → M state B) :
  preserves same_shape c →
  writes self a1 c → (∀ x, writes self a2 (k x)) →
  writes self (a1 ++ a2) (c ≫= k).
Proof.
  intros Hs Hc Hk st w b st' Hw (a & st1 & Hrun1 & Hrun2)%bind_returns.
  specialize (Hs st). rewrite Hrun1 in Hs. simpl in Hs.
  pose proof (same_shape_name _ _ self Hs) as Hn. rewrite Hw in Hn.
  destruct (heap st1 !! self) as [w1|] eqn:Hw1; [|done]. injection Hn as Hn.
  rewrite (Hk a st1 w1 b st' Hw1 Hrun2), (Hc st w a st1 Hw Hrun1), Hn.
  by rewrite fmap_app, app_assoc.
Qed.

Lemma writes_announce {A} self a acts (k : CacheWrap → M state A) :
  (∀ w, writes self acts (k w)) →
  writes self (a :: acts) (w ← get_obj self; emit (Ev a (name w));; k w).
Proof.
  intros Hk st w b st' Hw Hrun.
  rewrite (bind_get_obj self w), run_emit in Hrun by done.
  rewrite (Hk w (add_log (Ev a (name w)) st) w b st' Hw Hrun). simpl.
  by rewrite <- app_assoc.
Qed.

Lemma writes_cascade_alone {A} ord (g : A) body fuel self acts :
  (∀ f, preserves same_shape (body f self)) →
  (∀ f, writes self acts (body f self)) →
  writes self acts (cascade ord g body fuel self false None).
Proof.
  intros Hs Hb st w [r s] st' Hw Hrun. destruct fuel as [|fuel]; [done|].
  cbn [cascade] in Hrun.
  rewrite (bind_get_obj self w) in Hrun by done. cbn [already_seen] in Hrun.
  rewrite (bind_add_seen self w) in Hrun by done.
  destruct ord.
  - rewrite run_ret in Hrun.
    apply bind_returns in Hrun as (r' & st1 & Hbody & Hret).
    injection Hret as <- <- <-. by apply (Hb fuel st w r').
  - apply bind_returns in Hrun as (r' & st1 & Hbody & Hret).
    rewrite run_ret in Hret. injection Hret as <- <- <-.
    by apply (Hb fuel st w r').
Qed.

Lemma writes_load_alone fuel self : writes self [ALoad] (load fuel self false None).
Proof.
  rewrite load_cascade. apply writes_cascade_alone; intros; [preserves_walk|].
  unfold load_body. apply writes_announce. intros w.
  apply writes_quiet. preserves_walk.
Qed.

Lemma writes_save_alone fuel self : writes self [ASave] (save fuel self false None).
Proof.
  rewrite save_cascade. apply writes_cascade_alone; intros; [preserves_walk|].
  unfold save_body. apply writes_announce. intros w.
  apply writes_quiet. preserves_walk.
Qed.

Lemma writes_delete_alone fuel self :
  writes self [ADelete] (delete_saved_content fuel self false None).
Proof.
  rewrite delete_saved_content_cascade.
  apply writes_cascade_alone; intros; [preserves_walk|].
  unfold delete_body. apply writes_announce. intros w.
  apply writes_quiet. preserves_walk.
Qed.

Lemma writes_build fuel self : writes self [ABuild; ASave] (_build fuel self).
Proof.
  unfold _build. apply (writes_announce self ABuild [ASave]). intros w.
  apply (writes_bind self [] [ASave]); [preserves_walk | apply writes_quiet; preserves_walk|].
  intros c.
  apply (writes_bind self [] [ASave]); [preserves_walk | apply writes_quiet; preserves_walk|].
  intros _.
  apply (writes_bind self [ASave] []).
  - rewrite save_cascade. preserves_walk.
  - apply writes_save_alone.
  - intros r. apply writes_quiet. preserves_walk.
Qed.

Lemma writes_invalidate_and_rebuild_body fuel self :
  writes self [ALoad; ADelete; ABuild; ASave] (invalidate_and_rebuild_body fuel self).
Proof.
  unfold invalidate_and_rebuild_body, invalidate.
  apply (writes_bind self [ALoad] [ADelete; ABuild; ASave]).
  - rewrite load_cascade. preserves_walk.
  - apply writes_load_alone.
  - intros _. apply (writes_bind self [ADelete] [ABuild; ASave]).
    + rewrite delete_saved_content_cascade. preserves_walk.
    + apply writes_delete_alone.
    + intros _. apply (writes_bind self [ABuild; ASave] []).
      * preserves_walk.
      * apply writes_build.
      * intros _. apply writes_quiet. preserves_walk.
Qed.

Lemma own_entries_own n l : (∀ ev, ev ∈ l → ev_name ev = n) → own_entries n l = l.
Proof.
  intros H. unfold own_entries. induction l as [|ev l IH]; [done|].
  rewrite filter_cons_True by (apply H; left). f_equal. apply IH.
  intros ev' Hin. apply H. by right.
Qed.

Lemma own_entries_others n l : (∀ ev, ev ∈ l → ev_name ev ≠ n) → own_entries n l = [].
Proof.
  intros H. unfold own_entries. induction l as [|ev l IH]; [done|].
  rewrite filter_cons_False by (apply H; left). apply IH.
  intros ev' Hin. apply H. by right.
Qed.

Lemma own_entries_app n l1 l2 :
  own_entries n (l1 ++ l2) = own_entries n l1 ++ own_entries n l2.
Proof. apply filter_app. Qed.

Lemma own_entries_actions n (acts : list action) :
  own_entries n ((λ x, Ev x n) <$> acts) = (λ x, Ev x n) <$> acts.
Proof. apply own_entries_own. by intros ev (x & -> & _)%list_elem_of_fmap. Qed.

(** A cascading call that returns, taken apart: the run of the node-local
    action, and the entries the visits of the dependents wrote. *)
Lemma cascade_returns_inv {A} ord (g : A) body must allowed fuel self apply seen_caches
    st w r s' st' :
  (∀ f o, preserves same_shape (body f o)) →
  (∀ f o, acts_on o must allowed (body f o)) →
  heap st !! self = Some w →
  already_seen (name w) seen_caches = false →
  cascade ord g body (S fuel) self apply seen_caches st = (Return (r, s'), st') →
  ∃ st_a st_b l_deps,
    body fuel self st_a = (Return r, st_b) ∧
    same_shape st st_a ∧
    (∀ ev, ev ∈ l_deps → ev_name ev ≠ name w) ∧
    match ord with
    | DependentsFirst => log st_a = log st ++ l_deps ∧ st_b = st'
    | SelfFirst => st_a = st ∧ log st' = log st_b ++ l_deps
    end.
Proof.
  intros Hshape Hacts Hw Hguard Hrun. cbn [cascade] in Hrun.
  rewrite (bind_get_obj self w), Hguard, (bind_add_seen self w) in Hrun by done.
  set (seen1 := {[name w]} ∪ default ∅ seen_caches) in *.
  assert (∀ st0, visit_post id seen1 st0
            ((if apply
              then for_dependent_caches
                     (λ o s, r ← cascade ord g body fuel o apply (Some s); ret r.2)
                     (manager w) (dependents w) seen1
              else ret seen1) st0)) as Hloop.
  { intros st0. destruct apply.
    - apply visit_post_loop. intros.
      by apply visit_post_result, (visit_post_cascade ord g body must allowed).
    - by apply visit_post_nothing; intros a [= <-]. }
  assert (preserves same_shape
            (if apply
             then for_dependent_caches
                    (λ o s, r ← cascade ord g body fuel o apply (Some s); ret r.2)
                    (manager w) (dependents w) seen1
             else ret seen1)) as Hloop_shape.
  { destruct apply; [|preserves_walk].
    apply preserves_for_dependent_caches; [apply _|]. intros. preserves_walk. }
  assert (∀ l, (∀ ev, ev ∈ l → ev_name ev ∉ seen1) →
               ∀ ev, ev ∈ l → ev_name ev ≠ name w) as Hother.
  { intros l Hout ev Hin Heq. apply (Hout ev Hin). rewrite Heq.
    apply elem_of_union. left. by apply elem_of_singleton. }
  destruct ord.
  - apply bind_returns in Hrun as (seen2 & st1 & Hrun1 & Hrun2).
    apply bind_returns in Hrun2 as (r' & st2 & Hbody & Hret).
    injection Hret as <- <- <-.
    specialize (Hloop st). specialize (Hloop_shape st). rewrite Hrun1 in Hloop, Hloop_shape.
    destruct Hloop as (l & Hl & _ & Hout & _). simpl in *.
    exists st1, st2, l. split; [done|]. split; [done|]. split; [by apply Hother|]. done.
  - apply bind_returns in Hrun as (r' & st1 & Hbody & Hrun2).
    apply bind_returns in Hrun2 as (seen2 & st2 & Hrun2 & Hret).
    injection Hret as <- <- <-.
    specialize (Hloop st1). rewrite Hrun2 in Hloop.
    destruct Hloop as (l & Hl & _ & Hout & _). simpl in *.
    exists st, st1, l. split; [done|]. split; [done|]. split; [by apply Hother|]. done.
Qed.

Lemma writes_load_body self : writes self [ALoad] (load_body self).
Proof.
  unfold load_body. apply writes_announce. intros w. apply writes_quiet. preserves_walk.
Qed.

Lemma writes_save_body self : writes self [ASave] (save_body self).
Proof.
  unfold save_body. apply writes_announce. intros w. apply writes_quiet. preserves_walk.
Qed.

Lemma writes_delete_body self : writes self [ADelete] (delete_body self).
Proof.
  unfold delete_body. apply writes_announce. intros w. apply writes_quiet. preserves_walk.
Qed.

Lemma same_shape_lookup st st' self w :
  same_shape st st' → heap st !! self = Some w →
  ∃ w', heap st' !! self = Some w' ∧ name w' = name w.
Proof.
  intros Hs Hw. pose proof (same_shape_name _ _ self Hs) as Hn. rewrite Hw in Hn.
  destruct (heap st' !! self) as [w'|]; [|done]. injection Hn as Hn. eauto.
Qed.

Lemma cascade_own_entries {A} ord (g : A) body must allowed acts fuel self apply
    seen_caches st w r s' st' :
  (∀ f o, preserves same_shape (body f o)) →
  (∀ f o, acts_on o must allowed (body f o)) →
  (∀ f o, writes o acts (body f o)) →
  heap st !! self = Some w →
  already_seen (name w) seen_caches = false →
  cascade ord g body (S fuel) self apply seen_caches st = (Return (r, s'), st') →
  own_entries (name w) (log_since st st') = (λ x, Ev x (name w)) <$> acts.
Proof.
  intros Hshape Hacts Hwrites Hw Hguard Hrun.
  destruct (cascade_returns_inv ord g body must allowed fuel self apply seen_caches
              st w r s' st' Hshape Hacts Hw Hguard Hrun)
    as (st_a & st_b & l_deps & Hbody & Hs & Hother & Hord).
  destruct (same_shape_lookup _ _ _ _ Hs Hw) as (wa & Hwa & Hna).
  pose proof (Hwrites fuel self st_a wa r st_b Hwa Hbody) as Hl. rewrite Hna in Hl.
  destruct ord.
  - destruct Hord as [Hla ->].
    rewrite (log_since_app st st' (l_deps ++ ((λ x, Ev x (name w)) <$> acts)))
      by (by rewrite Hl, Hla, app_assoc).
    by rewrite own_entries_app, (own_entries_others _ l_deps), own_entries_actions.
  - destruct Hord as [-> Hlb].
    rewrite (log_since_app st st' (((λ x, Ev x (name w)) <$> acts) ++ l_deps))
      by (by rewrite Hlb, Hl, app_assoc).
    by rewrite own_entries_app, (own_entries_others _ l_deps), own_entries_actions,
         app_nil_r.
Qed.

(** X13. A call of [load], [save], [invalidate] or [delete_saved_content]
    that returns, on a wrapper not seen before, has performed its node-local
    action on that wrapper exactly once; [invalidate_and_rebuild] has
    performed load, delete, build and the build's save, once each and in
    this order. *)
Theorem own_history_of_operations fuel self apply seen_caches (st : state) w :
  heap st !! self = Some w →
  already_seen (name w) seen_caches = false →
  let n := name w in
  (∀ r st', load (S fuel) self apply seen_caches st = (Return r, st') →
            own_entries n (log_since st st') = [Ev ALoad n]) ∧
  (∀ r st', save (S fuel) self apply seen_caches st = (Return r, st') →
            own_entries n (log_since st st') = [Ev ASave n]) ∧
  (∀ r st', invalidate (S fuel) self apply seen_caches st = (Return r, st') →
            own_entries n (log_since st st') = [Ev ALoad n]) ∧
  (∀ r st', delete_saved_content (S fuel) self apply seen_caches st = (Return r, st') →
            own_entries n (log_since st st') = [Ev ADelete n]) ∧
  (∀ r st', invalidate_and_rebuild (S fuel) self apply seen_caches st = (Return r, st') →
            own_entries n (log_since st st') =
            [Ev ALoad n; Ev ADelete n; Ev ABuild n; Ev ASave n]).
Proof.
  intros Hw Hguard n.
  assert (∀ (f o : nat), preserves same_shape (load_body o)) as Hpres_load
    by (intros; preserves_walk).
  assert (∀ (f o : nat), preserves same_shape (save_body o)) as Hpres_save
    by (intros; preserves_walk).
  assert (∀ (f o : nat), preserves same_shape (delete_body o)) as Hpres_delete
    by (intros; preserves_walk).
  split; [|split; [|split; [|split]]]; intros [r s'] st' Hrun.
  - rewrite load_cascade in Hrun.
    apply (cascade_own_entries _ _ _ [ALoad] [ALoad] [ALoad] _ _ _ _ _ _ _ _ _
             Hpres_load (λ _ o, acts_on_load_body o)
             (λ _ o, writes_load_body o) Hw Hguard Hrun).
  - rewrite save_cascade in Hrun.
    apply (cascade_own_entries _ _ _ [ASave] [ASave] [ASave] _ _ _ _ _ _ _ _ _
             Hpres_save (λ _ o, acts_on_save_body o)
             (λ _ o, writes_save_body o) Hw Hguard Hrun).
  - rewrite invalidate_cascade in Hrun.
    apply (cascade_own_entries _ _ _ [ALoad] [ALoad] [ALoad] _ _ _ _ _ _ _ _ _
             Hpres_load (λ _ o, acts_on_load_body o)
             (λ _ o, writes_load_body o) Hw Hguard Hrun).
  - rewrite delete_saved_content_cascade in Hrun.
    apply (cascade_own_entries _ _ _ [ADelete] [ADelete] [ADelete] _ _ _ _ _ _ _ _ _
             Hpres_delete (λ _ o, acts_on_delete_body o)
             (λ _ o, writes_delete_body o) Hw Hguard Hrun).
  - rewrite invalidate_and_rebuild_cascade in Hrun.
    apply (cascade_own_entries _ _ _ _ _ [ALoad; ADelete; ABuild; ASave] _ _ _ _ _ _ _ _ _
             preserves_shape_invalidate_and_rebuild_body
             acts_on_invalidate_and_rebuild_body
             writes_invalidate_and_rebuild_body Hw Hguard Hrun).
Qed.

(** ** [load_or_build] *)

Lemma load_effect_returns w wd v :
  (load_effect w wd).1.1 = Return v → (load_effect w wd).1.2 = v.
Proof.
  unfold load_effect, post_process_effect.
  repeat match goal with
         | |- context [match ?x with _ => _ end] => destruct x; simpl
         end; congruence.
Qed.

Lemma build_returns_contents fuel self st w v st' :
  heap st !! self = Some w →
  _build fuel self st = (Return v, st') →
  contents <$> heap st' !! self = Some v.
Proof.
  intros Hw Hrun. unfold _build in Hrun.
  rewrite (bind_get_obj self w), run_emit in Hrun by done.
  apply bind_returns in Hrun as (c & st1 & Hc & Hrun).
  assert (heap st1 = heap st) as Hheap1.
  { assert (preserves same_heap
              (match builder w with
               | Some bd => c ← call (bd (name w)); _post_process self c
               | None => _post_process self dict_loader
               end)) as Hp by preserves_walk.
    specialize (Hp (add_log (Ev ABuild (name w)) st)). by rewrite Hc in Hp. }
  rewrite (run_set_contents self w) in Hrun by (by rewrite Hheap1).
  apply bind_returns in Hrun as (x & st2 & Hsave & Hrun).
  pose proof (preserves_heap_save fuel self None false
                (set_heap (<[self:=with_contents c w]> (heap st1)) st1)) as Hheap2.
  rewrite Hsave in Hheap2. unfold same_heap in Hheap2. simpl in Hheap2.
  rewrite (bind_get_obj self (with_contents c w)) in Hrun
    by (by rewrite Hheap2, lookup_insert_eq).
  injection Hrun as <- <-. by rewrite Hheap2, lookup_insert_eq.
Qed.

Lemma load_or_build_returns fuel self apply seen_caches (st : state) w r s' st' :
  heap st !! self = Some w →
  already_seen (name w) seen_caches = false →
  load_or_build (S fuel) self apply seen_caches st = (Return (r, s'), st') →
  ∃ loaded c,
    r = Some (loaded, c) ∧
    contents <$> heap st' !! self = Some c ∧
    (loaded = true → c ≠ VNone) ∧
    own_entries (name w) (log_since st st') =
      if loaded then [Ev ALoad (name w)]
      else [Ev ALoad (name w); Ev ABuild (name w); Ev ASave (name w)].
Proof.
  intros Hw Hguard Hrun. rewrite load_or_build_cascade in Hrun.
  destruct (cascade_returns_inv _ _ _ _ _ _ _ _ _ _ _ _ _ _
              preserves_shape_load_or_build_body acts_on_load_or_build_body
              Hw Hguard Hrun)
    as (st_a & st_b & l_deps & Hbody & Hs & Hother & Hla & ->).
  destruct (same_shape_lookup _ _ _ _ Hs Hw) as (wa & Hwa & Hna).
  unfold load_or_build_body in Hbody.
  apply bind_returns in Hbody as ([v s] & st1 & Hload & Hbody).
  pose proof (writes_load_alone fuel self st_a wa _ st1 Hwa Hload) as Hl1.
  destruct fuel as [|fuel]; [done|].
  rewrite (load_alone_run _ _ _ _ wa) in Hload by done.
  destruct (load_effect wa (world st_a)).1.1 as [v'| | |] eqn:Heff; try done.
  apply load_effect_returns in Heff. injection Hload as -> _ <-.
  simpl in Hbody, Hl1.
  set (st1 := acted ALoad self wa (load_effect wa (world st_a)).1.2
                    (load_effect wa (world st_a)).2 st_a) in *.
  assert (heap st1 !! self = Some (with_contents v wa)) as Hw1
    by (subst st1; simpl; by rewrite Heff, lookup_insert_eq).
  apply bind_returns in Hbody as (x & st2 & Hif & Hbody).
  apply bind_returns in Hbody as (w2 & st3 & Hget & Hret).
  unfold get_obj in Hget. destruct (heap st2 !! self) as [w2'|] eqn:Hw2; [|done].
  injection Hget as -> ->. injection Hret as <- <-.
  exists (negb (is_None v)), (contents w2).
  split; [done|]. split; [by rewrite Hw2|].
  assert (log st1 = log st ++ l_deps ++ [Ev ALoad (name w)]) as Hlog1.
  { subst st1. simpl. by rewrite Hla, Hna, <- app_assoc. }
  clearbody st1.
  destruct (is_None v) eqn:Hnone; simpl in *.
  - pose proof (writes_build (S fuel) self st1 _ x st3 Hw1 Hif) as Hl2.
    simpl in Hl2. rewrite Hna in Hl2.
    split; [done|].
    rewrite (log_since_app st st3
               (l_deps ++ [Ev ALoad (name w); Ev ABuild (name w); Ev ASave (name w)])).
    + rewrite own_entries_app, (own_entries_others _ l_deps) by done.
      apply (own_entries_actions (name w) [ALoad; ABuild; ASave]).
    + rewrite Hl2, Hlog1. by rewrite <- !app_assoc.
  - injection Hif as _ <-. rewrite Hw1 in Hw2. injection Hw2 as <-. simpl.
    split; [by intros _ ->|].
    rewrite (log_since_app st st1 (l_deps ++ [Ev ALoad (name w)])) by done.
    rewrite own_entries_app, (own_entries_others _ l_deps) by done.
    apply (own_entries_actions (name w) [ALoad]).
Qed.

(** X14. [load_or_build], when it returns on a wrapper not seen before, gives
    the pair of [loaded] and the contents the wrapper then holds.  When
    [loaded] is true the node was loaded once, not built, and the contents
    are present; when it is false the node was loaded once, then built and
    saved once. *)
Theorem load_or_build_result fuel self apply seen_caches (st : state) w r s' st' :
  heap st !! self = Some w →
  already_seen (name w) seen_caches = false →
  load_or_build (S fuel) self apply seen_caches st = (Return (r, s'), st') →
  ∃ loaded c,
    r = Some (loaded, c) ∧
    contents <$> heap st' !! self = Some c ∧
    (loaded = true → c ≠ VNone) ∧
    own_entries (name w) (log_since st st') =
      if loaded then [Ev ALoad (name w)]
      else [Ev ALoad (name w); Ev ABuild (name w); Ev ASave (name w)].
Proof. apply load_or_build_returns. Qed.

(** ** What [_build] hands to the saver *)

(** X15. [_build] saves what it has just built: when it returns [v] on a
    wrapper with a saver, the last callback that ran is the saver, called on
    the name of the cache and on [v] passed through the pre-processor ([v]
    itself when there is none). *)
Theorem build_saves_what_it_built fuel self (st : state) w v st' sv :
  heap st !! self = Some w →
  saver w = Some sv →
  _build fuel self st = (Return v, st') →
  ∃ p wd1 wd2 r,
    match pre_processor w with
    | Some f => f v wd1 = (inr p, wd2)
    | None => p = v ∧ wd2 = wd1
    end ∧
    sv (name w) p wd2 = (inr r, world st').
Proof.
  intros Hw Hsv Hrun. unfold _build in Hrun.
  rewrite (bind_get_obj self w), run_emit in Hrun by done.
  apply bind_returns in Hrun as (c & st1 & Hc & Hrun).
  assert (heap st1 = heap st) as Hheap1.
  { assert (preserves same_heap
              (match builder w with
               | Some bd => c ← call (bd (name w)); _post_process self c
               | None => _post_process self dict_loader
               end)) as Hp by preserves_walk.
    specialize (Hp (add_log (Ev ABuild (name w)) st)). by rewrite Hc in Hp. }
  rewrite (run_set_contents self w) in Hrun by (by rewrite Hheap1).
  set (w1 := with_contents c w) in *.
  set (stA := set_heap (<[self:=w1]> (heap st1)) st1) in *.
  assert (heap stA !! self = Some w1) as HwA by apply lookup_insert_eq.
  apply bind_returns in Hrun as (x & st2 & Hsave & Hrun).
  pose proof (preserves_heap_save fuel self None false stA) as Hheap2.
  rewrite Hsave in Hheap2. unfold same_heap in Hheap2. simpl in Hheap2.
  rewrite (bind_get_obj self w1) in Hrun by (by rewrite Hheap2).
  injection Hrun as <- <-.
  destruct fuel as [|fuel]; [done|].
  rewrite save_cascade, (cascade_alone_run _ _ _ _ _ _ w1) in Hsave by done.
  apply bind_returns in Hsave as (r0 & stB & Hbody & Hret).
  injection Hret as _ <-.
  unfold save_body in Hbody. rewrite (bind_get_obj self w1), run_emit in Hbody by done.
  apply bind_returns in Hbody as (p & stC & Hpre & Hbody).
  unfold _pre_process in Hpre. rewrite (bind_get_obj self w1) in Hpre by done.
  change (saver w1) with (saver w) in Hbody. rewrite Hsv in Hbody.
  apply bind_returns in Hbody as (r & stD & Hcall & Hret).
  injection Hret as _ <-.
  apply call_returns_state in Hcall as (wd' & Hcall & ->).
  change (name w1) with (name w) in Hcall.
  change (pre_processor w1) with (pre_processor w) in Hpre.
  change (contents w1) with c in *.
  destruct (pre_processor w) as [f|].
  - apply call_returns_state in Hpre as (wd & Hpre & ->).
    exists p, (world (add_log (Ev ASave (name w)) stA)), wd, r. by split.
  - injection Hpre as <- <-.
    exists c, (world (add_log (Ev ASave (name w)) stA)),
           (world (add_log (Ev ASave (name w)) stA)), r.
    by split.
Qed.

(** ** Dependents that are not visited *)

Lemma loop_skips visit mgr ds seen st :
  (∀ d, d ∈ ds → d ∈ seen ∨ cache_by_name st mgr !! d = None) →
  for_dependent_caches visit mgr ds seen st = (Return seen, st).
Proof.
  induction ds as [|d ds IH]; intros H; simpl; [done|].
  assert (for_dependent_caches visit mgr ds seen st = (Return seen, st)) as Hrest.
  { apply IH. intros d' Hin. apply H. by right. }
  case_bool_decide; [done|].
  rewrite bind_run. simpl.
  destruct (H d) as [Hin|Hnone]; [by left | done |]. by rewrite Hnone.
Qed.

Lemma cascade_skips {A} ord (g : A) body fuel self seen_caches st w :
  (∀ f o, preserves same_shape (body f o)) →
  heap st !! self = Some w →
  already_seen (name w) seen_caches = false →
  (∀ d, d ∈ dependents w →
        d = name w ∨ d ∈ default ∅ seen_caches ∨
        cache_by_name st (manager w) !! d = None) →
  cascade ord g body (S fuel) self true seen_caches st =
  cascade ord g body (S fuel) self false seen_caches st.
Proof.
  intros Hshape Hw Hguard Hskip. cbn [cascade].
  rewrite !(bind_get_obj self w), Hguard, !(bind_add_seen self w) by done.
  assert (∀ st1, cache_by_name st1 = cache_by_name st →
            for_dependent_caches
              (λ o s, r ← cascade ord g body fuel o true (Some s); ret r.2)
              (manager w) (dependents w) ({[name w]} ∪ default ∅ seen_caches) st1 =
            (Return ({[name w]} ∪ default ∅ seen_caches), st1)) as Hloop.
  { intros st1 Hreg. apply loop_skips. intros d Hin. rewrite Hreg.
    destruct (Hskip d Hin) as [->|[Hseen|Hnone]]; [left|left|by right].
    - apply elem_of_union. left. by apply elem_of_singleton.
    - apply elem_of_union. by right. }
  destruct ord.
  - by rewrite bind_run, Hloop.
  - rewrite !bind_run. pose proof (Hshape fuel self st) as [_ Hreg].
    destruct (body fuel self st) as [[r|e| |] st1]; [|done..].
    by rewrite !bind_run, Hloop.
Qed.

(** X16. For each of the six operations: when every dependent of the wrapper
    is its own name, a name seen already, or a name that is not registered,
    the cascading call does what the call without cascade does; unregistered
    dependents are passed over without an error. *)
Theorem unresolved_dependents_are_skipped :
  every_operation (λ R op, skips_dependents (W := W) op).
Proof.
  split; [|split; [|split; [|split; [|split]]]]; intros fuel self seen_caches st w.
  - rewrite load_cascade. apply cascade_skips. intros. preserves_walk.
  - rewrite save_cascade. apply cascade_skips. intros. preserves_walk.
  - rewrite invalidate_cascade. apply cascade_skips. intros. preserves_walk.
  - rewrite delete_saved_content_cascade. apply cascade_skips. intros. preserves_walk.
  - rewrite invalidate_and_rebuild_cascade. apply cascade_skips.
    apply preserves_shape_invalidate_and_rebuild_body.
  - rewrite load_or_build_cascade. apply cascade_skips.
    apply preserves_shape_load_or_build_body.
Qed.

(** ** Dependents that are visited *)

Local Abbreviation visit_complete := (visit_complete (W := W)).

Lemma log_since_elem st st1 st2 l1 l2 ev :
  log st1 = log st ++ l1 → log st2 = log st1 ++ l2 →
  ev ∈ log_since st st1 ∨ ev ∈ log_since st1 st2 → ev ∈ log_since st st2.
Proof.
  intros H1 H2 Hin.
  rewrite (log_since_app st st1 l1 H1), (log_since_app st1 st2 l2 H2) in Hin.
  rewrite (log_since_app st st2 (l1 ++ l2)) by (by rewrite H2, H1, app_assoc).
  by apply elem_of_app.
Qed.

Lemma visit_complete_loop visit mgr must ds seen st :
  (∀ o s st', visit_post id s st' (visit o s st')) →
  (∀ o s st', visit_complete id must s st' (visit o s st')) →
  visit_complete id must seen st (for_dependent_caches visit mgr ds seen st).
Proof.
  intros Hpost Hcomplete. revert seen st.
  induction ds as [|d ds IH]; intros seen st a Hrun n Hin Hout x Hx; simpl in *.
  { injection Hrun as <-. done. }
  destruct (bool_decide (d ∈ seen)); [by apply (IH seen st a)|].
  rewrite bind_run in Hrun |- *. simpl in Hrun |- *.
  destruct (cache_by_name st mgr !! d) as [o|]; [|by apply (IH seen st a)].
  rewrite bind_run in Hrun |- *.
  pose proof (Hpost o seen st) as (l1 & Hl1 & _ & _ & _).
  specialize (Hcomplete o seen st).
  destruct (visit o seen st) as [[seen1|e| |] st1]; [|done..]. simpl in *.
  pose proof (visit_post_loop visit mgr ds seen1 st1 Hpost) as (l2 & Hl2 & _ & _ & _).
  apply (log_since_elem st st1 _ l1 l2); [done..|].
  destruct (decide (n ∈ seen1)) as [Hin1|Hout1].
  - left. by apply (Hcomplete seen1).
  - right. by apply (IH seen1 st1 a).
Qed.

Lemma visit_complete_result {A} (c : M state (A * gset string)) must seen st :
  visit_complete snd must seen st (c st) →
  visit_complete id must seen st ((r ← c; ret r.2) st).
Proof.
  intros Hc a Hrun. rewrite bind_run in Hrun |- *.
  destruct (c st) as [[[a' s1]|e| |] st1]; [|done..]. simpl in *.
  injection Hrun as <-. by apply (Hc (a', s1)).
Qed.

Lemma visit_complete_cascade {A} ord (g : A) body must allowed :
  (∀ f o, preserves same_shape (body f o)) →
  (∀ f o, acts_on o must allowed (body f o)) →
  ∀ fuel self apply seen_caches st,
    visit_complete snd must (default ∅ seen_caches) st
      (cascade ord g body fuel self apply seen_caches st).
Proof.
  intros Hshape Hacts fuel.
  induction fuel as [|fuel IH]; intros self apply seen_caches st [r s'] Hrun n Hin Hout x Hx;
    [done|]. simpl in Hin.
  destruct (cascade ord g body (S fuel) self apply seen_caches st) as [out st'] eqn:Hcas.
  simpl in Hrun. subst out. simpl.
  destruct (heap st !! self) as [w|] eqn:Hw;
    [|cbn [cascade] in Hcas; rewrite bind_run in Hcas; unfold get_obj in Hcas;
      by rewrite Hw in Hcas].
  destruct (already_seen (name w) seen_caches) eqn:Hguard.
  { cbn [cascade] in Hcas. rewrite (bind_get_obj self w), Hguard in Hcas by done.
    injection Hcas as _ <- _. done. }
  cbn [cascade] in Hcas.
  rewrite (bind_get_obj self w), Hguard, (bind_add_seen self w) in Hcas by done.
  set (seen1 := {[name w]} ∪ default ∅ seen_caches) in *.
  set (loop := if apply then _ else _) in Hcas.
  assert (∀ st0, visit_post id seen1 st0 (loop st0)) as Hloop_post.
  { intros st0. subst loop. destruct apply.
    - apply visit_post_loop. intros.
      by apply visit_post_result, (visit_post_cascade ord g body must allowed).
    - by apply visit_post_nothing; intros a [= <-]. }
  assert (∀ st0, visit_complete id must seen1 st0 (loop st0)) as Hloop_complete.
  { intros st0. subst loop. destruct apply.
    - apply visit_complete_loop.
      + intros. by apply visit_post_result, (visit_post_cascade ord g body must allowed).
      + intros o s st1. apply visit_complete_result. apply (IH o true (Some s) st1).
    - intros a [= <-] n' Hn' Hn''. done. }
  assert (preserves same_shape loop) as Hloop_shape.
  { subst loop. destruct apply; [|preserves_walk].
    apply preserves_for_dependent_caches; [apply _|]. intros. preserves_walk. }
  assert (∀ st0 r0 st1,
            same_shape st st0 → body fuel self st0 = (Return r0, st1) →
            ∃ l, log st1 = log st0 ++ l ∧ Ev x (name w) ∈ l) as Hown.
  { intros st0 r0 st1 Hs Hbody.
    destruct (Hacts fuel self st0) as (l & Hl & _ & Hev & Hmust).
    rewrite Hbody in Hl, Hmust. simpl in *. exists l. split; [done|].
    assert (x ∈ ev_action <$> l) as (ev & -> & Hev_in)%list_elem_of_fmap
      by (by apply Hmust).
    destruct (Hev ev Hev_in) as [Hn _].
    rewrite (same_shape_name _ _ _ Hs), Hw in Hn. injection Hn as Hn.
    destruct ev as [a' n']. simpl in *. by subst. }
  clearbody loop.
  destruct ord.
  - apply bind_returns in Hcas as (seen2 & st1 & Hrun1 & Hrun2).
    apply bind_returns in Hrun2 as (r' & st2 & Hbody & Hret).
    injection Hret as <- <- <-.
    specialize (Hloop_post st). specialize (Hloop_complete st).
    specialize (Hloop_shape st). rewrite Hrun1 in Hloop_post, Hloop_complete, Hloop_shape.
    destruct Hloop_post as (l1 & Hl1 & _). simpl in *.
    destruct (Hown st1 r' st2 Hloop_shape Hbody) as (l2 & Hl2 & Hin2).
    apply (log_since_elem st st1 st2 l1 l2); [done..|].
    destruct (decide (n = name w)) as [->|Hne].
    + right. by rewrite (log_since_app _ _ l2 Hl2).
    + left. apply (Hloop_complete seen2); [done|done| |done].
      intros [Hn|Hn]%elem_of_union; [|done]. by apply elem_of_singleton in Hn.
  - apply bind_returns in Hcas as (r' & st1 & Hbody & Hrun2).
    apply bind_returns in Hrun2 as (seen2 & st2 & Hrun2 & Hret).
    injection Hret as <- <- <-.
    specialize (Hloop_post st1). specialize (Hloop_complete st1).
    rewrite Hrun2 in Hloop_post, Hloop_complete.
    destruct Hloop_post as (l1 & Hl1 & _). simpl in *.
    destruct (Hown st r' st1 (reflexivity _) Hbody) as (l2 & Hl2 & Hin2).
    apply (log_since_elem st st1 st2 l2 l1); [done..|].
    destruct (decide (n = name w)) as [->|Hne].
    + left. by rewrite (log_since_app _ _ l2 Hl2).
    + right. apply (Hloop_complete seen2); [done|done| |done].
      intros [Hn|Hn]%elem_of_union; [|done]. by apply elem_of_singleton in Hn.
Qed.

Lemma cascade_adds_own_name {A} ord (g : A) body must allowed fuel self apply seen_caches
    st w r s' st' :
  (∀ f o, preserves same_shape (body f o)) →
  (∀ f o, acts_on o must allowed (body f o)) →
  heap st !! self = Some w →
  cascade ord g body fuel self apply seen_caches st = (Return (r, s'), st') →
  name w ∈ s'.
Proof.
  intros Hshape Hacts Hw Hrun. destruct fuel as [|fuel]; [done|].
  destruct (already_seen (name w) seen_caches) eqn:Hguard.
  - cbn [cascade] in Hrun. rewrite (bind_get_obj self w), Hguard in Hrun by done.
    injection Hrun as _ <- _. by apply already_seen_spec.
  - destruct (cascade_split_holds ord g body must allowed fuel self apply seen_caches
                st w Hshape Hacts Hw Hguard) as (l1 & l2 & _ & _ & _ & _ & _ & Hret).
    rewrite Hrun in Hret. destruct (Hret (r, s') eq_refl) as (Hsub & _).
    apply Hsub. apply elem_of_union. left. by apply elem_of_singleton.
Qed.

Lemma loop_reaches {A} ord (g : A) body must allowed fuel apply mgr ds seen st seen' st' :
  (∀ f o, preserves same_shape (body f o)) →
  (∀ f o, acts_on o must allowed (body f o)) →
  for_dependent_caches (λ o s, r ← cascade ord g body fuel o apply (Some s); ret r.2)
    mgr ds seen st = (Return seen', st') →
  ∀ d o w', d ∈ ds → cache_by_name st mgr !! d = Some o → heap st !! o = Some w' →
            d ∈ seen' ∨ name w' ∈ seen'.
Proof.
  intros Hshape Hacts. revert seen st.
  induction ds as [|d0 ds IH]; intros seen st Hrun d o w' Hin Ho Hw';
    [by apply elem_of_nil in Hin|].
  set (visit := λ o s, r ← cascade ord g body fuel o apply (Some s); ret r.2) in *.
  assert (∀ o s st0, visit_post id s st0 (visit o s st0)) as Hpost.
  { intros o1 s st0. unfold visit.
    by apply visit_post_result, (visit_post_cascade ord g body must allowed). }
  assert (∀ s st0 s1 st1,
            for_dependent_caches visit mgr ds s st0 = (Return s1, st1) → s ⊆ s1) as Hmono.
  { intros s st0 s1 st1 Hr.
    pose proof (visit_post_loop visit mgr ds s st0 Hpost) as (l & _ & _ & _ & Hret).
    rewrite Hr in Hret. by destruct (Hret s1 eq_refl). }
  simpl in Hrun.
  destruct (bool_decide (d0 ∈ seen)) eqn:Hseen.
  { apply bool_decide_eq_true in Hseen.
    apply elem_of_cons in Hin as [->|Hin]; [|by apply (IH seen st Hrun d o w')].
    left. by apply (Hmono _ _ _ _ Hrun). }
  rewrite bind_run in Hrun. simpl in Hrun.
  destruct (cache_by_name st mgr !! d0) as [o0|] eqn:Ho0.
  2:{ apply elem_of_cons in Hin as [->|Hin]; [congruence|].
      by apply (IH seen st Hrun d o w'). }
  apply bind_returns in Hrun as (seen1 & st1 & Hvisit & Hrest).
  assert (same_shape st st1) as Hs.
  { assert (preserves same_shape (visit o0 seen)) as Hp by (subst visit; preserves_walk).
    specialize (Hp st). by rewrite Hvisit in Hp. }
  apply elem_of_cons in Hin as [->|Hin].
  - right. apply (Hmono _ _ _ _ Hrest).
    assert (o0 = o) as -> by congruence.
    subst visit. apply bind_returns in Hvisit as ([r s1] & st2 & Hcas & Hret).
    injection Hret as <- <-.
    by apply (cascade_adds_own_name ord g body must allowed fuel o apply (Some seen)
                st w' r s1 st2).
  - destruct (same_shape_lookup _ _ _ _ Hs Hw') as (w1 & Hw1 & Hn1).
    rewrite <- Hn1. apply (IH seen1 st1 Hrest d o w1); [done| |done].
    destruct Hs as [_ Hreg]. by rewrite Hreg.
Qed.

Lemma cascade_reaches_dependents {A} ord (g : A) body must allowed a :
  (∀ f o, preserves same_shape (body f o)) →
  (∀ f o, acts_on o must allowed (body f o)) →
  a ∈ must →
  reaches_dependents a (cascade ord g body).
Proof.
  intros Hshape Hacts Ha fuel self seen_caches st w r s' st' Hw Hguard Hrun.
  pose proof (visit_complete_cascade ord g body must allowed Hshape Hacts
                (S fuel) self true seen_caches st) as Hcomplete.
  rewrite Hrun in Hcomplete. specialize (Hcomplete (r, s') eq_refl). simpl in Hcomplete.
  pose proof (cascade_adds_own_name ord g body must allowed (S fuel) self true
                seen_caches st w r s' st' Hshape Hacts Hw Hrun) as Hown.
  split.
  { apply Hcomplete; [done| |done]. by apply already_seen_false. }
  intros d o w' Hin Ho Hw' Hname.
  destruct (decide (d ∈ default ∅ seen_caches)) as [|Hout]; [by left|]. right.
  apply Hcomplete; [|done|done].
  cbn [cascade] in Hrun.
  rewrite (bind_get_obj self w), Hguard, (bind_add_seen self w) in Hrun by done.
  destruct ord.
  - apply bind_returns in Hrun as (seen2 & st1 & Hloop & Hrun).
    apply bind_returns in Hrun as (r' & st2 & _ & Hret). injection Hret as _ <- _.
    destruct (loop_reaches _ g body must allowed _ _ _ _ _ _ _ _ Hshape Hacts Hloop d o w' Hin Ho Hw');
      [done|by rewrite <- Hname].
  - apply bind_returns in Hrun as (r' & st1 & Hbody & Hrun).
    apply bind_returns in Hrun as (seen2 & st2 & Hloop & Hret). injection Hret as _ <- _.
    pose proof (Hshape fuel self st) as Hs. rewrite Hbody in Hs. simpl in Hs.
    destruct (same_shape_lookup _ _ _ _ Hs Hw') as (w1 & Hw1 & Hn1).
    destruct Hs as [_ Hreg]. rewrite <- Hreg in Ho.
    destruct (loop_reaches _ g body must allowed _ _ _ _ _ _ _ _ Hshape Hacts Hloop d o w1 Hin Ho Hw1);
      [done|by rewrite <- Hname, <- Hn1].
Qed.

(** ** The order of a cascade, with the visits of the dependents *)





(** X17. A cascading call that returns has reached every dependent: the
    action was performed on the wrapper itself and on each of its dependents
    that is registered under its own name and was not in the seen-set (so,
    with the single visit of C1, exactly once).  The action is the load for
    [load], [invalidate] and [load_or_build], the save for [save], the
    deletion for [delete_saved_content], the build for
    [invalidate_and_rebuild]. *)
Theorem cascade_reaches_every_dependent :
  reaches_dependents ALoad (load (W := W)) ∧
  reaches_dependents ASave (save (W := W)) ∧
  reaches_dependents ALoad (invalidate (W := W)) ∧
  reaches_dependents ADelete (delete_saved_content (W := W)) ∧
  reaches_dependents ABuild (invalidate_and_rebuild (W := W)) ∧
  reaches_dependents ALoad (load_or_build (W := W)).
Proof.
  assert (∀ (f o : nat), preserves same_shape (load_body o)) as Hpres_load
    by (intros; preserves_walk).
  assert (∀ (f o : nat), preserves same_shape (save_body o)) as Hpres_save
    by (intros; preserves_walk).
  assert (∀ (f o : nat), preserves same_shape (delete_body o)) as Hpres_delete
    by (intros; preserves_walk).
  split; [|split; [|split; [|split; [|split]]]]; intros fuel.
  - rewrite load_cascade.
    apply (cascade_reaches_dependents _ _ _ [ALoad] [ALoad] ALoad Hpres_load
             (λ _ o, acts_on_load_body o)). actions.
  - rewrite save_cascade.
    apply (cascade_reaches_dependents _ _ _ [ASave] [ASave] ASave Hpres_save
             (λ _ o, acts_on_save_body o)). actions.
  - rewrite invalidate_cascade.
    apply (cascade_reaches_dependents _ _ _ [ALoad] [ALoad] ALoad Hpres_load
             (λ _ o, acts_on_load_body o)). actions.
  - rewrite delete_saved_content_cascade.
    apply (cascade_reaches_dependents _ _ _ [ADelete] [ADelete] ADelete Hpres_delete
             (λ _ o, acts_on_delete_body o)). actions.
  - rewrite invalidate_and_rebuild_cascade.
    apply (cascade_reaches_dependents _ _ _ _ _ ABuild
             preserves_shape_invalidate_and_rebuild_body
             acts_on_invalidate_and_rebuild_body). actions.
  - rewrite load_or_build_cascade.
    apply (cascade_reaches_dependents _ _ _ _ _ ALoad
             preserves_shape_load_or_build_body acts_on_load_or_build_body). actions.
Qed.

(** ** Finalisation and the [with] block *)

Lemma preserves_shape_save fuel self seen_caches apply :
  preserves same_shape (save fuel self apply seen_caches).
Proof. rewrite save_cascade. preserves_walk. Qed.

Lemma del_run fuel self (st : state) w :
  heap st !! self = Some w →
  ∃ st2,
    heap st2 = heap st ∧
    world st2 = world (save fuel self false None st).2 ∧
    log st2 = log (save fuel self false None st).2 ∧
    (∀ m n, m ≠ manager w ∨ n ≠ name w →
            cache_by_name st2 m !! n = cache_by_name st m !! n) ∧
    match (save fuel self false None st).1 with
    | Return _ =>
        __del__ fuel self st = (Return tt, st2) ∧
        cache_by_name st2 (manager w) !! name w = None
    | Raise e => __del__ fuel self st = (Raise e, st2) ∧ cache_by_name st2 = cache_by_name st
    | OutOfFuel => __del__ fuel self st = (OutOfFuel, st2)
    | Dangling => __del__ fuel self st = (Dangling, st2)
    end.
Proof.
  intros Hw.
  pose proof (preserves_heap_save fuel self None false st) as Hheap.
  pose proof (preserves_shape_save fuel self None false st) as [_ Hreg].
  unfold same_heap in Hheap. unfold __del__. rewrite bind_run.
  destruct (save fuel self false None st) as [[r|e| |] st1]; simpl in *;
    try (exists st1; split; [done|]; split; [done|]; split; [done|];
         split; [by intros; rewrite Hreg|]; done).
  rewrite (bind_get_obj self w) by (by rewrite Hheap).
  rewrite bind_run. unfold in_cache_by_name. simpl.
  destruct (bool_decide (is_Some (cache_by_name st1 (manager w) !! name w))) eqn:Hin; simpl.
  - eexists. split; [|split; [|split; [|split; [|split; [done|]]]]]; simpl; try done.
    + intros m n Hmn. destruct (decide (m = manager w)) as [->|]; [|by rewrite Hreg].
      destruct Hmn as [|Hn]; [done|]. by rewrite lookup_delete_ne, Hreg.
    + rewrite decide_True by done. apply lookup_delete_eq.
  - exists st1. split; [done|]. split; [done|]. split; [done|].
    split; [by intros; rewrite Hreg|]. split; [done|].
    apply bool_decide_eq_false in Hin. by apply eq_None_not_Some.
Qed.

(** X18. The finaliser saves the wrapper alone and then removes the name of
    the wrapper from the table of its manager, whichever wrapper is
    registered under that name; every other registration stays and no object
    changes.  When the save raises, the exception ends the finaliser and the
    name stays registered. *)
Theorem del_unregisters_after_save fuel self (st : state) w :
  heap st !! self = Some w →
  let saved := save fuel self false None st in
  let run := __del__ fuel self st in
  heap run.2 = heap st ∧ world run.2 = world saved.2 ∧ log run.2 = log saved.2 ∧
  (∀ m n, m ≠ manager w ∨ n ≠ name w →
          cache_by_name run.2 m !! n = cache_by_name st m !! n) ∧
  (returned saved.1 →
   run.1 = Return tt ∧ cache_by_name run.2 (manager w) !! name w = None) ∧
  (∀ e, saved.1 = Raise e → run.1 = Raise e ∧ cache_by_name run.2 = cache_by_name st).
Proof.
  intros Hw. cbv zeta. destruct (del_run fuel self st w Hw) as (st2 & Hh & Hwd & Hl & Hr & Hrun).
  destruct (save fuel self false None st).1 as [r|e| |]; simpl.
  - destruct Hrun as [-> Hnone]. simpl. do 4 (split; [done|]). by split.
  - destruct Hrun as [-> Hsame]. simpl. do 5 (split; [done|]). by intros e' [= <-].
  - rewrite Hrun. simpl. do 5 (split; [done|]). done.
  - rewrite Hrun. simpl. do 5 (split; [done|]). done.
Qed.

(** X19. Entering a [with] block yields the wrapper and does nothing else.
    Leaving it saves the wrapper and none of its dependents: the call
    returns or raises, a call that returns has written the one save of the
    wrapper to the history, and no object and no registration changes. *)
Theorem exit_saves_self_only fuel self (st : state) w :
  heap st !! self = Some w →
  let run := __exit__ (S fuel) self st in
  __enter__ self st = (Return self, st) ∧
  finished run.1 ∧
  heap run.2 = heap st ∧ cache_by_name run.2 = cache_by_name st ∧
  (returned run.1 → log_since st run.2 = [Ev ASave (name w)]).
Proof.
  intros Hw. cbv zeta. split; [done|].
  pose proof (preserves_heap_save (S fuel) self None false st) as Hheap.
  pose proof (preserves_shape_save (S fuel) self None false st) as [_ Hreg].
  pose proof (finishes_save_alone fuel self st (mk_is_Some _ _ Hw)) as Hfin.
  pose proof (writes_save_alone (S fuel) self st w) as Hlog.
  unfold same_heap in Hheap. unfold __exit__. rewrite bind_run.
  destruct (save (S fuel) self false None st) as [[r|e| |] st1]; simpl in *; try done.
  split; [done|]. split; [done|]. split; [done|]. intros _.
  apply log_since_app. by apply (Hlog r st1).
Qed.

(** ** Adding a dependent by name *)

Lemma set_add_elem x y s : x ∈ set_add y s ↔ x = y ∨ x ∈ s.
Proof.
  unfold set_add. destruct (bool_decide (y ∈ s)) eqn:Hin.
  - apply bool_decide_eq_true in Hin. split; [by right|]. by intros [->|].
  - rewrite elem_of_app, list_elem_of_singleton. tauto.
Qed.

Lemma set_add_NoDup y s : NoDup s → NoDup (set_add y s).
Proof.
  intros Hnd. unfold set_add. destruct (bool_decide (y ∈ s)) eqn:Hin; [done|].
  apply bool_decide_eq_false in Hin. apply NoDup_app. split; [done|].
  split; [|apply NoDup_singleton]. by intros x Hx ->%list_elem_of_singleton.
Qed.




(** ** Construction *)

Lemma init_dependents_returns ds (st : state) ns st' :
  init_dependents ds st = (Return ns, st') →
  st' = st ∧ NoDup ns ∧ ∀ n, n ∈ ns ↔ ∃ d, d ∈ ds ∧ dependent_name st d = Some n.
Proof.
  revert ns. induction ds as [|d ds IH]; simpl; intros ns Hrun.
  - injection Hrun as <- <-. split; [done|]. split; [constructor|].
    intros n. split; [by intros ?%elem_of_nil|]. by intros (d & ?%elem_of_nil & _).
  - apply bind_returns in Hrun as (n0 & st1 & Hconv & Hrun).
    apply bind_returns in Hrun as (ns0 & st2 & Hrest & Hret). injection Hret as <- <-.
    assert (st1 = st ∧ dependent_name st d = Some n0) as [-> Hn0].
    { destruct d as [s|o]; simpl in *.
      - by injection Hconv as <- <-.
      - unfold get_obj in Hconv. rewrite bind_run in Hconv.
        destruct (heap st !! o) as [w|]; [|done]. by injection Hconv as <- <-. }
    destruct (IH _ Hrest) as (-> & Hnd & Hel).
    split; [done|]. split; [by apply set_add_NoDup|].
    intros n. rewrite set_add_elem, Hel. split.
    + intros [->|(d' & Hin & Hd')].
      * exists d. split; [by left|done].
      * exists d'. split; [by right|done].
    + intros (d' & [->|Hin]%elem_of_cons & Hd').
      * left. congruence.
      * right. by exists d'.
Qed.

Lemma init_dependents_live ds (st : state) :
  (∀ o, DepWrapper o ∈ ds → is_Some (heap st !! o)) →
  ∃ ns, init_dependents ds st = (Return ns, st).
Proof.
  induction ds as [|d ds IH]; simpl; intros Hlive; [by eexists|].
  destruct IH as (ns & Hns); [by intros o Ho; apply Hlive; right|].
  assert (∃ n, _convert_dependent_to_name d st = (Return n, st)) as (n & Hn).
  { destruct d as [s|o]; simpl; [by eexists|].
    destruct (Hlive o) as (w & Hw); [by left|].
    exists (name w). by rewrite (bind_get_obj o w). }
  exists (set_add n ns). by rewrite bind_run, Hn, bind_run, Hns.
Qed.

(** The assignments and the registration of [__init__], up to the call of
    [load_or_build]. *)
Lemma init_run fuel c self cache_name v deps cache_manager kw (st : state) ns :
  init_dependents deps st = (Return ns, st) →
  ∃ st1,
    heap st1 = <[self := new_wrapper c cache_name v ns
                           (default default_manager cache_manager) kw]> (heap st) ∧
    world st1 = world st ∧ log st1 = log st ∧
    cache_by_name st1 (default default_manager cache_manager) !! cache_name
      = Some (default self
                (cache_by_name st (default default_manager cache_manager) !! cache_name)) ∧
    (∀ m n, m ≠ default default_manager cache_manager ∨ n ≠ cache_name →
            cache_by_name st1 m !! n = cache_by_name st m !! n) ∧
    __init__ fuel c self cache_name v deps cache_manager kw st =
    (if is_None v then load_or_build fuel self true None;; ret tt else ret tt) st1.
Proof.
  intros Hdeps. unfold __init__.
  assert (∀ {B} (k : nat → M state B),
            (match cache_manager with
             | Some m => ret m
             | None => get_cache_manager
             end ≫= k) st = k (default default_manager cache_manager) st) as ->
    by (intros; by destruct cache_manager).
  set (mgr := default default_manager cache_manager).
  rewrite bind_run, Hdeps. simpl. rewrite bind_run. simpl.
  rewrite bind_run. unfold cache_registered at 1. simpl.
  destruct (cache_by_name st mgr !! cache_name) as [o|] eqn:Ho; simpl.
  - rewrite run_ret.
    eexists. split; [|split; [|split; [|split; [|split; [|done]]]]]; simpl; done.
  - rewrite bind_run. simpl.
    eexists. split; [|split; [|split; [|split; [|split; [|done]]]]]; simpl; try done.
    + rewrite decide_True by done. apply lookup_insert_eq.
    + intros m n Hmn. destruct (decide (m = mgr)) as [->|]; [|done].
      destruct Hmn as [|Hn]; [done|]. by rewrite lookup_insert_ne.
Qed.

Lemma init_returns_dependents fuel c self cache_name v deps cache_manager kw (st : state)
    r st' :
  __init__ fuel c self cache_name v deps cache_manager kw st = (Return r, st') →
  ∃ ns, init_dependents deps st = (Return ns, st).
Proof.
  unfold __init__. intros Hrun.
  apply bind_returns in Hrun as (mgr & st0 & Hmgr & Hrun).
  assert (st0 = st) as -> by (destruct cache_manager; by injection Hmgr as _ <-).
  apply bind_returns in Hrun as (ns & st1 & Hdeps & _).
  destruct (init_dependents_returns _ _ _ _ Hdeps) as (-> & _). by exists ns.
Qed.

(** X21. Constructing a wrapper with contents: no callback runs and nothing
    is loaded or built; the new object holds the contents and, as its
    dependents, the names the given dependents stand for, each once (a
    wrapper is replaced by its name).  The object is registered under its
    name unless the name is taken: then the registration there was stays,
    and the new object cannot be found by name. *)
Theorem init_with_contents fuel c self cache_name v deps cache_manager kw (st : state) :
  v ≠ VNone →
  (∀ o, DepWrapper o ∈ deps → is_Some (heap st !! o)) →
  let mgr := default default_manager cache_manager in
  let run := __init__ fuel c self cache_name v deps cache_manager kw st in
  run.1 = Return tt ∧ world run.2 = world st ∧ log run.2 = log st ∧
  (∃ ns, heap run.2 = <[self := new_wrapper c cache_name v ns mgr kw]> (heap st) ∧
         NoDup ns ∧ ∀ n, n ∈ ns ↔ ∃ d, d ∈ deps ∧ dependent_name st d = Some n) ∧
  cache_by_name run.2 mgr !! cache_name
    = Some (default self (cache_by_name st mgr !! cache_name)) ∧
  (∀ m n, m ≠ mgr ∨ n ≠ cache_name →
          cache_by_name run.2 m !! n = cache_by_name st m !! n).
Proof.
  intros Hv Hlive. cbv zeta.
  destruct (init_dependents_live deps st Hlive) as (ns & Hdeps).
  destruct (init_run fuel c self cache_name v deps cache_manager kw st ns Hdeps)
    as (st1 & Hh & Hwd & Hl & Hreg & Hothers & ->).
  assert (is_None v = false) as -> by (by destruct v).
  simpl. split; [done|]. split; [done|]. split; [done|].
  split; [|by split]. exists ns. split; [done|].
  by destruct (init_dependents_returns _ _ _ _ Hdeps) as (_ & ? & ?).
Qed.

Lemma preserves_but_contents_load_or_build fuel self apply seen_caches :
  preserves same_but_contents (load_or_build fuel self apply seen_caches).
Proof.
  rewrite load_or_build_cascade. apply preserves_cascade; [apply _|]. intros f o.
  apply node_local_load_or_build_body;
    auto using preserves_but_contents_call, preserves_but_contents_emit,
               preserves_but_contents_set_contents with typeclass_instances.
Qed.

(** X22. Constructing a wrapper without contents runs a cascading
    [load_or_build] on the new object once it is set up and registered.  When
    the constructor returns, the wrapper was loaded once and then holds
    contents, or it was loaded, built and saved once; nothing but its
    contents differs from what the arguments gave; and every dependent that
    is registered under its own name was loaded. *)
Theorem init_without_contents_loads_or_builds fuel c self cache_name deps cache_manager kw
    (st st' : state) :
  heap st !! self = None →
  __init__ (S fuel) c self cache_name VNone deps cache_manager kw st = (Return tt, st') →
  let mgr := default default_manager cache_manager in
  (∃ w' ns, heap st' !! self = Some w' ∧
            with_contents VNone w' = new_wrapper c cache_name VNone ns mgr kw ∧
            (∀ n, n ∈ ns ↔ ∃ d, d ∈ deps ∧ dependent_name st d = Some n) ∧
            (own_entries cache_name (log_since st st') = [Ev ALoad cache_name] ∧
             contents w' ≠ VNone ∨
             own_entries cache_name (log_since st st')
             = [Ev ALoad cache_name; Ev ABuild cache_name; Ev ASave cache_name])) ∧
  cache_by_name st' mgr !! cache_name
    = Some (default self (cache_by_name st mgr !! cache_name)) ∧
  ∀ d n o wd, d ∈ deps → dependent_name st d = Some n →
              cache_by_name st mgr !! n = Some o → heap st !! o = Some wd →
              name wd = n →
              Ev ALoad n ∈ log_since st st'.
Proof.
  intros Hfresh Hrun. cbv zeta.
  destruct (init_returns_dependents _ _ _ _ _ _ _ _ _ _ _ Hrun) as (ns & Hdeps).
  destruct (init_dependents_returns _ _ _ _ Hdeps) as (_ & _ & Hns).
  destruct (init_run (S fuel) c self cache_name VNone deps cache_manager kw st ns Hdeps)
    as (st1 & Hh & Hwd & Hl & Hreg & Hothers & Heq).
  rewrite Heq in Hrun. clear Heq. cbn [is_None] in Hrun.
  apply bind_returns in Hrun as ([r s'] & st2 & Hrun & Hret). injection Hret as <-.
  set (mgr := default default_manager cache_manager) in *.
  set (w := new_wrapper c cache_name VNone ns mgr kw) in *.
  assert (heap st1 !! self = Some w) as Hw by (by rewrite Hh, lookup_insert_eq).
  assert (log_since st1 st2 = log_since st st2) as Hsince
    by (unfold log_since; by rewrite Hl).
  pose proof (preserves_but_contents_load_or_build (S fuel) self true None st1) as Hsame.
  rewrite Hrun in Hsame. destruct Hsame as [Hobj Hregs]. simpl in Hobj, Hregs.
  split; [|split].
  - destruct (load_or_build_returns fuel self true None st1 w r s' st2 Hw eq_refl Hrun)
      as (loaded & cn & -> & Hc & Hloaded & Hown).
    specialize (Hobj self). rewrite Hw in Hobj.
    destruct (heap st2 !! self) as [w'|] eqn:Hw'; [|done].
    assert (with_contents VNone w' = with_contents VNone w) as Hobj'
      by (simpl in Hobj; congruence).
    injection Hc as <-.
    exists w', ns. split; [done|]. split; [exact Hobj'|]. split; [done|].
    rewrite Hsince in Hown. simpl in Hown. destruct loaded; [left|by right].
    split; [done|by apply Hloaded].
  - by rewrite Hregs.
  - intros d n o wd Hd Hn Ho Hwd' Hname.
    assert (reaches_dependents ALoad (load_or_build (W := W))) as Hreach.
    { intros f. rewrite load_or_build_cascade.
      apply (cascade_reaches_dependents _ _ _ _ _ ALoad
               preserves_shape_load_or_build_body acts_on_load_or_build_body). actions. }
    destruct (Hreach fuel self None st1 w r s' st2 Hw eq_refl Hrun) as [_ Hdeps'].
    rewrite <- Hsince.
    destruct (Hdeps' n o wd) as [Hin|Hin]; [| | | |by apply not_elem_of_empty in Hin|done].
    + simpl. apply Hns. by exists d.
    + simpl. destruct (decide (n = cache_name)) as [->|Hne].
      * by rewrite Hreg, Ho.
      * rewrite Hothers by (by right). done.
    + rewrite Hh, lookup_insert_ne; [done|]. intros <-. congruence.
    + done.
Qed.


(** ** [NonPersistentCache] *)

Lemma cascade_returns_body R `{!PreOrder R} {A} (g : A) body fuel self apply seen_caches
    (st : state) w r s' st' :
  (∀ f o, preserves R (body f o)) →
  heap st !! self = Some w →
  already_seen (name w) seen_caches = false →
  cascade DependentsFirst g body (S fuel) self apply seen_caches st = (Return (r, s'), st') →
  ∃ st_a, R st st_a ∧ body fuel self st_a = (Return r, st').
Proof.
  intros Hbody Hw Hguard Hrun. cbn [cascade] in Hrun.
  rewrite (bind_get_obj self w), Hguard, (bind_add_seen self w) in Hrun by done.
  apply bind_returns in Hrun as (seen2 & st1 & Hloop & Hrun).
  apply bind_returns in Hrun as (r' & st2 & Hrun & Hret). injection Hret as <- _ <-.
  exists st1. split; [|done].
  assert (preserves R
            (if apply
             then for_dependent_caches
                    (λ o s, r ← cascade DependentsFirst g body fuel o apply (Some s);
                            ret r.2)
                    (manager w) (dependents w) ({[name w]} ∪ default ∅ seen_caches)
             else ret ({[name w]} ∪ default ∅ seen_caches))) as Hp.
  { destruct apply; [|preserves_walk].
    apply preserves_for_dependent_caches; [apply _|]. intros.
    apply preserves_bind; [done|by apply preserves_cascade|intros; preserves_walk]. }
  specialize (Hp st). by rewrite Hloop in Hp.
Qed.

Lemma load_effect_same w1 w2 wd :
  with_contents VNone w1 = with_contents VNone w2 →
  load_effect w1 wd = load_effect w2 wd.
Proof.
  intros Heq.
  pose proof (f_equal loader Heq) as Hl. pose proof (f_equal name Heq) as Hn.
  pose proof (f_equal validator Heq) as Hv. pose proof (f_equal post_processor Heq) as Hp.
  simpl in *. unfold load_effect, post_process_effect. by rewrite Hl, Hn, Hv, Hp.
Qed.

Lemma load_or_build_body_returns f self (st : state) w r st' :
  heap st !! self = Some w →
  load_or_build_body f self st = (Return r, st') →
  ∃ v, (load_effect w (world st)).1.1 = Return v ∧
       (v ≠ VNone → r = Some (true, v)).
Proof.
  intros Hw Hrun. unfold load_or_build_body in Hrun.
  apply bind_returns in Hrun as ([v s] & st1 & Hload & Hrun).
  destruct f as [|f]; [done|].
  rewrite (load_alone_run _ _ _ _ w) in Hload by done.
  destruct (load_effect w (world st)).1.1 as [v'| | |] eqn:Heff; try done.
  pose proof (load_effect_returns _ _ _ Heff) as Hc.
  injection Hload as -> _ <-. exists v. split; [done|]. intros Hv.
  assert (is_None v = false) as Hnone by (by destruct v).
  simpl in Hrun. rewrite Hnone in Hrun. simpl in Hrun. rewrite run_ret in Hrun.
  rewrite (bind_get_obj self (with_contents v w)) in Hrun
    by (simpl; by rewrite Hc, lookup_insert_eq).
  by injection Hrun as <- _.
Qed.

(** X23. A [NonPersistentCache] constructed without contents, without a
    loader of its own and without validator: when the constructor returns,
    the wrapper holds the empty mapping of the default loader and was loaded
    once; it was neither built nor saved, so a builder given to it is not
    called.  Without dependents and post-processor the constructor
    returns. *)
Theorem non_persistent_cache_starts_empty fuel self cache_name deps cache_manager kw
    (st : state) :
  kw_loader kw = None →
  kwargs_get (kw_validator kw) = None →
  (∀ st',
     NonPersistentCache__init__ fuel self cache_name VNone deps cache_manager kw st
     = (Return tt, st') →
     contents <$> heap st' !! self = Some dict_loader ∧
     own_entries cache_name (log_since st st') = [Ev ALoad cache_name]) ∧
  (deps = [] → kwargs_get (kw_post_processor kw) = None →
   (NonPersistentCache__init__ (S (S fuel)) self cache_name VNone deps cache_manager kw
      st).1 = Return tt).
Proof.
  intros Hloader Hvalidator. unfold NonPersistentCache__init__.
  set (mgr := default default_manager cache_manager).
  assert (∀ ns wd,
            load_effect (new_wrapper NonPersistentCacheC cache_name VNone ns mgr
                           (with_default_loader kw)) wd
            = post_process_effect
                (new_wrapper NonPersistentCacheC cache_name VNone ns mgr
                   (with_default_loader kw)) dict_loader wd) as Heffect.
  { intros ns wd. unfold load_effect. simpl. rewrite Hloader. simpl.
    by rewrite Hvalidator. }
  split.
  - intros st' Hrun.
    destruct (init_returns_dependents _ _ _ _ _ _ _ _ _ _ _ Hrun) as (ns & Hdeps).
    destruct (init_run fuel NonPersistentCacheC self cache_name VNone deps cache_manager
                (with_default_loader kw) st ns Hdeps)
      as (st1 & Hh & Hwd & Hl & Hreg & Hothers & Heq).
    rewrite Heq in Hrun. clear Heq. cbn [is_None] in Hrun. fold mgr in Hh.
    apply bind_returns in Hrun as ([r s'] & st2 & Hrun & Hret). injection Hret as <-.
    set (w := new_wrapper NonPersistentCacheC cache_name VNone ns mgr
                (with_default_loader kw)) in *.
    assert (heap st1 !! self = Some w) as Hw by (by rewrite Hh, lookup_insert_eq).
    destruct fuel as [|fuel]; [done|].
    destruct (load_or_build_returns fuel self true None st1 w r s' st2 Hw eq_refl Hrun)
      as (loaded & cn & -> & Hc & _ & Hown).
    rewrite load_or_build_cascade in Hrun.
    destruct (cascade_returns_body same_but_contents None load_or_build_body fuel self
                true None st1 w _ s' st2
                (λ f o, node_local_load_or_build_body same_but_contents o
                          preserves_but_contents_call preserves_but_contents_emit
                          (preserves_but_contents_set_contents o) f)
                Hw eq_refl Hrun) as (st_a & [Hobj _] & Hbody).
    specialize (Hobj self). rewrite Hw in Hobj.
    destruct (heap st_a !! self) as [wa|] eqn:Hwa; [|done].
    assert (with_contents VNone wa = with_contents VNone w) as Hsame
      by (simpl in Hobj; congruence).
    destruct (load_or_build_body_returns _ _ _ _ _ _ Hwa Hbody) as (v & Hv & Hr).
    rewrite (load_effect_same wa w) in Hv by done. subst w. rewrite Heffect in Hv.
    assert (v = dict_loader) as ->.
    { unfold post_process_effect in Hv.
      destruct (post_processor _) as [pp|]; [|by injection Hv].
      destruct (pp dict_loader (world st_a)) as [[e|x] wd']; [done|by injection Hv]. }
    specialize (Hr ltac:(done)). injection Hr as -> ->.
    split; [done|]. unfold log_since in *. by rewrite <- Hl.
  - intros -> Hpost.
    destruct (init_run (S (S fuel)) NonPersistentCacheC self cache_name VNone []
                cache_manager (with_default_loader kw) st [] eq_refl)
      as (st1 & Hh & Hwd & Hl & Hreg & Hothers & ->).
    cbn [is_None]. fold mgr in Hh.
    set (w := new_wrapper NonPersistentCacheC cache_name VNone [] mgr
                (with_default_loader kw)) in *.
    assert (heap st1 !! self = Some w) as Hw by (by rewrite Hh, lookup_insert_eq).
    rewrite bind_run, load_or_build_cascade.
    rewrite (cascade_skips DependentsFirst None load_or_build_body (S fuel) self None st1 w
               preserves_shape_load_or_build_body Hw eq_refl)
      by (by intros d ?%elem_of_nil).
    rewrite (cascade_alone_run _ _ _ _ _ _ w), bind_run by done.
    unfold load_or_build_body. rewrite bind_run.
    rewrite (load_alone_run _ _ _ _ w) by done.
    subst w. rewrite !Heffect. unfold post_process_effect. simpl. rewrite Hpost. simpl.
    rewrite run_ret. unfold get_obj. rewrite bind_run. simpl.
    by rewrite lookup_insert_eq.
Qed.

(** X24. A wrapper constructed under a name that is taken is not registered,
    yet its finaliser removes the name: once the second wrapper is finalised
    the first one, unchanged and alive, can no longer be found by name. *)
Theorem finalising_a_duplicate_unregisters_the_original fuel fuel' c self cache_name v deps
    cache_manager kw (st st1 st2 : state) o :
  v ≠ VNone →
  cache_by_name st (default default_manager cache_manager) !! cache_name = Some o →
  __init__ fuel c self cache_name v deps cache_manager kw st = (Return tt, st1) →
  __del__ fuel' self st1 = (Return tt, st2) →
  cache_by_name st1 (default default_manager cache_manager) !! cache_name = Some o ∧
  cache_by_name st2 (default default_manager cache_manager) !! cache_name = None ∧
  ∀ o', o' ≠ self → heap st2 !! o' = heap st !! o'.
Proof.
  intros Hv Ho Hinit Hdel.
  destruct (init_returns_dependents _ _ _ _ _ _ _ _ _ _ _ Hinit) as (ns & Hdeps).
  destruct (init_run fuel c self cache_name v deps cache_manager kw st ns Hdeps)
    as (st1' & Hh & _ & _ & Hreg & _ & Heq).
  rewrite Heq in Hinit. clear Heq.
  assert (is_None v = false) as Hnone by (by destruct v).
  rewrite Hnone in Hinit. injection Hinit as ->.
  set (w := new_wrapper c cache_name v ns (default default_manager cache_manager) kw) in *.
  assert (heap st1 !! self = Some w) as Hw by (by rewrite Hh, lookup_insert_eq).
  destruct (del_run fuel' self st1 w Hw) as (st2' & Hh2 & _ & _ & _ & Hrun).
  rewrite Ho in Hreg. split; [done|].
  destruct (save fuel' self false None st1).1 as [r|e| |];
    [|destruct Hrun as [Hrun _]; congruence|congruence|congruence].
  destruct Hrun as [Hrun Hnone']. rewrite Hdel in Hrun. injection Hrun as <-.
  split; [done|]. intros o' Hne. by rewrite Hh2, Hh, lookup_insert_ne.
Qed.


End Correctness.

(** * The concrete systems *)

Import Examples.

Lemma registry_ok_system ws wd : registry_ok (system ws wd).
Proof.
  intros m n o Ho. simpl in *. destruct (bool_decide (m = 0)); [|done].
  apply elem_of_list_to_map_2, elem_of_zip_r, elem_of_seq in Ho.
  destruct (lookup_lt_is_Some_2 ws o) as [w Hw]; [lia|].
  exists w. apply elem_of_list_to_map_1.
  - rewrite fst_zip by (rewrite length_seq; lia). apply NoDup_seq.
  - apply list_elem_of_lookup. exists o.
    rewrite lookup_zip_with, lookup_seq_lt by (apply lookup_lt_Some in Hw; lia).
    simpl. by rewrite Hw.
Qed.

(** Cycle safety: on A and B depending on each other, [load_or_build] visits
    B, then A, each once. *)
Example cycle_load_or_build :
  log (load_or_build 4 0 true None cycle).2 =
  [Ev ALoad "B"; Ev ABuild "B"; Ev ASave "B"; Ev ALoad "A"; Ev ABuild "A"; Ev ASave "A"].
Proof. vm_compute. reflexivity. Qed.

(** Diamond cascade: [invalidate] on A loads D once. *)
Example diamond_invalidate :
  log (invalidate 4 0 true None diamond).2 =
  [Ev ALoad "D"; Ev ALoad "B"; Ev ALoad "C"; Ev ALoad "A"].
Proof. vm_compute. reflexivity. Qed.

(** ** C1 on the cycle *)

Lemma cascading_operations_end_visiting_once_witness :
  NoDup (log_since cycle (load_or_build (size (heap cycle) + 2 + 0) 0 true None cycle).2) ∧
  finished (load_or_build (size (heap cycle) + 2 + 0) 0 true None cycle).1.
Proof.
  destruct (cascading_operations_end_visiting_once (W := store)) as (_ & _ & _ & _ & _ & H).
  destruct (H cycle 0 true None 0) as [Hnd Hfin].
  split; [exact Hnd|]. apply Hfin; [apply registry_ok_system | by eexists].
Defined.

(** ** C2: the order of [invalidate_and_rebuild] *)


Example chain_invalidate_and_rebuild :
  log (invalidate_and_rebuild 3 0 true None chain).2 =
  [Ev ALoad "A"; Ev ADelete "A"; Ev ABuild "A"; Ev ASave "A";
   Ev ALoad "B"; Ev ADelete "B"; Ev ABuild "B"; Ev ASave "B"].
Proof. vm_compute. reflexivity. Qed.


(** ** C3: a builder that returns [None] *)



(** [_build] on a wrapper with a builder and a post-processor: the wrapper
    holds the result of the builder, which the post-processor has seen and
    the saver has stored; what the post-processor returned is not kept. *)
Example build_keeps_builder_result :
  let run := _build 1 0 buildable in
  run.1 = Return (kv "k" "v") ∧
  contents <$> heap run.2 !! 0 = Some (kv "k" "v") ∧
  world run.2 !! "post_processor saw" = Some (kv "k" "v") ∧
  world run.2 !! "A" = Some (kv "k" "v") ∧
  (upper_post (kv "k" "v") (world buildable)).1 = inr (kv "k" "V2").
Proof. by vm_compute. Qed.

(** ** C4: the result of the post-processor *)

(** C4 (the code at the failing input). The loader finds [{k: v}] and no
    validator objects; the post-processor is called on it and returns
    [{k: V2}]; the wrapper ends Loaded with [{k: v}], not with the result of
    the post-processor. *)
Lemma load_drops_post_processor_result :
  let run := load 1 0 false None post_processed in
  run.1 = Return (kv "k" "v", {["A"]}) ∧
  contents <$> heap run.2 !! 0 = Some (kv "k" "v") ∧
  world run.2 !! "post_processor saw" = Some (kv "k" "v") ∧
  (upper_post (kv "k" "v") (world post_processed)).1 = inr (kv "k" "V2").
Proof. by vm_compute. Qed.

(** ** C5: a saver whose result is falsy *)

(** C5 as stated fails: the saver is called and returns [None]; [save]
    returns the contents. *)
Lemma save_with_falsy_saver_result_returns_contents :
  let run := save 1 0 false None saved in
  (pickle_saver "A" (kv "k" "v") (world saved)).1 = inr VNone ∧
  run.1 = Return (kv "k" "v", {["A"]}) ∧
  world run.2 !! "A" = Some (kv "k" "v").
Proof. by vm_compute. Qed.

Lemma save_result_witness :
  (save 1 0 false None saved).1 = Return (kv "k" "v", {["A"]} ∪ ∅) ∧
  world (save 1 0 false None saved).2 = {[ "A" := kv "k" "v" ]}.
Proof.
  apply (save_result 0 0 None saved (persistent "A" (kv "k" "v") []) (kv "k" "v") ∅
           eq_refl eq_refl (conj eq_refl eq_refl) VNone).
  by vm_compute.
Defined.

(** ** C6 on a wrapper without contents *)

Lemma absent_contents_proxy_witness :
  __getitem__ 0 "k" chain =
    (Raise (AttributeError "No cache contents defined for 'A'"), chain) ∧
  __contains__ 0 "k" chain = (Return false, chain).
Proof.
  destruct (absent_contents_proxy 0 (plain "A" VNone ["B"]) chain "k" "v")
    as (Hget & _ & _ & _ & _ & Hin & _); [by vm_compute..|].
  split; [exact Hget | exact Hin].
Defined.

(** ** C7: the message of the unknown attribute *)

(** C7 as stated fails: the message of the error does not contain the name
    of the cache. *)
Lemma unknown_attribute_message_omits_cache_name :
  __getattr__ builtin_getter 0 "foo" users =
    (Raise (AttributeError "'CacheWrap' and 'dict' objects have no attribute 'foo'"),
     users) ∧
  occurs_in "users" "'CacheWrap' and 'dict' objects have no attribute 'foo'" = false.
Proof. by vm_compute. Qed.

Lemma unknown_attribute_message_witness :
  __getattr__ builtin_getter 0 "foo" users =
    (Raise (AttributeError "'CacheWrap' and 'dict' objects have no attribute 'foo'"),
     users) ∧
  occurs_in "CacheWrap" "'CacheWrap' and 'dict' objects have no attribute 'foo'" = true ∧
  occurs_in "dict" "'CacheWrap' and 'dict' objects have no attribute 'foo'" = true ∧
  occurs_in "foo" "'CacheWrap' and 'dict' objects have no attribute 'foo'" = true ∧
  __getattr__ builtin_getter 0 "foo" (system [plain "dict" (VDict ∅) []] ∅) =
    (Raise (AttributeError "'CacheWrap' and 'dict' objects have no attribute 'foo'"),
     system [plain "dict" (VDict ∅) []] ∅).
Proof.
  destruct (unknown_attribute_message builtin_getter 0 (plain "users" (VDict ∅) []) users
              "foo") as (Hraise & Hcls & Hty & Hattr & Hsame).
  - by vm_compute.
  - intros g get _ Hg. unfold builtin_getter in Hg.
    destruct (bool_decide (g = "__getattribute__")); [|done].
    by injection Hg as <-.
  - split; [exact Hraise|]. split; [exact Hcls|]. split; [exact Hty|].
    split; [exact Hattr|].
    apply (Hsame (system [plain "dict" (VDict ∅) []] ∅) (plain "dict" (VDict ∅) []));
      by vm_compute.
Defined.

(** ** C8 on a persistent wrapper *)


(** ** C9: a wrapper given to [add_dependent] *)

(** C9 (the code at the failing input). [add_dependent] given the wrapper A
    does not add the name of A: the set refuses the wrapper and stays as it
    was.  The constructor, given the same wrapper, derives the name.  Given
    the name, [add_dependent] adds it, and adding it again changes nothing. *)
Lemma add_dependent_does_not_convert_wrapper :
  let run := add_dependent 1 (DepWrapper 0) chain in
  run.1 = Raise (TypeError "unhashable type: 'CacheWrap'") ∧
  dependents <$> heap run.2 !! 1 = Some [] ∧
  (init_dependents [DepWrapper 0] chain).1 = Return ["A"] ∧
  dependents <$> heap (add_dependent 1 (DepName "A") chain).2 !! 1 = Some ["A"] ∧
  dependents <$>
    heap (add_dependent 1 (DepName "A") (add_dependent 1 (DepName "A") chain).2).2 !! 1 =
  Some ["A"].
Proof. by vm_compute. Qed.

(** ** C10 on a loader that raises *)

Lemma load_not_atomic_on_loader_failure_witness :
  (load 1 0 false None unloadable).1 = Raise (CallbackFailure "loader") ∧
  contents <$> heap (load 1 0 false None unloadable).2 !! 0 = Some VNone.
Proof.
  destruct (load_not_atomic_on_loader_failure 0 0 None unloadable
              {| cls := CacheWrapC; name := "A"; contents := kv "k" "v"; dependents := [];
                 manager := 0; loader := Some failing_loader; saver := None;
                 builder := None; deleter := None; pre_processor := None;
                 post_processor := None; validator := None |}
              failing_loader (CallbackFailure "loader") ∅)
    as (Hraise & Hheap & _); [by vm_compute..|].
  split; [exact Hraise|]. rewrite Hheap. by vm_compute.
Defined.


(** ** The mapping proxy on concrete wrappers *)

Lemma setitem_then_getitem_witness :
  __getitem__ 0 "k" (__setitem__ 0 "k" "v" users).2
  = (Return "v", (__setitem__ 0 "k" "v" users).2).
Proof.
  destruct (setitem_then_getitem 0 (plain "users" (VDict ∅) []) ∅ users "k" "v")
    as (_ & H & _); [by vm_compute..|].
  exact H.
Defined.

Lemma missing_key_raises_witness :
  __getitem__ 0 "k" users = (Raise (KeyError "k"), users) ∧
  __delitem__ 0 "k" users = (Raise (KeyError "k"), users) ∧
  __contains__ 0 "k" users = (Return false, users).
Proof.
  apply (missing_key_raises 0 (plain "users" (VDict ∅) []) ∅ users "k"); by vm_compute.
Defined.

Lemma delitem_removes_key_witness :
  __contains__ 0 "k" (__delitem__ 0 "k" saved).2
  = (Return false, (__delitem__ 0 "k" saved).2) ∧
  (__len__ 0 (__delitem__ 0 "k" saved).2).1 = Return 0.
Proof.
  destruct (delitem_removes_key 0 (persistent "A" (kv "k" "v") []) {[ "k" := "v" ]}
              saved "k" "v") as (_ & Hin & _ & _ & Hlen); [by vm_compute..|].
  split; [exact Hin|]. rewrite Hlen. by vm_compute.
Defined.

Lemma iter_lists_keys_witness :
  ∃ keys, __iter__ 0 saved = (Return keys, saved) ∧ NoDup keys ∧
          __len__ 0 saved = (Return (length keys), saved) ∧
          ∀ key, key ∈ keys ↔ __contains__ 0 key saved = (Return true, saved).
Proof.
  apply (iter_lists_keys 0 (persistent "A" (kv "k" "v") []) {[ "k" := "v" ]} saved);
    by vm_compute.
Defined.

(** ** [load] on concrete wrappers *)

Lemma load_without_loader_witness :
  (load 1 0 false None users).1 = Return (VNone, {["users"]} ∪ ∅) ∧
  heap (load 1 0 false None users).2
  = <[0 := with_contents VNone (plain "users" (VDict ∅) [])]> (heap users) ∧
  world (load 1 0 false None users).2 = world users.
Proof.
  apply (load_without_loader 0 0 None users (plain "users" (VDict ∅) [])); by vm_compute.
Defined.

Lemma load_rejected_ends_unloaded_witness :
  (load 1 0 false None (validated rejecting)).1 = Return (VNone, {["A"]} ∪ ∅) ∧
  contents <$> heap (load 1 0 false None (validated rejecting)).2 !! 0 = Some VNone.
Proof.
  destruct (load_rejected_ends_unloaded 0 0 None (validated rejecting)
              {| cls := CacheWrapC; name := "A"; contents := VNone; dependents := [];
                 manager := 0; loader := Some pickle_loader; saver := None;
                 builder := None; deleter := None; pre_processor := None;
                 post_processor := None; validator := Some rejecting |}
              pickle_loader (kv "k" "v") {[ "A" := kv "k" "v" ]} {[ "A" := kv "k" "v" ]})
    as (Hret & Hheap & _); [by vm_compute..| |].
  - right. split; [done|]. by exists rejecting, (VBool false).
  - split; [exact Hret|]. rewrite Hheap. by vm_compute.
Defined.

Lemma load_accepted_ends_loaded_witness :
  (load 1 0 false None stored).1 = Return (kv "k" "v", {["A"]} ∪ ∅) ∧
  contents <$> heap (load 1 0 false None stored).2 !! 0 = Some (kv "k" "v").
Proof.
  destruct (load_accepted_ends_loaded 0 0 None stored (persistent "A" VNone [])
              pickle_loader (kv "k" "v") {[ "A" := kv "k" "v" ]} {[ "A" := kv "k" "v" ]})
    as (Hret & Hheap & _); [by vm_compute..|].
  split; [exact Hret|]. rewrite Hheap. by vm_compute.
Defined.

Lemma load_keeps_result_when_check_raises_witness :
  (load 1 0 false None post_fails).1 = Raise (CallbackFailure "post_processor") ∧
  contents <$> heap (load 1 0 false None post_fails).2 !! 0 = Some (kv "k" "v").
Proof.
  destruct (load_keeps_result_when_check_raises 0 0 None post_fails
              {| cls := CacheWrapC; name := "A"; contents := VNone; dependents := [];
                 manager := 0; loader := Some pickle_loader; saver := None;
                 builder := None; deleter := None; pre_processor := None;
                 post_processor := Some failing_post; validator := Some accepting |}
              pickle_loader (kv "k" "v") {[ "A" := kv "k" "v" ]}
              (CallbackFailure "post_processor") {[ "A" := kv "k" "v" ]})
    as (Hret & Hheap & _); [by vm_compute..| |].
  - right. exists {[ "A" := kv "k" "v" ]}, failing_post.
    split; [by exists (VBool true)|done].
  - split; [exact Hret|]. rewrite Hheap. by vm_compute.
Defined.

(** The same with a validator that raises: the wrapper holds what the loader
    found. *)
Example load_with_raising_validator :
  (load 1 0 false None (validated failing_validator)).1
  = Raise (CallbackFailure "validator") ∧
  contents <$> heap (load 1 0 false None (validated failing_validator)).2 !! 0
  = Some (kv "k" "v").
Proof. by vm_compute. Qed.

(** ** Histories on the chain and the cycle *)

Lemma own_history_of_operations_witness :
  own_entries "A" (log_since chain (invalidate_and_rebuild 3 0 true None chain).2)
  = [Ev ALoad "A"; Ev ADelete "A"; Ev ABuild "A"; Ev ASave "A"].
Proof.
  destruct (own_history_of_operations 2 0 true None chain (plain "A" VNone ["B"]))
    as (_ & _ & _ & _ & H); [by vm_compute..|].
  apply (H (tt, {["A"; "B"]}) (invalidate_and_rebuild 3 0 true None chain).2).
  by vm_compute.
Defined.

Lemma load_or_build_result_witness :
  ∃ loaded c,
    Some (false, VDict ∅) = Some (loaded, c) ∧
    contents <$> heap (load_or_build 4 0 true None cycle).2 !! 0 = Some c ∧
    (loaded = true → c ≠ VNone) ∧
    own_entries "A" (log_since cycle (load_or_build 4 0 true None cycle).2) =
      if loaded then [Ev ALoad "A"] else [Ev ALoad "A"; Ev ABuild "A"; Ev ASave "A"].
Proof.
  apply (load_or_build_result 3 0 true None cycle (plain "A" VNone ["B"])
           (Some (false, VDict ∅)) {["A"; "B"]} (load_or_build 4 0 true None cycle).2);
    by vm_compute.
Defined.

Lemma build_saves_what_it_built_witness :
  ∃ p wd1 wd2 r,
    (p = VDict ∅ ∧ wd2 = wd1) ∧
    pickle_saver "A" p wd2 = (inr r, world (_build 1 0 saved).2).
Proof.
  apply (build_saves_what_it_built 1 0 saved (persistent "A" (kv "k" "v") []) (VDict ∅)
           (_build 1 0 saved).2 pickle_saver); by vm_compute.
Defined.

(** ** Dependents that are skipped, dependents that are reached *)

Lemma unresolved_dependents_are_skipped_witness :
  load 2 0 true None orphan = load 2 0 false None orphan.
Proof.
  destruct (unresolved_dependents_are_skipped (W := store)) as (H & _).
  apply (H 1 0 None orphan (plain "A" VNone ["Z"])); [by vm_compute..|].
  intros d [->|?%elem_of_nil]%elem_of_cons; [|done]. right. right. by vm_compute.
Defined.

Lemma cascade_reaches_every_dependent_witness :
  Ev ALoad "A" ∈ log_since diamond (load 4 0 true None diamond).2 ∧
  Ev ALoad "C" ∈ log_since diamond (load 4 0 true None diamond).2.
Proof.
  destruct (cascade_reaches_every_dependent (W := store)) as (H & _).
  destruct (H 3 0 None diamond (persistent "A" VNone ["B"; "C"]) VNone
              {["A"; "B"; "C"; "D"]} (load 4 0 true None diamond).2)
    as [Hself Hdeps]; [by vm_compute..|].
  split; [exact Hself|].
  destruct (Hdeps "C" 2 (persistent "C" VNone ["D"])) as [Hin|Hin];
    [by (right; left)|by vm_compute..| |exact Hin].
  by apply not_elem_of_empty in Hin.
Defined.

(** ** Construction and finalisation on the chain *)

Lemma del_unregisters_after_save_witness :
  (__del__ 1 0 saved).1 = Return tt ∧
  cache_by_name (__del__ 1 0 saved).2 0 !! "A" = None.
Proof.
  destruct (del_unregisters_after_save 1 0 saved (persistent "A" (kv "k" "v") []))
    as (_ & _ & _ & _ & H & _); [by vm_compute|].
  apply H. by vm_compute.
Defined.

Lemma exit_saves_self_only_witness :
  log_since chain (__exit__ 1 0 chain).2 = [Ev ASave "A"].
Proof.
  destruct (exit_saves_self_only 0 0 chain (plain "A" VNone ["B"]))
    as (_ & _ & _ & _ & H); [by vm_compute|].
  apply H. by vm_compute.
Defined.


Lemma init_with_contents_witness :
  (__init__ 0 CacheWrapC 2 "C" (kv "k" "v") [DepWrapper 0] None no_callbacks chain).1
  = Return tt ∧
  cache_by_name
    (__init__ 0 CacheWrapC 2 "C" (kv "k" "v") [DepWrapper 0] None no_callbacks chain).2
    0 !! "C" = Some 2.
Proof.
  destruct (init_with_contents 0 CacheWrapC 2 "C" (kv "k" "v") [DepWrapper 0] None
              no_callbacks chain) as (Hret & _ & _ & _ & Hreg & _).
  - done.
  - intros o [[= ->]|?%elem_of_nil]%elem_of_cons; [|done]. vm_compute. by eexists.
  - split; [exact Hret|]. etrans; [exact Hreg|]. by vm_compute.
Defined.

Lemma init_without_contents_loads_or_builds_witness :
  Ev ALoad "B" ∈
    log_since chain
      (__init__ 3 CacheWrapC 2 "C" VNone [DepName "B"] None no_callbacks chain).2.
Proof.
  destruct (init_without_contents_loads_or_builds 2 CacheWrapC 2 "C" [DepName "B"] None
              no_callbacks chain
              (__init__ 3 CacheWrapC 2 "C" VNone [DepName "B"] None no_callbacks chain).2)
    as (_ & _ & H); [by vm_compute..|].
  apply (H (DepName "B") "B" 1 (plain "B" VNone [])); [by left|by vm_compute..].
Defined.

Lemma non_persistent_cache_starts_empty_witness :
  contents <$>
    heap (NonPersistentCache__init__ 2 2 "N" VNone [] None builder_only chain).2 !! 2
  = Some dict_loader ∧
  (NonPersistentCache__init__ 2 2 "N" VNone [] None builder_only chain).1 = Return tt.
Proof.
  destruct (non_persistent_cache_starts_empty 2 2 "N" [] None builder_only chain)
    as [H _]; [by vm_compute..|].
  destruct (non_persistent_cache_starts_empty 0 2 "N" [] None builder_only chain)
    as [_ Hret]; [by vm_compute..|].
  split; [|by apply Hret].
  apply (H (NonPersistentCache__init__ 2 2 "N" VNone [] None builder_only chain).2).
  by vm_compute.
Defined.

Lemma finalising_a_duplicate_unregisters_the_original_witness :
  cache_by_name
    (__del__ 1 2
       (__init__ 0 CacheWrapC 2 "A" (kv "k" "v") [] None no_callbacks chain).2).2
    0 !! "A" = None ∧
  is_Some (heap chain !! 0).
Proof.
  destruct (finalising_a_duplicate_unregisters_the_original 0 1 CacheWrapC 2 "A"
              (kv "k" "v") [] None no_callbacks chain
              (__init__ 0 CacheWrapC 2 "A" (kv "k" "v") [] None no_callbacks chain).2
              (__del__ 1 2
                 (__init__ 0 CacheWrapC 2 "A" (kv "k" "v") [] None no_callbacks chain).2).2
              0) as (_ & H & _); [by vm_compute..|].
  split; [exact H|]. vm_compute. by eexists.
Defined.
